(** * Cold-outreach backend: a shallow embedding and its verified properties

    The development follows the Python sources under [backend/]:
    [email_filter.py], [ai_service.py], [email_service.py],
    [email_scraper.py], [linkedin_service.py] and [app.py].  Each module
    below embeds the functions of one source file; the theorems come after
    all the definitions.

    Text is modelled as [list ascii]; a text that is not ASCII is held as
    its UTF-8 encoding.  The model of [str.lower], [str.capitalize],
    [str.title], [str.strip] and of the regular-expression class [\d] is
    the ASCII one: it coincides with Python on ASCII text, which is what
    the e-mail addresses the scraper extracts are made of.  The answers of
    the language model are arbitrary text: for them [len] counts
    characters, not bytes, and [strip_unicode] removes the white space of
    Unicode. *)

From Stdlib Require Import Ascii String DecimalString ZArith.
From stdpp Require Import gmap strings list.

Local Open Scope list_scope.
Local Open Scope nat_scope.

(* ===================================================================== *)
(** * Python strings *)
(* ===================================================================== *)

Module PyStr.

Definition str := list ascii.

(** A literal of the source. *)
Definition lit (s : string) : str := list_ascii_of_string s.

Definition code (c : ascii) : nat := nat_of_ascii c.

Definition is_upper (c : ascii) : bool := (65 <=? code c) && (code c <=? 90).
Definition is_lower (c : ascii) : bool := (97 <=? code c) && (code c <=? 122).
Definition is_alpha (c : ascii) : bool := is_upper c || is_lower c.
Definition is_digit (c : ascii) : bool := (48 <=? code c) && (code c <=? 57).

(** [str.isspace] on ASCII: tab, LF, VT, FF, CR, FS, GS, RS, US, space. *)
Definition is_space (c : ascii) : bool :=
  ((9 <=? code c) && (code c <=? 13))
  || ((28 <=? code c) && (code c <=? 32)).

Definition lower_char (c : ascii) : ascii :=
  if is_upper c then ascii_of_nat (code c + 32) else c.
Definition upper_char (c : ascii) : ascii :=
  if is_lower c then ascii_of_nat (code c - 32) else c.

(** [s.lower()] on ASCII text: the bytes of other characters are left as
    they are, where Python may change the character and its length. *)
Definition lower (s : str) : str := map lower_char s.

(** [s.capitalize()]: first character upper-cased, the rest lower-cased. *)
Definition capitalize (s : str) : str :=
  match s with
  | [] => []
  | c :: s' => upper_char c :: lower s'
  end.

(** [s.title()]: a letter that follows a letter is lower-cased, any other
    letter is upper-cased. *)
Fixpoint title_from (previous_is_cased : bool) (s : str) : str :=
  match s with
  | [] => []
  | c :: s' =>
      (if previous_is_cased then lower_char c else upper_char c)
        :: title_from (is_alpha c) s'
  end.
Definition title (s : str) : str := title_from false s.

(** [c in s] for a one-character [c]. *)
Definition contains_char (c : ascii) (s : str) : bool :=
  existsb (Ascii.eqb c) s.

(** [s.startswith(p)] *)
Fixpoint startswith (p s : str) : bool :=
  match p, s with
  | [], _ => true
  | _ :: _, [] => false
  | a :: p', b :: s' => Ascii.eqb a b && startswith p' s'
  end.

(** [s.endswith(p)] *)
Definition endswith (p s : str) : bool := startswith (rev p) (rev s).

(** [p in s] for a substring [p]. *)
Fixpoint contains (p s : str) : bool :=
  startswith p s ||
  match s with
  | [] => false
  | _ :: s' => contains p s'
  end.

(** [s.split(sep)] for a one-character separator: never the empty list. *)
Fixpoint split (sep : ascii) (s : str) : list str :=
  match s with
  | [] => [[]]
  | c :: s' =>
      if Ascii.eqb c sep then [] :: split sep s'
      else match split sep s' with
           | [] => [[c]]
           | p :: ps => (c :: p) :: ps
           end
  end.

(** [sep.join(parts)] *)
Fixpoint join (sep : str) (parts : list str) : str :=
  match parts with
  | [] => []
  | [p] => p
  | p :: ps => p ++ sep ++ join sep ps
  end.

(** [s.replace(p, '')]: every non-overlapping occurrence of [p], leftmost
    first, is removed in one pass.  (All patterns of the source are
    non-empty.) *)
Fixpoint remove_all (p s : str) (fuel : nat) : str :=
  match fuel with
  | 0 => s
  | S fuel' =>
      match s with
      | [] => []
      | c :: s' =>
          if startswith p s then remove_all p (drop (length p) s) fuel'
          else c :: remove_all p s' fuel'
      end
  end.

Definition replace_with_empty (p s : str) : str :=
  match p with
  | [] => s
  | _ => remove_all p s (length s)
  end.

(** [s.strip()] on ASCII text: the white space removed is the ASCII
    one. *)
Fixpoint lstrip (s : str) : str :=
  match s with
  | [] => []
  | c :: s' => if is_space c then lstrip s' else s
  end.
Definition rstrip (s : str) : str := rev (lstrip (rev s)).
Definition strip (s : str) : str := rstrip (lstrip s).

(** [len(s)] for a text held as UTF-8: the characters (code points), that
    is the bytes that do not continue one. *)
Definition is_continuation (b : ascii) : bool := (128 <=? code b) && (code b <=? 191).
Definition len (s : str) : nat :=
  length (List.filter (fun b => negb (is_continuation b)) s).

(** The white space of [str.isspace] outside ASCII, as UTF-8: U+0085 and
    U+00A0 take two bytes; U+1680, U+2000 to U+200A, U+2028, U+2029,
    U+202F, U+205F and U+3000 take three. *)
Definition is_space2 (a b : ascii) : bool :=
  Nat.eqb (code a) 194 && (Nat.eqb (code b) 133 || Nat.eqb (code b) 160).
Definition is_space3 (a b c : ascii) : bool :=
  (Nat.eqb (code a) 225 && Nat.eqb (code b) 154 && Nat.eqb (code c) 128)
  || (Nat.eqb (code a) 226 && Nat.eqb (code b) 128
      && (((128 <=? code c) && (code c <=? 138))
          || Nat.eqb (code c) 168 || Nat.eqb (code c) 169 || Nat.eqb (code c) 175))
  || (Nat.eqb (code a) 226 && Nat.eqb (code b) 129 && Nat.eqb (code c) 159)
  || (Nat.eqb (code a) 227 && Nat.eqb (code b) 128 && Nat.eqb (code c) 128).

(** [s.strip()] on any text.  The bytes of a character come first byte
    first when the text is read from its start ([forward]), last byte
    first when it is read from its end. *)
Fixpoint lstrip_unicode (forward : bool) (s : str) : str :=
  match s with
  | [] => []
  | a :: s1 =>
      if is_space a then lstrip_unicode forward s1
      else
        match s1 with
        | [] => s
        | b :: s2 =>
            if (if forward then is_space2 a b else is_space2 b a)
            then lstrip_unicode forward s2
            else
              match s2 with
              | [] => s
              | c :: s3 =>
                  if (if forward then is_space3 a b c else is_space3 c b a)
                  then lstrip_unicode forward s3
                  else s
              end
        end
  end.
Definition strip_unicode (s : str) : str :=
  rev (lstrip_unicode false (rev (lstrip_unicode true s))).

(** [s[:-2]] *)
Definition drop_last2 (s : str) : str := take (length s - 2) s.

(** [str(n)] for a non-negative integer. *)
Definition str_of_nat (n : nat) : str :=
  lit (NilZero.string_of_uint (Nat.to_uint n)).

(** [re.sub(r'\d+$', '', s)].  [$] matches at the very end and also just
    before a newline that ends the string, so the digit run that is
    removed either ends the string or is followed by that last newline. *)
Fixpoint drop_digits (r : str) : str :=
  match r with
  | [] => []
  | c :: r' => if is_digit c then drop_digits r' else r
  end.

Definition newline : ascii := ascii_of_nat 10.

Definition sub_trailing_digits (s : str) : str :=
  match rev s with
  | c :: d :: r =>
      if Ascii.eqb c newline && is_digit d
      then rev (c :: drop_digits (d :: r))
      else rev (drop_digits (c :: d :: r))
  | r => rev (drop_digits r)
  end.

End PyStr.

(* ===================================================================== *)
(** * email_filter.py *)
(* ===================================================================== *)

Module EmailFilter.
Import PyStr.

Record person := Person { email : str; name : str }.

Record filter_result := FilterResult {
  real_people : list person;
  support_emails : list str;
  analysis : str;
  emails_only : list str;
  names_only : list str
}.

(** The alternatives of the eight patterns [r'^(a|b|...)@']. *)
Definition support_patterns : list (list str) :=
  [ map lit ["support"; "help"; "info"; "contact"; "customer"; "service"];
    map lit ["hr"; "careers"; "jobs"; "recruiting"; "talent"];
    map lit ["sales"; "marketing"; "admin"; "office"];
    map lit ["noreply"; "donotreply"; "no-reply"; "automated"];
    map lit ["webmaster"; "postmaster"; "mail"; "email"];
    map lit ["billing"; "accounting"; "finance"];
    map lit ["legal"; "compliance"; "security"];
    map lit ["it"; "tech"; "system"; "server"] ]%string.

(** [re.match(r'^(a|b|...)@', s)]: some alternative followed by ['@'] is
    a prefix of [s]. *)
Definition re_match (alternatives : list str) (s : str) : bool :=
  existsb (fun a => startswith (a ++ lit "@") s) alternatives.

(** [_split_concatenated_name] *)
Definition _split_concatenated_name (name : str) : list str :=
  let name := lower name in
  if endswith (lit "ms") name then [drop_last2 name; lit "ms"]
  else if endswith (lit "jr") name then [drop_last2 name; lit "jr"]
  else if 6 <? length name then
    let mid := length name / 2 in
    [take mid name; drop mid name]
  else [name].

(** [_extract_name_from_email].  No operation of the [try] body raises on
    a [str], so the bare [except] is never taken. *)
Definition _extract_name_from_email (email : str) : str :=
  let local_part := hd [] (split "@" email) in
  let local_part := sub_trailing_digits local_part in
  let name_parts :=
    if contains_char "." local_part then split "." local_part
    else if contains_char "_" local_part then split "_" local_part
    else _split_concatenated_name local_part in
  let name :=
    join (lit " ")
      (map capitalize
         (List.filter (fun word => negb (Nat.eqb (length word) 0) && (1 <? length word))
            name_parts)) in
  match name with
  | [] => capitalize local_part
  | _ => name
  end.

(** The test made on one address in the loop of [_fallback_filter]. *)
Definition is_support (email : str) : bool :=
  let email_lower := lower email in
  existsb (fun pattern => re_match pattern email_lower) support_patterns.

Definition has_name_pattern (email : str) : bool :=
  let local_part := hd [] (split "@" (lower email)) in
  contains_char "." local_part || contains_char "_" local_part
  || (3 <? length local_part).

(** One iteration of the [for email in emails] loop on the two
    accumulators. *)
Definition fallback_step (acc : list person * list str) (email : str)
  : list person * list str :=
  let '(real_people, support_emails) := acc in
  if is_support email then (real_people, support_emails ++ [email])
  else if has_name_pattern email then
    (real_people ++ [Person email (_extract_name_from_email email)], support_emails)
  else (real_people, support_emails ++ [email]).

(** [_fallback_filter] *)
Definition _fallback_filter (emails : list str) (company_domain : str) : filter_result :=
  let '(real_people, support_emails) := fold_left fallback_step emails ([], []) in
  {| real_people := real_people;
     support_emails := support_emails;
     analysis :=
       lit "Rule-based filtering: " ++ str_of_nat (length real_people)
       ++ lit " potential people, " ++ str_of_nat (length support_emails)
       ++ lit " support emails";
     emails_only := map email real_people;
     names_only := map name real_people |}.

End EmailFilter.

(* ===================================================================== *)
(** * ai_service.py *)
(* ===================================================================== *)

Module AIService.
Import PyStr.

(** The four canned paragraphs of [get_predefined_templates].  The dash
    of each first sentence is U+2014: one character, three bytes. *)
Definition templates : list str :=
  [ lit "Most scaling challenges feel like you're constantly putting out fires — but that's where the interesting engineering problems live. I'm Mantavya Mahajan, a Computer Science and Mathematics student at Penn State, currently working as a GenAI intern at Scale AI. I've been following your company's work in building robust infrastructure, and your approach to handling high-throughput systems really stands out. My experience with optimizing API performance (boosted throughput by 15% to 1,440 req/sec at M8) and building ML pipelines could be valuable as you scale. Here's some of my work: https://mantavya-mahajan-portfolio.vercel.app/. Would you be open to a quick chat about internship opportunities this summer, or even fall and full-time roles starting December 2025?";
    lit "Building products that actually solve real problems is harder than it looks — most tools end up being clunky workarounds. I'm Mantavya Mahajan, a Computer Science and Mathematics student at Penn State, currently working as a GenAI intern at Scale AI. Your product's focus on user experience and technical elegance really caught my attention. With my background in full-stack development and AI systems (built multi-agent workflows reducing content creation time by 60%), I'd love to contribute to what you're building. Check out my work: https://mantavya-mahajan-portfolio.vercel.app/. Would you be open to a quick chat about summer internships or full-time opportunities starting December 2025?";
    lit "Data pipelines that actually work reliably are surprisingly rare — yours seem to be the exception. I'm Mantavya Mahajan, a CS and Math student at Penn State, currently interning at Scale AI on GenAI systems. I've been impressed by your approach to handling large-scale data processing and your focus on reliability. My experience with building RAG systems, optimizing database performance, and working with real-time data processing could add value to your team. Here's my portfolio: https://mantavya-mahajan-portfolio.vercel.app/. Would you be interested in a quick chat about internship opportunities or full-time roles starting December 2025?";
    lit "Most AI tools feel like black boxes wrapped in hype — but your approach to transparency and practical implementation is refreshing. I'm Mantavya Mahajan, a Computer Science and Mathematics student at Penn State, currently working as a GenAI intern at Scale AI. Your work on making AI actually useful for real business problems really resonates with me. With my experience in LLM optimization, building evaluation frameworks, and full-stack AI applications, I think I could contribute meaningfully to your mission. Check out my work: https://mantavya-mahajan-portfolio.vercel.app/. Would you be open to discussing summer internship or full-time opportunities starting December 2025?" ]%string.

(** [random.choice(templates)]; [rnd] is the draw of the generator. *)
Definition get_predefined_templates (rnd : nat) : str :=
  nth (rnd mod length templates) templates [].

(** The double-quote character of the prompt text. *)
Definition dq : str := [ascii_of_nat 34].

Definition prompt_head : str :=
  lit "You are writing a cold outreach email for Mantavya Mahajan to a tech company. Follow this EXACT structure and tone:

STRUCTURE (6-8 sentences total):
1. **Hook**: One short, witty sentence about their product/industry pain point
2. **Intro**: "
    ++ dq ++ lit "I'm Mantavya Mahajan, a Computer Science and Mathematics student at Penn State, currently working as a GenAI intern at Scale AI."
    ++ dq ++ lit "
3. **Knowledge**: 1-2 sentences showing you know what they do (be specific)
4. **Value**: 1-2 sentences on relevant skills/experience that could help them
5. **Portfolio**: Natural mention: "
    ++ dq ++ lit "Here's some of my work: https://mantavya-mahajan-portfolio.vercel.app/"
    ++ dq ++ lit "
6. **Ask**: "
    ++ dq ++ lit "Would you be open to a quick chat about internship opportunities this summer, or even fall and full-time roles starting December 2025?"
    ++ dq ++ lit "

TONE: Casual, confident, not salesy. No buzzwords or jargon.

RESUME HIGHLIGHTS TO USE:
- Scale AI: GenAI intern improving LLM accuracy, building evaluation systems
- M8: Lead Backend Developer, optimized APIs to 1,440 req/sec
- Voodies: Full-stack AI engineer, built multi-agent workflows
- Projects: Meal Plan Optimizer (5,000+ transactions), EPU Index (50,000+ headlines)
- Skills: Python, AI/ML, full-stack development, system optimization

COMPANY INFO:
".

Definition prompt_tail : str :=
  lit "

Generate the complete email following this structure. Keep it conversational and specific to their company/role:".

(** The f-string [prompt] of [generate_personalized_paragraph]. *)
Definition prompt (job_description : str) : str :=
  prompt_head ++ job_description ++ prompt_tail.

(** What one call [model.generate_content(prompt)] does: it raises an
    exception (one that derives from [Exception], as the errors of the
    service do), or it returns a falsy response (or one whose text is
    missing), or it returns a response with some text. *)
Inductive gen_outcome :=
| GenRaises
| GenFalsy
| GenText (text : str).

(** A configured model: the answer of the remote service to a prompt. *)
Definition model := str -> gen_outcome.

Record ai_service := AI {
  models : list model;
  current_key_index : nat
}.

(** The quality check of the source on the stripped text:
    [len(generated_email) > 200 and "Mantavya Mahajan" in generated_email]. *)
Definition quality_ok (generated_email : str) : bool :=
  (200 <? len generated_email)
  && contains (lit "Mantavya Mahajan") generated_email.

(** [self.current_key_index = (self.current_key_index + 1) % len(self.models)] *)
Definition next_key (self : ai_service) : ai_service :=
  {| models := models self;
     current_key_index := (current_key_index self + 1) mod length (models self) |}.

(** The [for attempt in range(len(self.models))] loop, [n] iterations
    left.  [calls] records the index of each model on which
    [generate_content] was called.  An index out of range raises
    [IndexError] inside the [try] and counts as a failed attempt. *)
Fixpoint attempts (n : nat) (self : ai_service) (p : str) (calls : list nat)
  : option str * ai_service * list nat :=
  match n with
  | 0 => (None, self, calls)
  | S n' =>
      match models self !! current_key_index self with
      | None => attempts n' (next_key self) p calls
      | Some m =>
          let calls := calls ++ [current_key_index self] in
          match m p with
          | GenText text =>
              match text with
              | [] => attempts n' (next_key self) p calls
              | _ =>
                  let generated_email := strip_unicode text in
                  if quality_ok generated_email
                  then (Some generated_email, self, calls)
                  else attempts n' (next_key self) p calls
              end
          | _ => attempts n' (next_key self) p calls
          end
      end
  end.

(** [generate_personalized_paragraph]: the returned text, the service
    afterwards and the [generate_content] calls made. *)
Definition generate_personalized_paragraph
    (self : ai_service) (rnd : nat) (resume_content job_description : str)
  : str * ai_service * list nat :=
  match models self with
  | [] => (get_predefined_templates rnd, self, [])
  | _ =>
      match resume_content, job_description with
      | [], _ | _, [] => (get_predefined_templates rnd, self, [])
      | _, _ =>
          match attempts (length (models self)) self (prompt job_description) [] with
          | (Some generated_email, self', calls) => (generated_email, self', calls)
          | (None, self', calls) => (get_predefined_templates rnd, self', calls)
          end
      end
  end.

End AIService.

(* ===================================================================== *)
(** * email_service.py *)
(* ===================================================================== *)

Module EmailService.
Import PyStr.

Record provider := Provider {
  name : str;
  smtp_server : str;
  port : nat;
  email : option str;
  password : option str;
  use_ssl : bool
}.

Record email_service := Service { email_providers : list provider }.

(** Truthiness of an [os.getenv] result. *)
Definition truthy_env (v : option str) : bool :=
  match v with
  | Some (_ :: _) => true
  | _ => false
  end.

(** [__init__]: the three candidate providers, those without credentials
    filtered out. *)
Definition init (getenv : string -> option str) : email_service :=
  let candidates :=
    [ Provider (lit "Gmail") (lit "smtp.gmail.com") 465
        (getenv "GMAIL_EMAIL"%string) (getenv "GMAIL_APP_PASSWORD"%string) true;
      Provider (lit "Gmail_TLS") (lit "smtp.gmail.com") 587
        (getenv "GMAIL_EMAIL"%string) (getenv "GMAIL_APP_PASSWORD"%string) false;
      Provider (lit "Outlook") (lit "smtp-mail.outlook.com") 587
        (getenv "OUTLOOK_EMAIL"%string) (getenv "OUTLOOK_PASSWORD"%string) false ] in
  Service (List.filter (fun p => truthy_env (email p) && truthy_env (password p)) candidates).

(** The exceptions of the [try] body of [send_email] that derive from
    [Exception], by the [except] clause they reach. *)
Inductive smtp_exn :=
| SMTPAuthenticationError
| SMTPRecipientsRefused
| SMTPServerDisconnected
| OtherException.

(** What a stage of the [try] body raises: an exception that derives from
    [Exception], or one that does not, such as [KeyboardInterrupt] or
    [SystemExit].  (An interrupt during the [time.sleep] that follows a
    failed pass counts with that pass.) *)
Inductive raised :=
| Exception (e : smtp_exn)
| BaseException.

(** The stages of one pass through the [try] body; the [print] calls
    between them belong to the stage that follows, the last one to
    [Quit]. *)
Inductive smtp_step :=
| Compose       (* the first prints, then the building of the MIME message *)
| Connect       (* smtplib.SMTP_SSL(...) or smtplib.SMTP(...) *)
| StartTLS      (* server.starttls() *)
| Login         (* server.login(...) *)
| SendMessage   (* server.send_message(msg) *)
| Quit.         (* server.quit() *)

Definition session_steps (p : provider) : list smtp_step :=
  if use_ssl p then [Compose; Connect; Login; SendMessage; Quit]
  else [Compose; Connect; StartTLS; Login; SendMessage; Quit].

(** Runs the stages in order; the first one that raises ends the pass.
    The result lists the stages carried out, the one that raised
    included, and gives the exception, if any. *)
Fixpoint run_steps (answer : smtp_step -> option raised) (steps : list smtp_step)
  : list smtp_step * option raised :=
  match steps with
  | [] => ([], None)
  | st :: rest =>
      match answer st with
      | Some e => ([st], Some e)
      | None => let '(done, e) := run_steps answer rest in (st :: done, e)
      end
  end.

(** What a call returns to its caller. *)
Inductive outcome (A : Type) :=
| Returns (a : A)
| Propagates (e : raised).
Arguments Returns {A} a.
Arguments Propagates {A} e.

(** The four [except] clauses of [send_email]: which exceptions they
    catch.  The last clause is [except Exception]; no clause catches an
    exception that does not derive from [Exception]. *)
Definition caught (e : raised) : bool :=
  match e with
  | Exception SMTPAuthenticationError => true
  | Exception SMTPRecipientsRefused => true
  | Exception SMTPServerDisconnected => true
  | Exception OtherException => true
  | BaseException => false
  end.

Record bulk_results := Results { sent : nat; failed : nat; total : nat }.

Section World.
(** The world around the service: what each stage of the [clock]-th pass
    through the [try] body, made with provider [p], does ([None]: it goes
    through). *)
Variable smtp : nat -> provider -> smtp_step -> option raised.

(** What the [print] that follows the loop does, the one call outside the
    [try] body that writes a text of the caller, the address: it raises
    [UnicodeEncodeError] when the standard output cannot encode it.  The
    prints of fixed texts and of the fields of a provider, in the [except]
    clauses and before the loop, are taken to go through. *)
Variable report : str -> option raised.

(** The [for provider in self.email_providers] loop, and the [print] and
    [return False] that follow it.  [log] lists the passes made so far,
    each with its provider and the stages carried out; [clock] counts the
    passes made since the service started. *)
Fixpoint try_providers (providers : list provider) (to_email : str)
    (log : list (provider * list smtp_step)) (clock : nat)
  : outcome bool * list (provider * list smtp_step) * nat :=
  match providers with
  | [] =>
      match report to_email with
      | None => (Returns false, log, clock)
      | Some e => (Propagates e, log, clock)
      end
  | p :: rest =>
      match run_steps (smtp clock p) (session_steps p) with
      | (done, None) => (Returns true, log ++ [(p, done)], S clock)
      | (done, Some e) =>
          if caught e then try_providers rest to_email (log ++ [(p, done)]) (S clock)
          else (Propagates e, log ++ [(p, done)], S clock)
      end
  end.

(** [send_email] *)
Definition send_email (self : email_service) (to_email subject body : str) (clock : nat)
  : outcome bool * list (provider * list smtp_step) * nat :=
  match email_providers self with
  | [] => (Returns false, [], clock)
  | providers => try_providers providers to_email [] clock
  end.
End World.

(** [create_email_content] *)
Definition create_email_content (recipient_email company_name personalized_email_content : str)
  : str * str :=
  (lit "Quick question about opportunities at " ++ company_name,
   personalized_email_content).

(** A standard output that takes every address. *)
Definition printable : str -> option raised := fun _ => None.

Section Servers.
(** The mail servers: what they answer at each stage of the [clock]-th
    pass.  Their failures are exceptions that derive from [Exception]. *)
Variable smtp : nat -> provider -> smtp_step -> option smtp_exn.

(** The world in which nothing but the servers raises. *)
Definition uninterrupted : nat -> provider -> smtp_step -> option raised :=
  fun clock p st => option_map Exception (smtp clock p st).

(** One iteration of the loop of [send_bulk_emails].  The last case is
    the [except Exception] clause of the loop. *)
Definition bulk_step (self : email_service) (company_name personalized_email_content : str)
    (acc : bulk_results * nat) (email : str) : bulk_results * nat :=
  let '(results, clock) := acc in
  let '(subject, body) := create_email_content email company_name personalized_email_content in
  match send_email uninterrupted printable self email subject body clock with
  | (Returns true, _, clock') =>
      (Results (sent results + 1) (failed results) (total results), clock')
  | (Returns false, _, clock') =>
      (Results (sent results) (failed results + 1) (total results), clock')
  | (Propagates _, _, clock') =>
      (Results (sent results) (failed results + 1) (total results), clock')
  end.

(** [send_bulk_emails], with servers whose failures derive from
    [Exception] and a standard output that takes every address. *)
Definition send_bulk_emails (self : email_service) (email_list : list str)
    (company_name personalized_email_content : str) (clock : nat) : bulk_results * nat :=
  fold_left (bulk_step self company_name personalized_email_content) email_list
    (Results 0 0 (length email_list), clock).
End Servers.

End EmailService.

(* ===================================================================== *)
(** * email_scraper.py *)
(* ===================================================================== *)

Module EmailScraper.
Import PyStr.

(** [clean_domain], with the ASCII [strip] and [lower]: the function of
    the source on a domain made of ASCII characters. *)
Definition clean_domain (domain_input : str) : option str :=
  let domain := lower (strip domain_input) in
  let domain :=
    replace_with_empty (lit "www.")
      (replace_with_empty (lit "http://")
         (replace_with_empty (lit "https://") domain)) in
  let domain := hd [] (split "/" domain) in
  if contains_char "." domain then Some domain else None.

End EmailScraper.

(* ===================================================================== *)
(** * app.py *)
(* ===================================================================== *)

Module App.
Import PyStr.

(** The values that travel through the request data and the campaign
    records: JSON values, a dictionary being a finite map on its keys. *)
#[warnings="-register-all"] Inductive json :=
| JNull
| JBool (b : bool)
| JNum (n : Z)
| JFloat (numerator : Z) (denominator : positive)
| JStr (s : str)
| JList (l : list json)
| JObj (o : gmap string json).

(** Python truthiness. *)
Definition truthy (v : json) : bool :=
  match v with
  | JNull => false
  | JBool b => b
  | JNum n => negb (n =? 0)%Z
  | JFloat n _ => negb (n =? 0)%Z
  | JStr s => negb (Nat.eqb (length s) 0)
  | JList l => negb (Nat.eqb (length l) 0)
  | JObj o => negb (Nat.eqb (size o) 0)
  end.

(** A call returns a value or raises an exception, kept as its message
    [str(e)]. *)
Inductive result (A : Type) :=
| Ok (a : A)
| Raise (msg : str).
Arguments Ok {A} a.
Arguments Raise {A} msg.

(** [type(v).__name__] *)
Definition type_name (v : json) : str :=
  match v with
  | JNull => lit "NoneType"
  | JBool _ => lit "bool"
  | JNum _ => lit "int"
  | JFloat _ _ => lit "float"
  | JStr _ => lit "str"
  | JList _ => lit "list"
  | JObj _ => lit "dict"
  end.

(** The messages of the exceptions the interpreter raises, in the wording
    of CPython 3.11: [AttributeError] for a missing method, [KeyError]
    for a missing key, [TypeError] for a subscript or a comparison the
    type does not have. *)
Definition no_attribute (v : json) (attribute : string) : str :=
  lit "'" ++ type_name v ++ lit "' object has no attribute '" ++ lit attribute ++ lit "'".

Definition key_error (key : string) : str := lit "'" ++ lit key ++ lit "'".

Definition not_subscriptable (v : json) : str :=
  match v with
  | JList _ => lit "list indices must be integers or slices, not str"
  | JStr _ => lit "string indices must be integers, not 'str'"
  | _ => lit "'" ++ type_name v ++ lit "' object is not subscriptable"
  end.

Definition not_ordered (v : json) : str :=
  lit "'>' not supported between instances of '" ++ type_name v ++ lit "' and 'int'".

(** [d.get(key, default)]: only dictionaries have the method. *)
Definition get (d : json) (key : string) (otherwise : json) : result json :=
  match d with
  | JObj o => Ok (default otherwise (o !! key))
  | _ => Raise (no_attribute d "get")
  end.

(** [d[key]] for a key that is a string. *)
Definition subscript (d : json) (key : string) : result json :=
  match d with
  | JObj o =>
      match o !! key with
      | Some v => Ok v
      | None => Raise (key_error key)
      end
  | _ => Raise (not_subscriptable d)
  end.

(** [l[:n]] for a list [l]: [n] is an integer (a boolean counts as
    one), or [None]; anything else raises [TypeError]. *)
Definition slice_to_int (l : list json) (n : Z) : list json :=
  if (0 <=? n)%Z then take (Z.to_nat n) l
  else take (length l - Z.to_nat (- n)) l.

Definition slice_to (l : list json) (n : json) : result (list json) :=
  match n with
  | JNull => Ok l
  | JNum n => Ok (slice_to_int l n)
  | JBool b => Ok (slice_to_int l (if b then 1 else 0)%Z)
  | _ => Raise (lit "slice indices must be integers or None or have an __index__ method")
  end.

(** The module globals [campaign_results] and [campaign_counter]. *)
Record globals := Globals {
  campaign_results : list (gmap string json);
  campaign_counter : Z
}.

Definition initial_globals : globals := Globals [] 1.

(** The services the campaign body calls: each call returns or raises. *)
Record world := World {
  load_resume : str;
  generate_personalized_paragraph : str -> json -> result str;
  find_emails : str -> result (list json);
  (** [AIService] of this repository has no method of this name: there
      the attribute lookup raises [AttributeError] at every call. *)
  generate_personalized_email : str -> json -> str -> json -> result json;
  (** Recipient, the value placed after the fixed subject prefix, body. *)
  send_email : json -> json -> json -> result bool;
  search_people_by_emails : list json -> str -> result (list json);
  (** [time.time()] *)
  now : json
}.

(** [result['errors'].append(msg)] *)
Definition append_error (msg : str) (record : gmap string json) : gmap string json :=
  alter (fun v => match v with
                  | JList l => JList (l ++ [JStr msg])
                  | v => v
                  end) "errors"%string record.

(** The record built at the start of [run_campaign_async]. *)
Definition new_record (campaign_id : Z) (domain : json) : gmap string json :=
  list_to_map
    [ ("id", JNum campaign_id); ("domain", domain); ("status", JStr (lit "running"));
      ("emails_found", JNum 0); ("emails_sent", JNum 0); ("linkedin_sent", JNum 0);
      ("errors", JList []) ]%string.

(** [v > 0]: numbers compare with [0], anything else raises. *)
Definition greater_than_zero (v : json) : result bool :=
  match v with
  | JNum n => Ok (0 <? n)%Z
  | JBool b => Ok b
  | JFloat n _ => Ok (0 <? n)%Z
  | _ => Raise (not_ordered v)
  end.

Section Body.
Variable w : world.

(** The loop over [emails[:target_email_count]]: every exception of an
    iteration is swallowed by [continue]. *)
Definition send_loop (resume_content : str) (job_description : json)
    (company_name personalized_email : str) (targets : list json) : nat :=
  fold_left
    (fun emails_sent email =>
       match generate_personalized_email w resume_content job_description company_name email with
       | Raise _ => emails_sent
       | Ok personalized_content =>
           match get personalized_content "subject" (JStr (lit "Partnership Inquiry")),
                 get personalized_content "body" (JStr personalized_email) with
           | Ok subject, Ok body =>
               match send_email w email subject body with
               | Ok true => emails_sent + 1
               | _ => emails_sent
               end
           | _, _ => emails_sent
           end
       end)
    targets 0.

(** The [if email_enabled:] block.  Returns the record and the binding
    of the local [emails] ([None] while it is unbound). *)
Definition email_outreach (clean_domain : str) (target_email_count : json)
    (resume_content : str) (job_description : json)
    (company_name personalized_email : str) (record : gmap string json)
  : gmap string json * option (list json) :=
  match find_emails w clean_domain with
  | Raise msg => (append_error (lit "Email error: " ++ msg) record, None)
  | Ok emails =>
      let record := <["emails_found"%string := JNum (Z.of_nat (length emails))]> record in
      match emails with
      | [] => (record, Some emails)
      | _ =>
          match slice_to emails target_email_count with
          | Raise msg => (append_error (lit "Email error: " ++ msg) record, Some emails)
          | Ok targets =>
              let emails_sent :=
                send_loop resume_content job_description company_name personalized_email targets in
              (<["emails_sent"%string := JNum (Z.of_nat emails_sent)]> record, Some emails)
          end
      end
  end.

(** [sum(1 for r in linkedin_results if r.get('connected'))] *)
Fixpoint count_connected (linkedin_results : list json) : result nat :=
  match linkedin_results with
  | [] => Ok 0
  | r :: rest =>
      match get r "connected" JNull with
      | Raise msg => Raise msg
      | Ok c =>
          match count_connected rest with
          | Raise msg => Raise msg
          | Ok n => Ok (if truthy c then S n else n)
          end
      end
  end.

(** The [if linkedin_enabled:] block.  While the local [emails] is
    unbound, reading it raises [UnboundLocalError] (message of CPython
    3.11). *)
Definition linkedin_outreach (emails : option (list json)) (company_name : str)
    (record : gmap string json) : gmap string json :=
  match emails with
  | None =>
      append_error
        (lit "LinkedIn error: cannot access local variable 'emails' where it is not associated with a value")
        record
  | Some emails =>
      match take 10 emails with
      | [] => record
      | target_emails =>
          match search_people_by_emails w target_emails company_name with
          | Raise msg => append_error (lit "LinkedIn error: " ++ msg) record
          | Ok linkedin_results =>
              let record :=
                <["linkedin_people_found"%string := JNum (Z.of_nat (length linkedin_results))]> record in
              match count_connected linkedin_results with
              | Raise msg => append_error (lit "LinkedIn error: " ++ msg) record
              | Ok n => <["linkedin_connections_sent"%string := JNum (Z.of_nat n)]> record
              end
          end
      end
  end.

(** The handler of the outer [except Exception]. *)
Definition fail_with (msg : str) (record : gmap string json) : gmap string json :=
  append_error msg (<["status"%string := JStr (lit "failed")]> record).

(** The final update of the status, and [completed_at]. *)
Definition finish (record : gmap string json) : gmap string json :=
  let completed := <["completed_at"%string := now w]> (<["status"%string := JStr (lit "completed")]> record) in
  let failed := <["completed_at"%string := now w]> (<["status"%string := JStr (lit "failed")]> record) in
  match record !! "emails_sent"%string with
  | None => fail_with (key_error "emails_sent") record
  | Some emails_sent =>
      match greater_than_zero emails_sent with
      | Raise msg => fail_with msg record
      | Ok true => completed
      | Ok false =>
          match greater_than_zero
                  (default (JNum 0) (record !! "linkedin_connections_sent"%string)) with
          | Raise msg => fail_with msg record
          | Ok true => completed
          | Ok false => failed
          end
      end
  end.

(** The [try] statement of [run_campaign_async] on the record it has
    appended to [campaign_results]. *)
Definition campaign_body (campaign_data : gmap string json) (record : gmap string json)
  : gmap string json :=
  let target_email_count := default (JNum 5) (campaign_data !! "target_email_count"%string) in
  let job_description := default (JStr []) (campaign_data !! "job_description"%string) in
  let email_enabled := default (JBool true) (campaign_data !! "email_enabled"%string) in
  let linkedin_enabled := default (JBool true) (campaign_data !! "linkedin_enabled"%string) in
  match campaign_data !! "domain"%string with
  | None => fail_with (key_error "domain") record
  | Some (JStr domain) =>
      match EmailScraper.clean_domain domain with
      | None => append_error (lit "Invalid domain") (<["status"%string := JStr (lit "failed")]> record)
      | Some clean_domain =>
          let company_name := title (hd [] (split "." clean_domain)) in
          let resume_content := load_resume w in
          match generate_personalized_paragraph w resume_content job_description with
          | Raise msg => fail_with msg record
          | Ok personalized_email =>
              let '(record, emails) :=
                if truthy email_enabled
                then email_outreach clean_domain target_email_count resume_content
                       job_description company_name personalized_email record
                else (record, None) in
              let record :=
                if truthy linkedin_enabled
                then linkedin_outreach emails company_name record
                else record in
              finish record
          end
      end
  | Some domain => fail_with (no_attribute domain "strip") record
  end.
End Body.

(** ** The background thread and the request handler *)

(** Where a thread running [run_campaign_async] stands. *)
Inductive thread :=
| AtReadCounter (campaign_data : json)
    (* before [campaign_id = campaign_counter] *)
| AtIncrement (campaign_data : json) (campaign_id : Z)
    (* before [campaign_counter += 1] *)
| AtAppend (campaign_data : json) (campaign_id : Z)
    (* before the record is built and appended *)
| AtBody (campaign_data : gmap string json) (slot : nat)
    (* before the [try] statement; the record is [campaign_results[slot]] *)
| Finished
| Died (msg : str).
    (* an exception left [run_campaign_async] *)

(** One step of a thread on the globals.  The record is shared: the body
    updates it in place at its position in [campaign_results]. *)
Definition thread_step (w : world) (g : globals) (t : thread) : globals * thread :=
  match t with
  | AtReadCounter data => (g, AtIncrement data (campaign_counter g))
  | AtIncrement data campaign_id =>
      (Globals (campaign_results g) (campaign_counter g + 1), AtAppend data campaign_id)
  | AtAppend data campaign_id =>
      match data, subscript data "domain" with
      | JObj o, Ok domain =>
          (Globals (campaign_results g ++ [new_record campaign_id domain]) (campaign_counter g),
           AtBody o (length (campaign_results g)))
      | _, Raise msg => (g, Died msg)
      | _, _ => (g, Died (not_subscriptable data))
      end
  | AtBody data slot =>
      (Globals (alter (campaign_body w data) slot (campaign_results g)) (campaign_counter g),
       Finished)
  | Finished => (g, Finished)
  | Died msg => (g, Died msg)
  end.

Fixpoint thread_steps (w : world) (n : nat) (g : globals) (t : thread) : globals * thread :=
  match n with
  | 0 => (g, t)
  | S n' => let '(g', t') := thread_step w g t in thread_steps w n' g' t'
  end.

(** A thread needs at most four steps to end. *)
Definition run_thread (w : world) (g : globals) (t : thread) : globals * thread :=
  thread_steps w 4 g t.

Record response := Response { status_code : nat; payload : gmap string json }.

Definition error_response (code : nat) (msg : str) : response :=
  Response code {[ "error"%string := JStr msg ]}.

(** The validation of [launch_campaign]: [None] when the request passes,
    the error response otherwise.  [request_json] is what [request.json]
    gives; an exception anywhere in the [try] gives status 500. *)
Definition validate (request_json : result json) : option response :=
  match request_json with
  | Raise msg => Some (error_response 500 msg)
  | Ok data =>
      if negb (truthy data) then Some (error_response 400 (lit "Domain is required"))
      else
        match get data "domain" JNull with
        | Raise msg => Some (error_response 500 msg)
        | Ok domain =>
            if negb (truthy domain) then Some (error_response 400 (lit "Domain is required"))
            else
              match get data "email_enabled" JNull, get data "linkedin_enabled" JNull with
              | Ok e, Ok l =>
                  if negb (truthy e) && negb (truthy l)
                  then Some (error_response 400 (lit "At least one outreach method must be enabled"))
                  else None
              | Raise msg, _ | _, Raise msg => Some (error_response 500 msg)
              end
        end
  end.

(** The success response: it reads [campaign_counter] when it is built. *)
Definition success_response (g : globals) : response :=
  Response 200
    (list_to_map
       [ ("success", JBool true);
         ("message", JStr (lit "Campaign launched successfully"));
         ("campaign_id", JNum (campaign_counter g - 1)) ]%string).

(** [launch_campaign].  After [campaign_thread.start()] the new thread
    runs beside the handler: [head_start] is the number of steps it takes
    before the handler builds the response.  The result is the response,
    the globals at that moment and the thread started, if any. *)
Definition launch_campaign (w : world) (g : globals) (request_json : result json)
    (head_start : nat) : response * globals * option thread :=
  match validate request_json, request_json with
  | Some r, _ => (r, g, None)
  | None, Ok data =>
      let '(g', t) := thread_steps w head_start g (AtReadCounter data) in
      (success_response g', g', Some t)
  | None, Raise msg => (error_response 500 msg, g, None)
  end.

(** The whole request: the handler, then the thread to its end. *)
Definition serve_launch (w : world) (g : globals) (request_json : result json)
    (head_start : nat) : response * globals :=
  match launch_campaign w g request_json head_start with
  | (r, g', Some t) => (r, fst (run_thread w g' t))
  | (r, g', None) => (r, g')
  end.

End App.

(* ===================================================================== *)
(** * Notions used in the statements *)
(* ===================================================================== *)

Module Statements.
Import PyStr.

(** The addresses [_fallback_filter] keeps as people. *)
Definition is_person (email : str) : bool :=
  negb (EmailFilter.is_support email) && EmailFilter.has_name_pattern email.

(** The role names of the eight fallback patterns, in their order. *)
Definition generic_role_names : list str :=
  map lit
    [ "support"; "help"; "info"; "contact"; "customer"; "service";
      "hr"; "careers"; "jobs"; "recruiting"; "talent";
      "sales"; "marketing"; "admin"; "office";
      "noreply"; "donotreply"; "no-reply"; "automated";
      "webmaster"; "postmaster"; "mail"; "email";
      "billing"; "accounting"; "finance";
      "legal"; "compliance"; "security";
      "it"; "tech"; "system"; "server" ]%string.

(** The local part of an address: [email.split('@')[0]]. *)
Definition local_part (email : str) : str := hd [] (split "@" email).

(** A word with its first letter made a capital and the rest left as it
    is. *)
Definition first_letter_capitalized (word : str) : str :=
  match word with
  | [] => []
  | c :: rest => upper_char c :: rest
  end.

(** The [real_people] entry the loop builds for an address. *)
Definition as_person (email : str) : EmailFilter.person :=
  EmailFilter.Person email (EmailFilter._extract_name_from_email email).

Definition all_alpha (s : str) : Prop := Forall (fun c => is_alpha c = true) s.
Definition all_digits (s : str) : Prop := Forall (fun c => is_digit c = true) s.

(** The index of [AIService] points at one of its models. *)
Definition well_formed (self : AIService.ai_service) : Prop :=
  AIService.models self = []
  \/ AIService.current_key_index self < length (AIService.models self).

(** A text is good enough to be sent: it has more than 200 characters
    and names the sender. *)
Definition good_enough (text : str) : bool :=
  (200 <? len text) && contains (lit "Mantavya Mahajan") text.

(** An attempt on model [m] fails: the call raises, or gives no text, or
    gives a text that, once stripped, is not good enough. *)
Definition attempt_fails (p : str) (m : AIService.model) : bool :=
  match m p with
  | AIService.GenText (c :: text) => negb (good_enough (strip_unicode (c :: text)))
  | _ => true
  end.

(** The indices [k], [k+1], ... taken modulo [len], [n] of them. *)
Definition rotation (k n len : nat) : list nat :=
  map (fun j => (k + j) mod len) (seq 0 n).

(** Stage [st] of the pass made at time [clock] with provider [p] goes
    through. *)
Definition passes (smtp : nat -> EmailService.provider -> EmailService.smtp_step
                          -> option EmailService.raised)
    (clock : nat) (p : EmailService.provider) (st : EmailService.smtp_step) : bool :=
  match smtp clock p st with
  | None => true
  | Some _ => false
  end.

(** The stages of a pass in the order of an SMTP session: the message is
    built, the connection is opened, STARTTLS is asked for on a connection
    that does not start encrypted, then come the login, the sending and
    the end of the session. *)
Definition stages (p : EmailService.provider) : list EmailService.smtp_step :=
  [EmailService.Compose; EmailService.Connect]
  ++ (if EmailService.use_ssl p then [] else [EmailService.StartTLS])
  ++ [EmailService.Login; EmailService.SendMessage; EmailService.Quit].

(** The stages carried out in a pass: every stage up to the first that
    raises, that one included. *)
Fixpoint upto_first_failure (goes : EmailService.smtp_step -> bool)
    (order : list EmailService.smtp_step) : list EmailService.smtp_step :=
  match order with
  | [] => []
  | st :: rest => st :: (if goes st then upto_first_failure goes rest else [])
  end.

Definition carried_out (smtp : nat -> EmailService.provider -> EmailService.smtp_step
                               -> option EmailService.raised)
    (clock : nat) (p : EmailService.provider) : list EmailService.smtp_step :=
  upto_first_failure (passes smtp clock p) (stages p).

(** The exception that ends the pass: the one of the first stage that
    raises, [None] when every stage goes through. *)
Definition ends_with (smtp : nat -> EmailService.provider -> EmailService.smtp_step
                             -> option EmailService.raised)
    (clock : nat) (p : EmailService.provider) : option EmailService.raised :=
  match List.find (fun st => negb (passes smtp clock p st)) (stages p) with
  | Some st => smtp clock p st
  | None => None
  end.

(** Provider [p] delivers the message in the pass made at time [clock]:
    every stage up to [send_message] goes through. *)
Definition delivers (smtp : nat -> EmailService.provider -> EmailService.smtp_step
                            -> option EmailService.raised)
    (clock : nat) (p : EmailService.provider) : bool :=
  forallb (passes smtp clock p)
    ([EmailService.Compose; EmailService.Connect]
     ++ (if EmailService.use_ssl p then [] else [EmailService.StartTLS])
     ++ [EmailService.Login; EmailService.SendMessage]).

(** The pass goes through to its end: the message is delivered and
    [quit()] returns. *)
Definition completes (smtp : nat -> EmailService.provider -> EmailService.smtp_step
                             -> option EmailService.raised)
    (clock : nat) (p : EmailService.provider) : bool :=
  delivers smtp clock p && passes smtp clock p EmailService.Quit.

(** The passes made with the providers before position [i], the first of
    them at time [clock], each end with an exception that derives from
    [Exception]. *)
Definition all_caught (smtp : nat -> EmailService.provider -> EmailService.smtp_step
                              -> option EmailService.raised)
    (clock : nat) (providers : list EmailService.provider) (i : nat) : Prop :=
  forall j q, j < i -> providers !! j = Some q ->
    exists e, ends_with smtp (clock + j) q = Some (EmailService.Exception e).

(** What is left of a text after the three removals and the cut at the
    first ['/'] of [clean_domain]. *)
Definition cleaned_core (s : str) : str :=
  hd [] (split "/"
           (replace_with_empty (lit "www.")
              (replace_with_empty (lit "http://")
                 (replace_with_empty (lit "https://") s)))).

Definition all_space (s : str) : Prop := Forall (fun c => is_space c = true) s.
Definition no_space (s : str) : Prop := Forall (fun c => is_space c = false) s.

(** The status of a campaign record. *)
Definition has_status (record : gmap string App.json) (status : string) : Prop :=
  record !! "status"%string = Some (App.JStr (lit status)).

(** The record counts no e-mail sent and no LinkedIn connection sent. *)
Definition nothing_sent (record : gmap string App.json) : Prop :=
  record !! "emails_sent"%string = Some (App.JNum 0)
  /\ default (App.JNum 0) (record !! "linkedin_connections_sent"%string) = App.JNum 0.

(** A record whose campaign has ended: its status is 'completed' or
    'failed', and it is 'failed' when nothing was sent. *)
Definition settled (record : gmap string App.json) : Prop :=
  (has_status record "completed" \/ has_status record "failed")
  /\ (nothing_sent record -> has_status record "failed").

(** The field [key] of the body of a request: only a JSON object has
    fields. *)
Definition field (data : App.json) (key : string) : option App.json :=
  match data with
  | App.JObj o => o !! key
  | _ => None
  end.

Definition is_object (data : App.json) : bool :=
  match data with
  | App.JObj _ => true
  | _ => false
  end.

(** A launch request that passes the validation of [launch_campaign]. *)
Definition example_request : App.json :=
  App.JObj (list_to_map
    [ ("domain", App.JStr (lit "example.com"));
      ("email_enabled", App.JBool true) ]%string).

(** A world in which the search finds no address. *)
Definition quiet_world : App.world :=
  App.World (lit "resume")
    (fun _ _ => App.Ok (lit "paragraph"))
    (fun _ => App.Ok [])
    (fun _ _ _ _ =>
       App.Raise (lit "'AIService' object has no attribute 'generate_personalized_email'"))
    (fun _ _ _ => App.Ok true)
    (fun _ _ => App.Ok [])
    (App.JNum 0).

(** The globals after the thread of a request with a domain has ended. *)
Definition after_campaign (w : App.world) (g : App.globals)
    (o : gmap string App.json) (domain : App.json) : App.globals :=
  App.Globals
    (App.campaign_results g
     ++ [App.campaign_body w o (App.new_record (App.campaign_counter g) domain)])
    (App.campaign_counter g + 1).

End Statements.

(* ===================================================================== *)
(** * More of the sources *)
(* ===================================================================== *)

(** ** More operations on strings *)

Module MoreStrings.
Import PyStr.

(** [s.replace(a, b)] for one-character [a] and [b]. *)
Definition replace_char (a b : ascii) (s : str) : str :=
  map (fun c => if Ascii.eqb c a then b else c) s.

(** [s.isalpha()]: at least one character, all of them letters. *)
Definition isalpha (s : str) : bool :=
  negb (Nat.eqb (length s) 0) && forallb is_alpha s.

(** [s.find(c)] and [s.rfind(c)] for a one-character [c]: the index of
    the first and of the last occurrence, [-1] without one. *)
Fixpoint find_from (c : ascii) (s : str) (i : nat) : Z :=
  match s with
  | [] => (-1)%Z
  | x :: s' => if Ascii.eqb x c then Z.of_nat i else find_from c s' (S i)
  end.
Definition find (c : ascii) (s : str) : Z := find_from c s 0.

Fixpoint rfind_from (c : ascii) (s : str) (i : nat) (found : Z) : Z :=
  match s with
  | [] => found
  | x :: s' => rfind_from c s' (S i) (if Ascii.eqb x c then Z.of_nat i else found)
  end.
Definition rfind (c : ascii) (s : str) : Z := rfind_from c s 0 (-1)%Z.

(** [s[a:b]] for [0 <= a] and [0 <= b]. *)
Definition slice (a b : Z) (s : str) : str :=
  take (Z.to_nat b - Z.to_nat a) (drop (Z.to_nat a) s).

End MoreStrings.

(** ** email_service.py: [get_name_from_email] *)

Module EmailServiceMore.
Import PyStr MoreStrings EmailService.

(** [part.replace('-', ' ').replace('_', ' ').title()] *)
Definition name_part (part : str) : str :=
  title (replace_char "_" " " (replace_char "-" " " part)).

(** [get_name_from_email] *)
Definition get_name_from_email (email : str) : str :=
  let local := hd [] (split "@" email) in
  if contains_char "." local then
    let parts := split "." local in
    let first := name_part (nth 0 parts []) in
    let last := if 1 <? length parts then name_part (nth 1 parts []) else [] in
    strip (first ++ lit " " ++ last)
  else name_part local.

End EmailServiceMore.

(** ** ai_service.py: [__init__] *)

Module AIServiceMore.
Import PyStr AIService.

(** [__init__].  [make_model key] is what [genai.configure] followed by
    [genai.GenerativeModel] gives for a key: a model, or [None] when one of
    them raises. *)
Definition init (getenv : string -> option str) (make_model : str -> option model)
  : ai_service :=
  let api_keys := [getenv "GEMINI_API_KEY_1"%string; getenv "GEMINI_API_KEY_2"%string] in
  let models :=
    fold_left
      (fun models key =>
         match key with
         | Some (c :: k) =>
             match make_model (c :: k) with
             | Some m => models ++ [m]
             | None => models
             end
         | _ => models
         end)
      api_keys [] in
  AI models 0.

(** A sequence of calls of [generate_personalized_paragraph], each with
    its draw, resume and job description, on the same service. *)
Fixpoint generate_all (self : ai_service) (requests : list (nat * str * str))
  : list str * ai_service :=
  match requests with
  | [] => ([], self)
  | (rnd, resume_content, job_description) :: rest =>
      let '(text, self', _) :=
        generate_personalized_paragraph self rnd resume_content job_description in
      let '(texts, self'') := generate_all self' rest in
      (text :: texts, self'')
  end.

End AIServiceMore.

(** ** linkedin_service.py: [extract_name_from_email] *)

Module LinkedInService.
Import PyStr MoreStrings.

(** A non-empty run of [a-z]. *)
Definition is_word (s : str) : bool :=
  negb (Nat.eqb (length s) 0) && forallb is_lower s.

(** What [$] allows at the end of the subject: one final newline. *)
Definition without_final_newline (s : str) : str :=
  match rev s with
  | c :: r => if Ascii.eqb c newline then rev r else s
  | [] => s
  end.

(** [re.match(r'^([a-z]+)SEP([a-z]+)$', s)] and its three-group forms: the
    groups when the subject matches.  The pieces between separators are the
    only candidates, as no group can hold the separator. *)
Definition match_words (sep : ascii) (groups : nat) (single_middle : bool) (s : str)
  : option (list str) :=
  let pieces := split sep (without_final_newline s) in
  if Nat.eqb (length pieces) groups && forallb is_word pieces
     && (negb single_middle || Nat.eqb (length (nth 1 pieces [])) 1)
  then Some pieces else None.

(** The five patterns, in their order. *)
Definition patterns : list (str -> option (list str)) :=
  [ match_words "." 2 false;
    match_words "." 3 false;
    match_words "." 3 true;
    match_words "_" 2 false;
    match_words "-" 2 false ].

Definition first_names : list str :=
  map lit
    [ "james"; "john"; "robert"; "michael"; "william"; "david"; "richard"; "thomas";
      "charles"; "christopher";
      "daniel"; "matthew"; "anthony"; "mark"; "donald"; "steven"; "paul"; "andrew";
      "joshua"; "kenneth";
      "mary"; "patricia"; "jennifer"; "linda"; "elizabeth"; "barbara"; "susan";
      "jessica"; "sarah"; "karen";
      "nancy"; "lisa"; "betty"; "helen"; "sandra"; "donna"; "carol"; "ruth"; "sharon";
      "michelle" ]%string.

(** The loop over the patterns: the first match whose first and last
    groups have two letters or more gives the name. *)
Fixpoint try_patterns (ps : list (str -> option (list str))) (subject : str) : option str :=
  match ps with
  | [] => None
  | p :: rest =>
      match p subject with
      | Some groups =>
          let first := hd [] groups in
          let last := List.last groups [] in
          if (2 <=? length first) && (2 <=? length last)
          then Some (title first ++ lit " " ++ title last)
          else try_patterns rest subject
      | None => try_patterns rest subject
      end
  end.

(** The loop over [first_names]. *)
Fixpoint try_first_names (names : list str) (local_part : str) : option str :=
  match names with
  | [] => None
  | fname :: rest =>
      if startswith fname (lower local_part) && (length fname + 2 <? length local_part)
      then Some (title fname ++ lit " " ++ title (drop (length fname) local_part))
      else try_first_names rest local_part
  end.

(** [extract_name_from_email] on a [str]; no operation of the [try] body
    raises on one. *)
Definition extract_name_from_email (email : str) : option str :=
  let local_part := hd [] (split "@" email) in
  match try_patterns patterns (lower local_part) with
  | Some name => Some name
  | None =>
      if (4 <=? length local_part) && isalpha local_part
      then match try_first_names first_names local_part with
           | Some name => Some name
           | None => Some (title local_part)
           end
      else None
  end.

End LinkedInService.

(** ** email_filter.py: [filter_emails] *)

Module EmailFilterMore.
Import PyStr MoreStrings EmailFilter App.

(** The double-quote character of the prompt text. *)
Definition dq : str := [ascii_of_nat 34].

(** The pieces of the f-string [prompt] of [filter_emails], around
    [company_domain] and [email_list]. *)
Definition prompt_head : str :=
  lit "
Analyze these email addresses from ".

Definition prompt_middle : str :=
  lit " and:
1. Categorize them into REAL PEOPLE vs SUPPORT/GENERIC emails
2. Extract the actual NAMES from the real people emails

REAL PEOPLE emails are:
- Personal names (john.smith@, sarah.johnson@, m.chen@)
- Individual employees who could be decision makers or potential leads
- People who might respond to business outreach

SUPPORT/GENERIC emails are:
- Customer service (support@, help@, info@, contact@)
- HR/recruiting (hr@, careers@, jobs@, recruiting@)
- General departments (sales@, marketing@, admin@)
- System/automated emails (noreply@, donotreply@, automated@)
- Generic roles (webmaster@, postmaster@, admin@)

For REAL PEOPLE emails, extract the likely full name from the email address:
- john.smith@company.com → "
  ++ dq ++ lit "John Smith"
  ++ dq ++ lit "  
- sarah.j@company.com → "
  ++ dq ++ lit "Sarah J"
  ++ dq ++ lit "
- m.chen@company.com → "
  ++ dq ++ lit "M Chen"
  ++ dq ++ lit "
- robert.johnson123@company.com → "
  ++ dq ++ lit "Robert Johnson"
  ++ dq ++ lit "
- daveburnisonms@company.com → "
  ++ dq ++ lit "Dave Burnison"
  ++ dq ++ lit "
- kunfei@company.com → "
  ++ dq ++ lit "Kun Fei"
  ++ dq ++ lit "
- abdullahyildiz@company.com → "
  ++ dq ++ lit "Abdullah Yildiz"
  ++ dq ++ lit "
- vanessaperson@company.com → "
  ++ dq ++ lit "Vanessa Person"
  ++ dq ++ lit "

IMPORTANT: Break concatenated names appropriately and capitalize properly.

Email addresses to analyze:
".

Definition prompt_tail : str :=
  lit "

Respond in this exact JSON format:
{
    "
  ++ dq ++ lit "real_people"
  ++ dq ++ lit ": [
        {"
  ++ dq ++ lit "email"
  ++ dq ++ lit ": "
  ++ dq ++ lit "john.smith@company.com"
  ++ dq ++ lit ", "
  ++ dq ++ lit "name"
  ++ dq ++ lit ": "
  ++ dq ++ lit "John Smith"
  ++ dq ++ lit "},
        {"
  ++ dq ++ lit "email"
  ++ dq ++ lit ": "
  ++ dq ++ lit "sarah.j@company.com"
  ++ dq ++ lit ", "
  ++ dq ++ lit "name"
  ++ dq ++ lit ": "
  ++ dq ++ lit "Sarah J"
  ++ dq ++ lit "}
    ],
    "
  ++ dq ++ lit "support_emails"
  ++ dq ++ lit ": ["
  ++ dq ++ lit "support@company.com"
  ++ dq ++ lit ", "
  ++ dq ++ lit "hr@company.com"
  ++ dq ++ lit "],
    "
  ++ dq ++ lit "analysis"
  ++ dq ++ lit ": "
  ++ dq ++ lit "Brief explanation of filtering decisions"
  ++ dq ++ lit "
}
".

(** ["\n".join([f"- {email}" for email in emails])] *)
Definition email_list (emails : list str) : str :=
  join [newline] (map (fun email => lit "- " ++ email) emails).

Definition prompt (emails : list str) (company_domain : str) : str :=
  prompt_head ++ company_domain ++ prompt_middle ++ email_list emails ++ prompt_tail.

(** The dictionaries the function returns, as JSON values. *)
Definition json_strings (l : list str) : json := JList (map JStr l).

Definition json_person (p : person) : json :=
  JObj (list_to_map [ ("email", JStr (email p)); ("name", JStr (name p)) ]%string).

Definition json_of_filter_result (r : filter_result) : json :=
  JObj (list_to_map
    [ ("real_people", JList (map json_person (real_people r)));
      ("support_emails", json_strings (support_emails r));
      ("analysis", JStr (analysis r));
      ("emails_only", json_strings (emails_only r));
      ("names_only", json_strings (names_only r)) ]%string).

(** The value has a length: [len(v)] does not raise. *)
Definition has_len (v : json) : bool :=
  match v with
  | JStr _ | JList _ | JObj _ => true
  | _ => false
  end.

Definition is_str (v : json) : bool :=
  match v with
  | JStr _ => true
  | _ => false
  end.

(** The message of [len(v)] on a value without a length. *)
Definition no_len (v : json) : str :=
  lit "object of type '" ++ type_name v ++ lit "' has no len()".

(** The message of [', '.join(l)] on a list with an item that is not a
    [str]: it names the first such item. *)
Fixpoint join_error (l : list json) (i : nat) : str :=
  match l with
  | [] => []
  | v :: l' =>
      if is_str v then join_error l' (S i)
      else lit "sequence item " ++ str_of_nat i ++ lit ": expected str instance, "
           ++ type_name v ++ lit " found"
  end.

(** [[person[key] for person in people]] *)
Fixpoint fields (key : string) (people : list json) : result (list json) :=
  match people with
  | [] => Ok []
  | person :: rest =>
      match subscript person key with
      | Raise msg => Raise msg
      | Ok v =>
          match fields key rest with
          | Raise msg => Raise msg
          | Ok vs => Ok (v :: vs)
          end
      end
  end.

(** The inner [try] body once [result = json.loads(json_text)] is at hand:
    the dictionary returned, or the exception that sends the function to
    the rule-based filter.  The [print] calls matter: [', '.join(...)]
    raises on a name that is not a [str], and [len(...)] raises on a value
    without a length.  The messages are those of CPython 3.11. *)
Definition read_result (parsed : json) : result json :=
  match get parsed "real_people" (JList []) with
  | Raise msg => Raise msg
  | Ok real_people_data =>
      let support := default (JList [])
                       (match parsed with JObj o => o !! "support_emails"%string | _ => None end) in
      let analysis := default (JStr [])
                        (match parsed with JObj o => o !! "analysis"%string | _ => None end) in
      let new_format : result bool :=
        if truthy real_people_data then
          match real_people_data with
          | JList (JObj _ :: _) => Ok true
          | JList _ | JStr _ => Ok false
          | JObj _ => Raise (lit "0")
          | _ => Raise (not_subscriptable real_people_data)
          end
        else Ok false in
      match new_format with
      | Raise msg => Raise msg
      | Ok true =>
          match real_people_data with
          | JList people =>
              match fields "email" people with
              | Raise msg => Raise msg
              | Ok emails_list =>
                  match fields "name" people with
                  | Raise msg => Raise msg
                  | Ok names_list =>
                      if negb (forallb is_str (take 3 names_list))
                      then Raise (join_error (take 3 names_list) 0)
                      else if negb (has_len support)
                      then Raise (no_len support)
                      else
                        Ok (JObj (list_to_map
                              [ ("real_people", real_people_data);
                                ("support_emails", support);
                                ("analysis", analysis);
                                ("emails_only", JList emails_list);
                                ("names_only", JList names_list) ]%string))
                  end
              end
          | _ => Raise (not_subscriptable real_people_data)
          end
      | Ok false =>
          match real_people_data with
          | JStr _ | JList _ =>
              if negb (has_len support)
              then Raise (no_len support)
              else Ok parsed
          | JObj _ => Raise (lit "unhashable type: 'slice'")
          | _ => Raise (no_len real_people_data)
          end
      end
  end.

Section Filter.
(** [json.loads]: the value parsed, or the exception raised. *)
Variable json_loads : str -> result json.

(** The inner [try] body on the stripped text of the response. *)
Definition parse_response (response_text : str) : result json :=
  let json_start := find "{" response_text in
  let json_end := (rfind "}" response_text + 1)%Z in
  if negb (json_start =? -1)%Z && negb (json_end =? -1)%Z then
    let json_text := slice json_start json_end response_text in
    match json_loads json_text with
    | Raise msg => Raise msg
    | Ok parsed => read_result parsed
    end
  else Raise (lit "No JSON found in response").

(** [filter_emails]; [model] is [self.model], [None] when [__init__] could
    not set it up. *)
Definition filter_emails (model : option AIService.model)
    (emails : list str) (company_domain : str) : json :=
  match model with
  | None =>
      JObj (list_to_map
        [ ("real_people", json_strings emails);
          ("support_emails", JList []);
          ("analysis", JStr (lit "AI filtering not available")) ]%string)
  | Some generate_content =>
      match emails with
      | [] =>
          JObj (list_to_map
            [ ("real_people", JList []);
              ("support_emails", JList []);
              ("analysis", JStr (lit "No emails to filter")) ]%string)
      | _ =>
          match generate_content (prompt emails company_domain) with
          | AIService.GenText text =>
              match parse_response (strip text) with
              | Ok answer => answer
              | Raise _ => json_of_filter_result (_fallback_filter emails company_domain)
              end
          | _ => json_of_filter_result (_fallback_filter emails company_domain)
          end
      end
  end.
End Filter.

End EmailFilterMore.

(** ** app.py: the campaign look-ups *)

Module AppMore.
Import PyStr App.

(** [v == n] for an integer [n]. *)
Definition equals_int (v : json) (n : Z) : bool :=
  match v with
  | JNum m => (m =? n)%Z
  | JBool b => ((if b then 1 else 0) =? n)%Z
  | JFloat numerator denominator => (numerator =? n * Z.pos denominator)%Z
  | _ => false
  end.

(** [next((c for c in campaign_results if c['id'] == campaign_id), None)] *)
Fixpoint find_campaign (results : list (gmap string json)) (campaign_id : Z)
  : result (option (gmap string json)) :=
  match results with
  | [] => Ok None
  | c :: rest =>
      match c !! "id"%string with
      | None => Raise (key_error "id")
      | Some v => if equals_int v campaign_id then Ok (Some c) else find_campaign rest campaign_id
      end
  end.

(** [get_campaign]: the response, or the exception that leaves the view. *)
Definition get_campaign (g : globals) (campaign_id : Z) : result response :=
  match find_campaign (campaign_results g) campaign_id with
  | Raise msg => Raise msg
  | Ok None => Ok (error_response 404 (lit "Campaign not found"))
  | Ok (Some campaign) =>
      if Nat.eqb (size campaign) 0
      then Ok (error_response 404 (lit "Campaign not found"))
      else Ok (Response 200
                 (list_to_map [ ("success", JBool true); ("campaign", JObj campaign) ]%string))
  end.

(** [get_campaigns] *)
Definition get_campaigns (g : globals) : response :=
  Response 200
    (list_to_map
       [ ("success", JBool true);
         ("campaigns", JList (map JObj (campaign_results g))) ]%string).

(** Requests served one after the other, each thread running to its end
    before the next request comes in.  Each request comes with the head
    start its thread has on the response of its own handler. *)
Fixpoint serve_all (w : world) (g : globals) (requests : list (json * nat))
  : list response * globals :=
  match requests with
  | [] => ([], g)
  | (data, head_start) :: rest =>
      let '(r, g') := serve_launch w g (Ok data) head_start in
      let '(rs, g'') := serve_all w g' rest in
      (r :: rs, g'')
  end.

End AppMore.

(** ** Notions used in the further statements *)

Module MoreStatements.
Import PyStr MoreStrings.

(** The call of the model gives nothing [filter_emails] can use: it
    raises, or it gives no text, or the stripped text has no ['{'], or
    [json.loads] rejects the part of it from the first ['{'] to the last
    ['}']. *)
Definition no_usable_answer (json_loads : str -> App.result App.json)
    (outcome : AIService.gen_outcome) : Prop :=
  match outcome with
  | AIService.GenText text =>
      let response_text := strip text in
      contains_char "{" response_text = false
      \/ exists msg,
           json_loads (slice (find "{" response_text) (rfind "}" response_text + 1)
                         response_text)
           = App.Raise msg
  | _ => True
  end.

(** A person of an accepted answer: a dictionary with the two keys. *)
Definition person_with (email name : App.json) (person : App.json) : Prop :=
  exists d, person = App.JObj d
            /\ d !! "email"%string = Some email
            /\ d !! "name"%string = Some name.

End MoreStatements.

(** ** Notions on campaign records *)

Module CampaignStatements.
Import PyStr App.

(** The three counters of a record: e-mails sent, e-mails found and, once
    the LinkedIn search has run, connections sent. *)
Definition tally (record : gmap string json) (sent found : Z) (connections : option Z)
  : Prop :=
  record !! "emails_sent"%string = Some (JNum sent)
  /\ record !! "emails_found"%string = Some (JNum found)
  /\ record !! "linkedin_connections_sent"%string = (JNum <$> connections).

(** [ai_service.generate_personalized_email] raises at every call, as it
    does with the [AIService] of this repository, which has no such
    method. *)
Definition email_generator_missing (w : world) : Prop :=
  forall resume_content job_description company_name email,
    exists msg,
      generate_personalized_email w resume_content job_description company_name email
      = Raise msg.

(** The flag of the request data, [True] when it is absent. *)
Definition enabled (o : gmap string json) (flag : string) : bool :=
  truthy (default (JBool true) (o !! flag)).

(** Every record has an integer [id] below [campaign_counter]. *)
Definition ids_below (g : globals) : Prop :=
  Forall (fun record : gmap string json =>
            exists i, record !! "id"%string = Some (JNum i) /\ (i < campaign_counter g)%Z)
    (campaign_results g).

(** The request passes the validation of [launch_campaign]. *)
Definition valid_request (data : json) : Prop := validate (Ok data) = None.

(** What can be said of the record a finished campaign leaves. *)
Definition outcome_facts (w : world) (o : gmap string json) (record : gmap string json)
    (sent found : Z) (connections : option Z) : Prop :=
  tally record sent found connections
  /\ (0 <= sent <= found)%Z
  /\ (forall b, connections = Some b -> (0 <= b)%Z)
  /\ (Statements.has_status record "completed"
      <-> (0 < sent)%Z \/ exists b, connections = Some b /\ (0 < b)%Z)
  /\ (email_generator_missing w -> sent = 0%Z)
  /\ (enabled o "email_enabled" = false ->
      sent = 0%Z /\ found = 0%Z /\ connections = None
      /\ record !! "linkedin_people_found"%string = None)
  /\ (forall k, default (JNum 5) (o !! "target_email_count"%string) = JNum k ->
                (0 <= k)%Z -> (sent <= k)%Z).

End CampaignStatements.

(** ** Notions on the mail providers *)

Module ProviderStatements.
Import PyStr EmailService.

(** Both variables of a pair of credentials are set and not empty. *)
Definition credentials (getenv : string -> option str) (user password : string) : bool :=
  truthy_env (getenv user) && truthy_env (getenv password).

End ProviderStatements.

(** ** Worlds and providers for the examples *)

Module ProviderExamples.
Import PyStr EmailService.

Definition gmail : provider :=
  Provider (lit "Gmail") (lit "smtp.gmail.com") 465
    (Some (lit "me@gmail.com")) (Some (lit "app-password")) true.

Definition outlook : provider :=
  Provider (lit "Outlook") (lit "smtp-mail.outlook.com") 587
    (Some (lit "me@outlook.com")) (Some (lit "password")) false.

(** Servers that let every stage of every pass go through. *)
Definition servers_up : nat -> provider -> smtp_step -> option smtp_exn :=
  fun _ _ _ => None.

(** Servers that take every message and fail at [quit()]. *)
Definition quit_refused : nat -> provider -> smtp_step -> option smtp_exn :=
  fun _ _ st =>
    match st with
    | Quit => Some SMTPServerDisconnected
    | _ => None
    end.

(** [quit()] fails on the SSL session, after the message has gone; every
    other stage of every pass goes through. *)
Definition quit_fails : nat -> provider -> smtp_step -> option raised :=
  fun _ p st =>
    match st with
    | Quit => if use_ssl p then Some (Exception SMTPServerDisconnected) else None
    | _ => None
    end.

(** A standard output that cannot encode any address. *)
Definition unprintable : str -> option raised :=
  fun _ => Some (Exception OtherException).

(** Every pass fails while the lines that open it are printed. *)
Definition print_fails : nat -> provider -> smtp_step -> option raised :=
  fun _ _ st =>
    match st with
    | Compose => Some (Exception OtherException)
    | _ => None
    end.

(** The user interrupts the second pass while it logs in; the connection
    of the first pass is refused. *)
Definition interrupted : nat -> provider -> smtp_step -> option raised :=
  fun clock _ st =>
    match clock, st with
    | 0, Connect => Some (Exception OtherException)
    | 1, Login => Some BaseException
    | _, _ => None
    end.

End ProviderExamples.

(** ** Models for the examples *)

Module AIExamples.
Import PyStr AIService.

(** A model whose call raises. *)
Definition raising_model : model := fun _ => GenRaises.

(** A model that answers too briefly for the quality check. *)
Definition terse_model : model := fun _ => GenText (lit "Hello from Mantavya Mahajan").

(** A model whose answer names the sender and takes 207 bytes, but has
    only 112 characters: 95 of them are an accented letter of two bytes. *)
Definition wordy_model : model :=
  fun _ => GenText (lit "Mantavya Mahajan " ++ concat (repeat (lit "é") 95)).

(** A model that answers with a text that passes the quality check. *)
Definition good_model : model := fun _ => GenText (lit "  " ++ nth 2 templates [] ++ lit "  ").

End AIExamples.

(** ** Notions on domains *)

Module DomainStatements.
Import PyStr.

(** A text of ASCII characters only. *)
Definition ascii_text (s : str) : Prop := Forall (fun c => code c < 128) s.

End DomainStatements.

(* ===================================================================== *)
(** * Facts on strings *)
(* ===================================================================== *)

Import PyStr.

Lemma contains_char_In (c : ascii) (s : str) : contains_char c s = true <-> In c s.
Proof.
  unfold contains_char. rewrite existsb_exists. split.
  - intros [x [Hx Heq]]. apply Ascii.eqb_eq in Heq. now subst.
  - intros H. exists c. split; [assumption | apply Ascii.eqb_refl].
Qed.

Lemma contains_char_false (c : ascii) (s : str) : contains_char c s = false <-> ~ In c s.
Proof.
  rewrite <- contains_char_In. destruct (contains_char c s); split; congruence.
Qed.

Lemma startswith_app (p s : str) : startswith p (p ++ s) = true.
Proof.
  induction p as [|a p IH]; simpl; [reflexivity|].
  now rewrite Ascii.eqb_refl.
Qed.

Lemma startswith_inv (p s : str) :
  startswith p s = true -> exists r, s = p ++ r.
Proof.
  revert s. induction p as [|a p IH]; intros s H.
  - now exists s.
  - destruct s as [|b s]; simpl in H; [discriminate|].
    apply andb_prop in H as [Hab Hps].
    apply Ascii.eqb_eq in Hab. subst b.
    destruct (IH _ Hps) as [r ->]. now exists r.
Qed.

(** [split] never returns the empty list. *)
Lemma split_not_nil (sep : ascii) (s : str) : split sep s <> [].
Proof.
  induction s as [|c s IH]; simpl; [discriminate|].
  destruct (Ascii.eqb c sep); [discriminate|].
  destruct (split sep s); discriminate.
Qed.

(** A text without the separator is its own single piece. *)
Lemma split_no_sep (sep : ascii) (s : str) : ~ In sep s -> split sep s = [s].
Proof.
  induction s as [|c s IH]; intros Hn; simpl; [reflexivity|].
  destruct (Ascii.eqb c sep) eqn:E.
  - apply Ascii.eqb_eq in E. subst. exfalso. apply Hn. now left.
  - rewrite IH; [reflexivity|]. intros Hin. apply Hn. now right.
Qed.

(** The first separator ends the first piece. *)
Lemma split_app_sep (sep : ascii) (a b : str) :
  ~ In sep a -> split sep (a ++ sep :: b) = a :: split sep b.
Proof.
  induction a as [|c a IH]; intros Hn; simpl.
  - now rewrite Ascii.eqb_refl.
  - destruct (Ascii.eqb c sep) eqn:E.
    + apply Ascii.eqb_eq in E. subst. exfalso. apply Hn. now left.
    + rewrite IH; [reflexivity|]. intros Hin. apply Hn. now right.
Qed.

(** The first piece holds no separator. *)
Lemma split_hd_no_sep (sep : ascii) (s : str) : ~ In sep (hd [] (split sep s)).
Proof.
  induction s as [|c s IH]; simpl; [tauto|].
  destruct (Ascii.eqb c sep) eqn:E; simpl; [tauto|].
  destruct (split sep s) as [|p ps] eqn:Hs; simpl in *.
  - intros [Hc|[]]. subst. now rewrite Ascii.eqb_refl in E.
  - intros [Hc|Hin]; [|now apply IH].
    subst. now rewrite Ascii.eqb_refl in E.
Qed.

(** A text that holds the separator is its first piece, the separator and
    a rest. *)
Lemma split_hd_decompose (sep : ascii) (s : str) :
  In sep s -> exists rest, s = hd [] (split sep s) ++ sep :: rest.
Proof.
  induction s as [|c s IH]; intros Hin; [destruct Hin|].
  simpl. destruct (Ascii.eqb c sep) eqn:E.
  - apply Ascii.eqb_eq in E. subst. now exists s.
  - destruct Hin as [Hc|Hin].
    { subst. now rewrite Ascii.eqb_refl in E. }
    destruct (IH Hin) as [rest Hrest].
    pose proof (split_not_nil sep s) as Hne.
    destruct (split sep s) as [|p ps]; [congruence|].
    simpl in *. exists rest. now rewrite Hrest at 1.
Qed.

Lemma lower_app (a b : str) : lower (a ++ b) = lower a ++ lower b.
Proof. unfold lower. apply map_app. Qed.

Lemma lower_char_idempotent (c : ascii) : lower_char (lower_char c) = lower_char c.
Proof. destruct c as [[] [] [] [] [] [] [] []]; reflexivity. Qed.

Lemma lower_idempotent (s : str) : lower (lower s) = lower s.
Proof.
  unfold lower. rewrite map_map. apply map_ext. intros c. apply lower_char_idempotent.
Qed.

(* ===================================================================== *)
(** * The rule-based classifier *)
(* ===================================================================== *)

Section FallbackFilter.
Import EmailFilter Statements.

(** The loop of [_fallback_filter] sends each address to one accumulator,
    in the order of the input. *)
Lemma fallback_loop (emails : list str) (people : list person) (support : list str) :
  fold_left fallback_step emails (people, support)
  = (people ++ map as_person (List.filter is_person emails),
     support ++ List.filter (fun e => negb (is_person e)) emails).
Proof.
  revert people support.
  induction emails as [|e emails IH]; intros people support.
  - simpl. now rewrite !app_nil_r.
  - assert (Hstep : fallback_step (people, support) e
                    = if is_person e then (people ++ [as_person e], support)
                      else (people, support ++ [e])).
    { unfold fallback_step, is_person.
      destruct (is_support e), (has_name_pattern e); reflexivity. }
    cbn [fold_left List.filter]. rewrite Hstep.
    destruct (is_person e); cbn [negb map]; rewrite IH, <- app_assoc; reflexivity.
Qed.

Lemma real_people_eq (emails : list str) (company_domain : str) :
  real_people (_fallback_filter emails company_domain)
  = map as_person (List.filter is_person emails).
Proof.
  unfold _fallback_filter. rewrite fallback_loop. reflexivity.
Qed.

Lemma support_emails_eq (emails : list str) (company_domain : str) :
  support_emails (_fallback_filter emails company_domain)
  = List.filter (fun e => negb (is_person e)) emails.
Proof.
  unfold _fallback_filter. rewrite fallback_loop. reflexivity.
Qed.

Lemma filter_split_perm {A} (f : A -> bool) (l : list A) :
  Permutation (List.filter f l ++ List.filter (fun x => negb (f x)) l) l.
Proof.
  induction l as [|x l IH]; simpl; [constructor|].
  destruct (f x); simpl.
  - now constructor.
  - rewrite <- Permutation_middle. now constructor.
Qed.

Lemma filter_split_length {A} (f : A -> bool) (l : list A) :
  length (List.filter f l) + length (List.filter (fun x => negb (f x)) l) = length l.
Proof.
  induction l as [|x l IH]; simpl; [reflexivity|].
  destruct (f x); simpl; lia.
Qed.

(** C1.  For every list of addresses, [_fallback_filter] partitions it:
    the addresses of the [real_people] entries together with
    [support_emails] are a permutation of the input (nothing is dropped or
    duplicated), no address is in both buckets, every [real_people] entry
    carries the address and the name extracted from it, each bucket keeps
    the input order, and the two lengths add up to the length of the
    input. *)
Theorem fallback_filter_partitions (emails : list str) (company_domain : str) :
  let r := _fallback_filter emails company_domain in
  Permutation (map email (real_people r) ++ support_emails r) emails
  /\ (forall e, In e (map email (real_people r)) -> ~ In e (support_emails r))
  /\ Forall (fun p => name p = _extract_name_from_email (email p)) (real_people r)
  /\ map email (real_people r) = List.filter is_person emails
  /\ support_emails r = List.filter (fun e => negb (is_person e)) emails
  /\ length (real_people r) + length (support_emails r) = length emails.
Proof.
  intros r. subst r.
  rewrite real_people_eq, support_emails_eq.
  assert (Hmap : map email (map as_person (List.filter is_person emails))
                 = List.filter is_person emails).
  { rewrite map_map. simpl. apply map_id. }
  rewrite Hmap. repeat split.
  - apply filter_split_perm.
  - intros e Hp Hs.
    apply filter_In in Hp as [_ Hp]. apply filter_In in Hs as [_ Hs].
    rewrite Hp in Hs. discriminate.
  - apply List.Forall_forall. intros p Hp. apply in_map_iff in Hp as [e [<- _]]. reflexivity.
  - rewrite length_map. apply filter_split_length.
Qed.

Lemma generic_role_names_patterns :
  generic_role_names = concat support_patterns.
Proof. reflexivity. Qed.

(** An address whose lower-cased local part is a role name matches one of
    the patterns. *)
Lemma role_is_support (email : str) :
  In "@"%char email ->
  In (lower (local_part email)) generic_role_names ->
  is_support email = true.
Proof.
  intros Hat Hrole.
  destruct (split_hd_decompose "@" email Hat) as [rest Heq].
  fold (local_part email) in Heq.
  rewrite generic_role_names_patterns in Hrole.
  apply in_concat in Hrole as [pattern [Hpat Hin]].
  unfold is_support. apply existsb_exists. exists pattern. split; [assumption|].
  unfold re_match. apply existsb_exists. exists (lower (local_part email)).
  split; [assumption|].
  rewrite Heq at 2. rewrite lower_app.
  change (lower ("@"%char :: rest)) with (lit "@" ++ lower rest).
  rewrite (app_assoc (lower (local_part email))). apply startswith_app.
Qed.

(** C2.  An address (a text with an ['@']) whose local part is, up to
    case, one of the generic role names is put in [support_emails] and
    never in [real_people], whatever list it comes in. *)
Theorem generic_role_is_support (emails : list str) (company_domain email : str) :
  In email emails ->
  In "@"%char email ->
  In (lower (local_part email)) generic_role_names ->
  let r := _fallback_filter emails company_domain in
  In email (support_emails r) /\ ~ In email (map EmailFilter.email (real_people r)).
Proof.
  intros Hin Hat Hrole r. subst r.
  pose proof (role_is_support email Hat Hrole) as Hs.
  assert (Hp : is_person email = false) by (unfold is_person; now rewrite Hs).
  rewrite real_people_eq, support_emails_eq. split.
  - apply filter_In. split; [assumption|]. now rewrite Hp.
  - rewrite map_map. simpl. rewrite map_id. intros H.
    apply filter_In in H as [_ H]. congruence.
Qed.

Lemma generic_role_is_support_witness :
  let emails := [lit "john.smith@acme.com"; lit "No-Reply@acme.com"] in
  let r := _fallback_filter emails (lit "acme.com") in
  In (lit "No-Reply@acme.com") (support_emails r)
  /\ ~ In (lit "No-Reply@acme.com") (map EmailFilter.email (real_people r)).
Proof.
  apply (generic_role_is_support
           [lit "john.smith@acme.com"; lit "No-Reply@acme.com"]
           (lit "acme.com") (lit "No-Reply@acme.com")).
  - right. left. reflexivity.
  - apply contains_char_In. vm_compute. reflexivity.
  - vm_compute. do 17 right. left. reflexivity.
Defined.

End FallbackFilter.

(* ===================================================================== *)
(** * Name extraction *)
(* ===================================================================== *)

Section ExtractName.
Import EmailFilter Statements.

Lemma alpha_facts (c : ascii) :
  is_alpha c = true ->
  is_digit c = false /\ c <> "@"%char /\ c <> "."%char /\ c <> newline.
Proof.
  destruct c as [[] [] [] [] [] [] [] []]; vm_compute; intros H;
    try discriminate H; repeat split; discriminate.
Qed.

Lemma digit_facts (c : ascii) :
  is_digit c = true -> c <> "@"%char /\ c <> "."%char /\ c <> newline.
Proof.
  destruct c as [[] [] [] [] [] [] [] []]; vm_compute; intros H;
    try discriminate H; repeat split; discriminate.
Qed.

Lemma drop_digits_app (digits rest : str) :
  all_digits digits -> drop_digits (digits ++ rest) = drop_digits rest.
Proof.
  induction 1 as [|c digits Hc _ IH]; simpl; [reflexivity|].
  now rewrite Hc.
Qed.

(** Without a final newline, [re.sub(r'\d+$', '', s)] removes the run of
    digits that ends [s]. *)
Lemma sub_trailing_digits_plain (s : str) :
  (forall c r, rev s = c :: r -> c <> newline) ->
  sub_trailing_digits s = rev (drop_digits (rev s)).
Proof.
  intros Hlast. unfold sub_trailing_digits.
  destruct (rev s) as [|c [|d r]] eqn:E; try reflexivity.
  assert (Hc : Ascii.eqb c newline = false).
  { apply Ascii.eqb_neq. eapply Hlast. reflexivity. }
  now rewrite Hc.
Qed.

(** The digits after a word are removed, the word stays. *)
Lemma sub_trailing_digits_word (prefix word digits : str) :
  all_alpha word -> word <> [] -> all_digits digits ->
  sub_trailing_digits (prefix ++ word ++ digits) = prefix ++ word.
Proof.
  intros Hw Hne Hd.
  assert (Hrev : exists c w', rev word = c :: w' /\ is_alpha c = true).
  { destruct (rev word) as [|c w'] eqn:E.
    - apply (f_equal (@rev ascii)) in E. rewrite rev_involutive in E. now subst.
    - exists c, w'. split; [reflexivity|].
      assert (Hin : In c (rev word)) by (rewrite E; now left).
      apply in_rev in Hin.
      unfold all_alpha in Hw. rewrite List.Forall_forall in Hw. now apply Hw. }
  destruct Hrev as [c [w' [Hrw Hc]]].
  rewrite sub_trailing_digits_plain.
  - rewrite !rev_app_distr, <- app_assoc.
    rewrite drop_digits_app.
    2:{ unfold all_digits in *. rewrite List.Forall_forall in *.
        intros x Hx. apply Hd. now apply in_rev. }
    rewrite Hrw. simpl.
    destruct (alpha_facts c Hc) as [Hnd _]. rewrite Hnd.
    change (c :: w' ++ rev prefix) with ((c :: w') ++ rev prefix).
    rewrite <- Hrw, <- rev_app_distr. apply rev_involutive.
  - intros x r Hx. rewrite !rev_app_distr, <- app_assoc in Hx.
    destruct (rev digits) as [|y ys] eqn:Ed.
    + simpl in Hx. rewrite Hrw in Hx. simpl in Hx. injection Hx as <- _.
      now apply alpha_facts.
    + simpl in Hx. injection Hx as <- _.
      assert (Hin : In y digits) by (apply in_rev; rewrite Ed; now left).
      unfold all_digits in Hd. rewrite List.Forall_forall in Hd.
      now apply digit_facts, Hd.
Qed.

Lemma all_alpha_not_in (c : ascii) (word : str) :
  all_alpha word -> is_alpha c = false -> ~ In c word.
Proof.
  intros Hw Hc Hin. unfold all_alpha in Hw. rewrite List.Forall_forall in Hw.
  specialize (Hw c Hin). congruence.
Qed.

Lemma all_digits_not_in (c : ascii) (digits : str) :
  all_digits digits -> is_digit c = false -> ~ In c digits.
Proof.
  intros Hd Hc Hin. unfold all_digits in Hd. rewrite List.Forall_forall in Hd.
  specialize (Hd c Hin). congruence.
Qed.

(** C3, as the code has it.  When the local part is two alphabetic words
    of at least two letters each, joined by one ['.'] and possibly followed
    by digits, [_extract_name_from_email] returns the two words joined by
    one space, each in the form [str.capitalize] gives: first letter in
    upper case and the other letters in lower case. *)
Theorem extract_name_two_words (first last digits domain : str) :
  all_alpha first -> all_alpha last ->
  2 <= length first -> 2 <= length last ->
  all_digits digits ->
  _extract_name_from_email (first ++ lit "." ++ last ++ digits ++ lit "@" ++ domain)
  = capitalize first ++ lit " " ++ capitalize last.
Proof.
  intros Hf Hl Hlf Hll Hd.
  assert (Hlne : last <> []) by (intros ->; simpl in Hll; lia).
  assert (Hdot_f : ~ In "."%char first) by (now apply all_alpha_not_in).
  assert (Hdot_l : ~ In "."%char last) by (now apply all_alpha_not_in).
  assert (Hlocal : hd [] (split "@" (first ++ lit "." ++ last ++ digits ++ lit "@" ++ domain))
                   = first ++ lit "." ++ last ++ digits).
  { replace (first ++ lit "." ++ last ++ digits ++ lit "@" ++ domain)
      with ((first ++ lit "." ++ last ++ digits) ++ "@"%char :: domain)
      by (now rewrite <- !app_assoc).
    rewrite split_app_sep; [reflexivity|].
    rewrite !in_app_iff. intros [H|[H|[H|H]]].
    - now apply (all_alpha_not_in "@" first).
    - destruct H as [H|[]]. discriminate H.
    - now apply (all_alpha_not_in "@" last).
    - now apply (all_digits_not_in "@" digits). }
  unfold _extract_name_from_email. rewrite Hlocal.
  replace (first ++ lit "." ++ last ++ digits)
    with ((first ++ lit ".") ++ last ++ digits) by (now rewrite <- app_assoc).
  rewrite sub_trailing_digits_word by assumption.
  rewrite <- app_assoc.
  assert (Hc : contains_char "." (first ++ lit "." ++ last) = true).
  { apply contains_char_In. rewrite in_app_iff. right. now left. }
  rewrite Hc.
  change (first ++ lit "." ++ last) with (first ++ "."%char :: last).
  rewrite split_app_sep by assumption.
  rewrite split_no_sep by assumption.
  cbn [List.filter].
  assert (Hkeep : forall word : str, 2 <= length word ->
            negb (Nat.eqb (length word) 0) && (1 <? length word) = true).
  { intros word Hw. apply andb_true_intro. split.
    - apply negb_true_iff, Nat.eqb_neq. lia.
    - apply Nat.ltb_lt. lia. }
  rewrite !Hkeep by assumption.
  cbn [map join].
  destruct first as [|c first]; [simpl in Hlf; lia|]. reflexivity.
Qed.

Lemma extract_name_two_words_witness :
  _extract_name_from_email (lit "robert.johnson123@x.com") = lit "Robert Johnson".
Proof.
  apply (extract_name_two_words (lit "robert") (lit "johnson") (lit "123") (lit "x.com")).
  - repeat constructor.
  - repeat constructor.
  - vm_compute. lia.
  - vm_compute. lia.
  - repeat constructor.
Defined.

(** C3, as it is worded, fails on a word written with capitals after its
    first letter: the code lower-cases them. *)
Lemma extract_name_first_letter_only_fails :
  all_alpha (lit "jOhn") /\ all_alpha (lit "smith")
  /\ 2 <= length (lit "jOhn") /\ 2 <= length (lit "smith")
  /\ _extract_name_from_email (lit "jOhn.smith@x.com") = lit "John Smith"
  /\ _extract_name_from_email (lit "jOhn.smith@x.com")
     <> first_letter_capitalized (lit "jOhn") ++ lit " "
        ++ first_letter_capitalized (lit "smith").
Proof.
  repeat split; try (repeat constructor); try (vm_compute; lia).
  vm_compute. discriminate.
Qed.

End ExtractName.

(* ===================================================================== *)
(** * The message generator *)
(* ===================================================================== *)

Section Generator.
Import AIService Statements.

Lemma templates_length : length templates = 4.
Proof. reflexivity. Qed.

Lemma templates_nonempty : Forall (fun t : str => t <> []) templates.
Proof. repeat constructor; discriminate. Qed.

Lemma get_predefined_templates_in (rnd : nat) : In (get_predefined_templates rnd) templates.
Proof.
  unfold get_predefined_templates. apply nth_In.
  rewrite templates_length. apply Nat.mod_upper_bound. discriminate.
Qed.

Lemma template_not_nil (text : str) : In text templates -> text <> [].
Proof.
  intros Hin. pose proof templates_nonempty as H.
  rewrite List.Forall_forall in H. now apply H.
Qed.

Lemma quality_ok_spec (text : str) :
  quality_ok text = true
  <-> 200 < len text /\ contains (lit "Mantavya Mahajan") text = true.
Proof.
  unfold quality_ok. rewrite andb_true_iff, Nat.ltb_lt. reflexivity.
Qed.

Lemma quality_ok_good_enough (text : str) : quality_ok text = good_enough text.
Proof. reflexivity. Qed.

Lemma rotation_S (k n len : nat) :
  k < len -> rotation k (S n) len = k :: rotation ((k + 1) mod len) n len.
Proof.
  intros Hk. unfold rotation. cbn [seq map].
  rewrite Nat.add_0_r, (Nat.mod_small k len Hk). f_equal.
  rewrite <- seq_shift, map_map. apply map_ext. intros j.
  rewrite Nat.Div0.add_mod_idemp_l. f_equal. lia.
Qed.

Lemma rotation_injective (k len j1 j2 : nat) :
  k < len -> j1 < len -> j2 < len ->
  (k + j1) mod len = (k + j2) mod len -> j1 = j2.
Proof.
  intros Hk H1 H2 Heq.
  pose proof (Nat.div_mod_eq (k + j1) len) as E1.
  pose proof (Nat.div_mod_eq (k + j2) len) as E2.
  assert (Q1 : (k + j1) / len < 2) by (apply Nat.Div0.div_lt_upper_bound; lia).
  assert (Q2 : (k + j2) / len < 2) by (apply Nat.Div0.div_lt_upper_bound; lia).
  assert (R1 : (k + j1) mod len < len) by (apply Nat.mod_upper_bound; lia).
  rewrite Heq in E1, R1.
  destruct ((k + j1) / len) as [|[|q1]], ((k + j2) / len) as [|[|q2]]; lia.
Qed.

Lemma NoDup_map_on {A B} (f : A -> B) (l : list A) :
  (forall x y, In x l -> In y l -> f x = f y -> x = y) ->
  NoDup l -> NoDup (map f l).
Proof.
  intros Hinj Hnd. induction Hnd as [|x l Hx Hnd IH]; simpl; constructor.
  - intros Hin. apply list_elem_of_In, in_map_iff in Hin as [y [Hy Hin]].
    apply Hx. apply list_elem_of_In.
    rewrite (Hinj x y); [assumption | now left | now right | now symmetry].
  - apply IH. intros a b Ha Hb. apply Hinj; now right.
Qed.

Lemma rotation_NoDup (k n len : nat) :
  k < len -> n <= len -> NoDup (rotation k n len).
Proof.
  intros Hk Hn. unfold rotation. apply NoDup_map_on; [|apply NoDup_seq].
  intros x y Hx Hy. apply in_seq in Hx, Hy.
  apply rotation_injective; lia.
Qed.

Lemma rotation_bound (k n len : nat) :
  0 < len -> Forall (fun i => i < len) (rotation k n len).
Proof.
  intros Hlen. apply List.Forall_forall. intros i Hi.
  apply in_map_iff in Hi as [j [<- _]]. apply Nat.mod_upper_bound. lia.
Qed.

Lemma rotation_length (k n len : nat) : length (rotation k n len) = n.
Proof. unfold rotation. now rewrite length_map, length_seq. Qed.

Lemma rotation_shift (k j len : nat) :
  ((k + 1) mod len + j) mod len = (k + S j) mod len.
Proof. rewrite Nat.Div0.add_mod_idemp_l. f_equal. lia. Qed.

Lemma rotation_surjective (k len i : nat) :
  k < len -> i < len -> exists j, j < len /\ (k + j) mod len = i.
Proof.
  intros Hk Hi. destruct (Nat.le_gt_cases k i) as [Hle|Hgt].
  - exists (i - k). split; [lia|].
    replace (k + (i - k)) with i by lia. now apply Nat.mod_small.
  - exists (i + len - k). split; [lia|].
    replace (k + (i + len - k)) with (i + 1 * len) by lia.
    rewrite Nat.Div0.mod_add. now apply Nat.mod_small.
Qed.

Lemma rotation_full (k len : nat) : k < len -> (k + len) mod len = k.
Proof.
  intros Hk. replace (k + len) with (k + 1 * len) by lia.
  rewrite Nat.Div0.mod_add. now apply Nat.mod_small.
Qed.

Lemma good_enough_spec (text : str) :
  good_enough text = true
  <-> 200 < len text /\ contains (lit "Mantavya Mahajan") text = true.
Proof.
  unfold good_enough. rewrite andb_true_iff, Nat.ltb_lt. reflexivity.
Qed.

Lemma attempt_fails_outcome (p : str) (mdl : model) :
  attempt_fails p mdl = true
  \/ exists t, mdl p = GenText t /\ t <> [] /\ quality_ok (strip_unicode t) = true
               /\ attempt_fails p mdl = false.
Proof.
  unfold attempt_fails. destruct (mdl p) as [| |[|c text]]; try (now left).
  rewrite <- quality_ok_good_enough.
  destruct (quality_ok (strip_unicode (c :: text))) eqn:Hq; [|now left].
  right. exists (c :: text).
  split; [reflexivity|]. split; [discriminate|]. split; [exact Hq | reflexivity].
Qed.

(** The loop, attempt by attempt: the models are called in rotation from
    the current index; the loop stops at the first model that does not
    fail, the index staying on it; when all fail the index has moved once
    per attempt. *)
Lemma attempts_trace (p : str) (n : nat) :
  forall (self : ai_service) (calls : list nat),
    current_key_index self < length (models self) ->
    exists (res : option str) (self' : ai_service) (m : nat),
      attempts n self p calls
      = (res, self', calls ++ rotation (current_key_index self) m (length (models self)))
      /\ m <= n
      /\ models self' = models self
      /\ (forall j mdl,
            j < (match res with Some _ => m - 1 | None => m end) ->
            models self !! ((current_key_index self + j) mod length (models self)) = Some mdl ->
            attempt_fails p mdl = true)
      /\ match res with
         | Some text =>
             1 <= m
             /\ current_key_index self'
                = (current_key_index self + (m - 1)) mod length (models self)
             /\ exists mdl t,
                  models self !! current_key_index self' = Some mdl
                  /\ mdl p = GenText t /\ text = strip_unicode t
                  /\ good_enough text = true
                  /\ attempt_fails p mdl = false
         | None =>
             m = n
             /\ current_key_index self'
                = (current_key_index self + n) mod length (models self)
         end.
Proof.
  induction n as [|n IH]; intros self calls Hk.
  - exists None, self, 0. cbn [attempts rotation seq map]. rewrite app_nil_r.
    split; [reflexivity|]. split; [lia|]. split; [reflexivity|].
    split; [intros j mdl Hj; lia|]. split; [reflexivity|].
    rewrite Nat.add_0_r. symmetry. now apply Nat.mod_small.
  - assert (Hlen : 0 < length (models self)) by lia.
    assert (Hnext : current_key_index (next_key self) < length (models (next_key self))).
    { cbn. apply Nat.mod_upper_bound. lia. }
    destruct (lookup_lt_is_Some_2 (models self) (current_key_index self) Hk) as [mdl Hmdl].
    change (attempts (S n) self p calls)
      with (match models self !! current_key_index self with
            | None => attempts n (next_key self) p calls
            | Some m =>
                match m p with
                | GenText text =>
                    match text with
                    | [] => attempts n (next_key self) p (calls ++ [current_key_index self])
                    | _ =>
                        if quality_ok (strip_unicode text)
                        then (Some (strip_unicode text), self,
                              calls ++ [current_key_index self])
                        else attempts n (next_key self) p (calls ++ [current_key_index self])
                    end
                | _ => attempts n (next_key self) p (calls ++ [current_key_index self])
                end
            end).
    match goal with
    | |- context [match ?x with Some _ => _ | None => _ end] =>
        replace x with (Some mdl) by (symmetry; exact Hmdl)
    end.
    destruct (attempt_fails_outcome p mdl) as [Hfail|(t & Ht & Hne & Hq & Hok)].
    + assert (Hgo :
        match mdl p with
        | GenText text =>
            match text with
            | [] => attempts n (next_key self) p (calls ++ [current_key_index self])
            | _ =>
                if quality_ok (strip_unicode text)
                then (Some (strip_unicode text), self, calls ++ [current_key_index self])
                else attempts n (next_key self) p (calls ++ [current_key_index self])
            end
        | _ => attempts n (next_key self) p (calls ++ [current_key_index self])
        end = attempts n (next_key self) p (calls ++ [current_key_index self])).
      { unfold attempt_fails in Hfail.
        destruct (mdl p) as [| |[|c text]]; try reflexivity.
        rewrite quality_ok_good_enough.
        destruct (good_enough (strip_unicode (c :: text)));
          [discriminate Hfail | reflexivity]. }
      rewrite Hgo.
      destruct (IH (next_key self) (calls ++ [current_key_index self]) Hnext)
        as (res & self' & m & Heq & Hm & Hmod & Hfails & Hres).
      cbn [next_key models current_key_index] in Heq, Hmod, Hfails, Hres.
      exists res, self', (S m).
      rewrite rotation_S by assumption. rewrite Heq, <- app_assoc.
      split; [reflexivity|]. split; [lia|]. split; [exact Hmod|].
      split.
      * intros j mdl' Hj Hlook. destruct j as [|j].
        -- rewrite Nat.add_0_r, (Nat.mod_small _ _ Hk) in Hlook.
           assert (mdl' = mdl) by congruence. now subst.
        -- rewrite <- rotation_shift in Hlook. apply (Hfails j mdl'); [|exact Hlook].
           destruct res; [destruct Hres as [H1 _]|]; lia.
      * destruct res as [text|].
        -- destruct Hres as (H1 & Hidx & Hrest).
           split; [lia|]. split; [|exact Hrest].
           rewrite Hidx, rotation_shift. f_equal. lia.
        -- destruct Hres as [-> Hidx]. split; [reflexivity|].
           rewrite Hidx. apply rotation_shift.
    + rewrite Ht. destruct t as [|c t]; [congruence|]. rewrite Hq.
      exists (Some (strip_unicode (c :: t))), self, 1.
      rewrite rotation_S by assumption. cbn [rotation seq map].
      split; [reflexivity|]. split; [lia|]. split; [reflexivity|].
      split; [intros j mdl' Hj; cbn in Hj; lia|].
      split; [lia|]. split.
      * cbn [Nat.sub]. rewrite Nat.add_0_r. symmetry. now apply Nat.mod_small.
      * exists mdl, (c :: t). repeat split; assumption.
Qed.

(** The equations of [generate_personalized_paragraph]. *)
Lemma generate_short (self : ai_service) (rnd : nat) (resume_content job_description : str) :
  models self = [] \/ resume_content = [] \/ job_description = [] ->
  generate_personalized_paragraph self rnd resume_content job_description
  = (get_predefined_templates rnd, self, []).
Proof.
  unfold generate_personalized_paragraph.
  intros [H|[H|H]]; rewrite H; [reflexivity|..];
    destruct (models self); try reflexivity;
    destruct resume_content; reflexivity.
Qed.

Lemma generate_long (self : ai_service) (rnd : nat) (resume_content job_description : str) :
  models self <> [] -> resume_content <> [] -> job_description <> [] ->
  generate_personalized_paragraph self rnd resume_content job_description
  = match attempts (length (models self)) self (prompt job_description) [] with
    | (Some generated_email, self', calls) => (generated_email, self', calls)
    | (None, self', calls) => (get_predefined_templates rnd, self', calls)
    end.
Proof.
  unfold generate_personalized_paragraph. intros H1 H2 H3.
  destruct (models self); [congruence|].
  destruct resume_content; [congruence|].
  destruct job_description; [congruence|]. reflexivity.
Qed.

Lemma nil_or_not {A} (l : list A) : l = [] \/ l <> [].
Proof. destruct l; [now left | now right]. Qed.

(** When the loop has gone through all the models, each of them has
    failed. *)
Lemma all_models_fail (p : str) (self : ai_service) :
  current_key_index self < length (models self) ->
  (forall j mdl,
     j < length (models self) ->
     models self !! ((current_key_index self + j) mod length (models self)) = Some mdl ->
     attempt_fails p mdl = true) ->
  Forall (fun mdl => attempt_fails p mdl = true) (models self).
Proof.
  intros Hk Hfails. apply List.Forall_forall. intros mdl Hin.
  apply list_elem_of_In, list_elem_of_lookup in Hin as [i Hi].
  pose proof (lookup_lt_Some _ _ _ Hi) as Hlt.
  destruct (rotation_surjective (current_key_index self) (length (models self)) i Hk Hlt)
    as (j & Hj & Hji).
  apply (Hfails j mdl Hj). now rewrite Hji.
Qed.

(** C4.  [generate_personalized_paragraph] on a service whose index is
    in range.  The text returned is never empty; it is one of the four
    templates or a text of more than 200 characters that contains
    'Mantavya Mahajan'.  Without a model, or with an empty
    [resume_content] or [job_description], it is a template and no call is
    made.  Otherwise [generate_content] is called on the models in
    rotation from [current_key_index], modulo their number, once each at
    most: the calls stop at the first model whose attempt does not fail,
    the text returned is the stripped answer of that model and
    [current_key_index] stays on it; when every attempt fails, every model
    has been called once, [current_key_index] is back where it was and
    the text is a template. *)
Theorem generate_personalized_paragraph_spec
    (self : ai_service) (rnd : nat) (resume_content job_description : str) :
  well_formed self ->
  let '(text, self', calls) :=
    generate_personalized_paragraph self rnd resume_content job_description in
  let p := prompt job_description in
  let k := current_key_index self in
  let count := length (models self) in
  text <> []
  /\ (In text templates
      \/ (200 < len text /\ contains (lit "Mantavya Mahajan") text = true))
  /\ models self' = models self
  /\ well_formed self'
  /\ length calls <= count
  /\ NoDup calls
  /\ (models self = [] \/ resume_content = [] \/ job_description = [] ->
      In text templates /\ calls = [] /\ current_key_index self' = k)
  /\ (models self <> [] -> resume_content <> [] -> job_description <> [] ->
      exists n mdl,
        1 <= n <= count
        /\ calls = rotation k n count
        /\ (forall j mdl', j < n - 1 -> models self !! ((k + j) mod count) = Some mdl' ->
              attempt_fails p mdl' = true)
        /\ models self !! ((k + (n - 1)) mod count) = Some mdl
        /\ if attempt_fails p mdl
           then n = count
                /\ Forall (fun mdl' => attempt_fails p mdl' = true) (models self)
                /\ In text templates
                /\ current_key_index self' = k
           else exists t,
                  mdl p = GenText t
                  /\ text = strip_unicode t
                  /\ current_key_index self' = (k + (n - 1)) mod count)
  /\ (Forall (fun mdl => attempt_fails p mdl = true) (models self) -> In text templates).
Proof.
  intros Hwf.
  assert (Hno_call :
    models self = [] \/ resume_content = [] \/ job_description = [] ->
    let '(text, self', calls) :=
      generate_personalized_paragraph self rnd resume_content job_description in
    text <> []
    /\ In text templates
    /\ self' = self
    /\ calls = []).
  { intros H. rewrite generate_short by exact H.
    split; [apply template_not_nil, get_predefined_templates_in|].
    split; [apply get_predefined_templates_in|]. now split. }
  assert (Hcalls :
    models self <> [] -> resume_content <> [] -> job_description <> [] ->
    let '(text, self', calls) :=
      generate_personalized_paragraph self rnd resume_content job_description in
    let p := prompt job_description in
    let k := current_key_index self in
    let count := length (models self) in
    k < count
    /\ models self' = models self
    /\ exists n mdl,
         1 <= n <= count
         /\ calls = rotation k n count
         /\ (forall j mdl', j < n - 1 -> models self !! ((k + j) mod count) = Some mdl' ->
               attempt_fails p mdl' = true)
         /\ models self !! ((k + (n - 1)) mod count) = Some mdl
         /\ if attempt_fails p mdl
            then n = count
                 /\ Forall (fun mdl' => attempt_fails p mdl' = true) (models self)
                 /\ In text templates
                 /\ current_key_index self' = k
            else exists t,
                   mdl p = GenText t
                   /\ text = strip_unicode t
                   /\ good_enough text = true
                   /\ current_key_index self' = (k + (n - 1)) mod count).
  { intros Hne Hr Hj. rewrite generate_long by assumption.
    assert (Hk : current_key_index self < length (models self)).
    { destruct Hwf as [H|H]; [contradiction | exact H]. }
    destruct (attempts_trace (prompt job_description) (length (models self)) self [] Hk)
      as (res & self' & m & Heq & Hm & Hmod & Hfails & Hres).
    rewrite Heq. cbn [app].
    destruct res as [text|].
    - destruct Hres as (H1 & Hidx & mdl & t & Hlook & Hcall & Htext & Hgood & Hok).
      cbn zeta. split; [exact Hk|]. split; [exact Hmod|].
      exists m, mdl. split; [lia|]. split; [reflexivity|].
      split; [exact Hfails|]. split; [now rewrite <- Hidx|].
      rewrite Hok. exists t. repeat split; assumption.
    - destruct Hres as [-> Hidx]. cbn zeta.
      split; [exact Hk|]. split; [exact Hmod|].
      assert (Hlast : (current_key_index self + (length (models self) - 1))
                        mod length (models self) < length (models self))
        by (apply Nat.mod_upper_bound; lia).
      destruct (lookup_lt_is_Some_2 _ _ Hlast) as [mdl Hmdl].
      exists (length (models self)), mdl.
      split; [lia|]. split; [reflexivity|].
      split; [intros j mdl' Hj'; apply Hfails; lia|]. split; [exact Hmdl|].
      rewrite (Hfails (length (models self) - 1) mdl) by (lia || exact Hmdl).
      split; [reflexivity|].
      split; [now apply all_models_fail|].
      split; [apply get_predefined_templates_in|].
      rewrite Hidx. now apply rotation_full. }
  destruct (nil_or_not (models self)) as [Hnil|Hne];
    [|destruct (nil_or_not resume_content) as [Hnil|Hr];
      [|destruct (nil_or_not job_description) as [Hnil|Hj]]].
  1-3: assert (Hor : models self = [] \/ resume_content = [] \/ job_description = [])
         by tauto;
       specialize (Hno_call Hor); clear Hcalls;
       destruct (generate_personalized_paragraph self rnd resume_content job_description)
         as [[text self'] calls];
       destruct Hno_call as (Htext & Hin & -> & ->);
       cbn zeta;
       (split; [exact Htext|]); (split; [now left|]); (split; [reflexivity|]);
       (split; [exact Hwf|]); (split; [cbn; lia|]); (split; [constructor|]);
       (split; [intros _; now repeat split|]);
       (split; [intros H1 H2 H3; tauto|]); intros _; exact Hin.
  specialize (Hcalls Hne Hr Hj). clear Hno_call.
  destruct (generate_personalized_paragraph self rnd resume_content job_description)
    as [[text self'] calls].
  cbn zeta in Hcalls |- *.
  destruct Hcalls as (Hk & Hmod & n & mdl & Hn & -> & Hfails & Hlook & Hlast).
  assert (Hin : In mdl (models self)).
  { apply list_elem_of_In. eapply list_elem_of_lookup_2. exact Hlook. }
  assert (Hidx : current_key_index self' < length (models self)).
  { destruct (attempt_fails (prompt job_description) mdl).
    - destruct Hlast as (_ & _ & _ & ->). exact Hk.
    - destruct Hlast as (t & _ & _ & _ & ->). apply Nat.mod_upper_bound. lia. }
  assert (Htext : text <> []
                  /\ (In text templates
                      \/ (200 < len text
                          /\ contains (lit "Mantavya Mahajan") text = true))).
  { destruct (attempt_fails (prompt job_description) mdl).
    - destruct Hlast as (_ & _ & Htpl & _).
      split; [now apply template_not_nil | now left].
    - destruct Hlast as (t & _ & _ & Hgood & _).
      apply good_enough_spec in Hgood as [Hlong Hname].
      split; [intros ->; cbn in Hlong; lia | right; now split]. }
  split; [apply Htext|]. split; [apply Htext|]. split; [exact Hmod|].
  split; [right; now rewrite Hmod|].
  split; [rewrite rotation_length; lia|].
  split; [apply rotation_NoDup; [exact Hk | lia]|].
  split; [intros [H|[H|H]]; contradiction|].
  split.
  - intros _ _ _. exists n, mdl. split; [exact Hn|]. split; [reflexivity|].
    split; [exact Hfails|]. split; [exact Hlook|].
    destruct (attempt_fails (prompt job_description) mdl); [exact Hlast|].
    destruct Hlast as (t & Hcall & Ht & _ & Hi). now exists t.
  - intros Hall. rewrite List.Forall_forall in Hall. specialize (Hall mdl Hin).
    rewrite Hall in Hlast. apply Hlast.
Qed.

Lemma generate_personalized_paragraph_spec_witness :
  let self := AI [AIExamples.raising_model; AIExamples.wordy_model; AIExamples.good_model] 0 in
  let resume_content := lit "resume" in
  let job_description := lit "We build compilers" in
  let '(text, self', calls) :=
    generate_personalized_paragraph self 2 resume_content job_description in
  let p := prompt job_description in
  let k := current_key_index self in
  let count := length (models self) in
  text <> []
  /\ (In text templates
      \/ (200 < len text /\ contains (lit "Mantavya Mahajan") text = true))
  /\ models self' = models self
  /\ well_formed self'
  /\ length calls <= count
  /\ NoDup calls
  /\ (models self = [] \/ resume_content = [] \/ job_description = [] ->
      In text templates /\ calls = [] /\ current_key_index self' = k)
  /\ (models self <> [] -> resume_content <> [] -> job_description <> [] ->
      exists n mdl,
        1 <= n <= count
        /\ calls = rotation k n count
        /\ (forall j mdl', j < n - 1 -> models self !! ((k + j) mod count) = Some mdl' ->
              attempt_fails p mdl' = true)
        /\ models self !! ((k + (n - 1)) mod count) = Some mdl
        /\ if attempt_fails p mdl
           then n = count
                /\ Forall (fun mdl' => attempt_fails p mdl' = true) (models self)
                /\ In text templates
                /\ current_key_index self' = k
           else exists t,
                  mdl p = GenText t
                  /\ text = strip_unicode t
                  /\ current_key_index self' = (k + (n - 1)) mod count)
  /\ (Forall (fun mdl => attempt_fails p mdl = true) (models self) -> In text templates).
Proof.
  intros self resume_content job_description.
  apply (generate_personalized_paragraph_spec self 2 resume_content job_description).
  right. cbn. lia.
Defined.

End Generator.

(* ===================================================================== *)
(** * The e-mail dispatcher *)
(* ===================================================================== *)

Section Providers.
Import EmailService Statements.

Variable smtp : nat -> provider -> smtp_step -> option raised.
Variable report : str -> option raised.

Lemma session_steps_stages (p : provider) : session_steps p = stages p.
Proof. unfold session_steps, stages. now destruct (use_ssl p). Qed.

Lemma run_steps_spec (answer : smtp_step -> option raised) (order : list smtp_step) :
  run_steps answer order
  = (upto_first_failure
       (fun st => match answer st with None => true | Some _ => false end) order,
     match List.find
             (fun st => negb (match answer st with None => true | Some _ => false end))
             order with
     | Some st => answer st
     | None => None
     end).
Proof.
  induction order as [|st order IH]; [reflexivity|].
  cbn [run_steps upto_first_failure List.find].
  destruct (answer st) as [e|] eqn:E; cbn [negb].
  - now rewrite E.
  - now rewrite IH.
Qed.

(** One pass through the [try] body does what the world says of it. *)
Lemma pass_spec (clock : nat) (p : provider) :
  run_steps (smtp clock p) (session_steps p)
  = (carried_out smtp clock p, ends_with smtp clock p).
Proof. rewrite session_steps_stages. apply run_steps_spec. Qed.

Lemma find_failure_none (answer : smtp_step -> option raised) (order : list smtp_step) :
  match List.find
          (fun st => negb (match answer st with None => true | Some _ => false end))
          order with
  | Some st => answer st
  | None => None
  end = None
  <-> forallb (fun st => match answer st with None => true | Some _ => false end) order
      = true.
Proof.
  induction order as [|st order IH]; [easy|].
  cbn [List.find forallb].
  destruct (answer st) as [e|] eqn:E; cbn [negb andb].
  - rewrite E. easy.
  - exact IH.
Qed.

Lemma completes_forallb (clock : nat) (p : provider) :
  completes smtp clock p = forallb (passes smtp clock p) (stages p).
Proof.
  unfold completes, delivers, stages.
  rewrite !forallb_app. cbn [forallb]. rewrite !andb_true_r.
  now rewrite <- !andb_assoc.
Qed.

Lemma ends_with_completes (clock : nat) (p : provider) :
  ends_with smtp clock p = None <-> completes smtp clock p = true.
Proof. rewrite completes_forallb. apply find_failure_none. Qed.

Lemma upto_first_failure_all (goes : smtp_step -> bool) (order : list smtp_step) :
  forallb goes order = true -> upto_first_failure goes order = order.
Proof.
  induction order as [|st order IH]; [reflexivity|].
  cbn [forallb upto_first_failure]. intros H. apply andb_prop in H as [H1 H2].
  now rewrite H1, IH.
Qed.

Lemma carried_out_completes (clock : nat) (p : provider) :
  completes smtp clock p = true -> carried_out smtp clock p = stages p.
Proof.
  rewrite completes_forallb. apply upto_first_failure_all.
Qed.

Lemma all_caught_cons (clock : nat) (p : provider) (ps : list provider) (e : smtp_exn)
    (i : nat) :
  ends_with smtp clock p = Some (Exception e) ->
  all_caught smtp (S clock) ps i ->
  all_caught smtp clock (p :: ps) (S i).
Proof.
  intros Hp Hps [|j] q Hj Hq.
  - injection Hq as <-. rewrite Nat.add_0_r. now exists e.
  - replace (clock + S j) with (S clock + j) by lia.
    apply (Hps j q); [lia | exact Hq].
Qed.

Lemma all_caught_0 (clock : nat) (providers : list provider) :
  all_caught smtp clock providers 0.
Proof. intros j q Hj. lia. Qed.

(** The loop over the providers: one pass per provider, in the order of
    the list, until a pass goes through to its end or raises an exception
    that no clause catches; after the last provider comes the closing
    [print]. *)
Lemma try_providers_spec (to_email : str) (providers : list provider) :
  forall (log0 : list (provider * list smtp_step)) (clock : nat),
  exists (res : outcome bool) (new : list (provider * list smtp_step)),
    try_providers smtp report providers to_email log0 clock
    = (res, log0 ++ new, clock + length new)
    /\ map fst new = take (length new) providers
    /\ (forall i p done, new !! i = Some (p, done) -> done = carried_out smtp (clock + i) p)
    /\ all_caught smtp clock providers (length new - 1)
    /\ match res with
       | Returns true =>
           exists p, providers !! (length new - 1) = Some p
                     /\ 0 < length new
                     /\ completes smtp (clock + (length new - 1)) p = true
                     /\ new !! (length new - 1) = Some (p, stages p)
       | Returns false =>
           length new = length providers
           /\ all_caught smtp clock providers (length new)
           /\ report to_email = None
       | Propagates e =>
           (e = BaseException
            /\ exists p, providers !! (length new - 1) = Some p
                         /\ 0 < length new
                         /\ ends_with smtp (clock + (length new - 1)) p = Some BaseException)
           \/ (length new = length providers
               /\ all_caught smtp clock providers (length new)
               /\ report to_email = Some e)
       end.
Proof.
  induction providers as [|p ps IH]; intros log0 clock.
  - cbn [try_providers].
    destruct (report to_email) as [e|] eqn:Hreport;
      [exists (Propagates e), [] | exists (Returns false), []];
      cbn [length]; rewrite app_nil_r, Nat.add_0_r;
      (split; [reflexivity|]); (split; [reflexivity|]);
      (split; [intros i q done Hi; rewrite lookup_nil in Hi; discriminate Hi|]);
      (split; [apply all_caught_0|]).
    + right. split; [reflexivity|]. split; [apply all_caught_0 | reflexivity].
    + split; [reflexivity|]. split; [apply all_caught_0 | reflexivity].
  - cbn [try_providers]. rewrite pass_spec.
    destruct (ends_with smtp clock p) as [[e|]|] eqn:Hend.
    + replace (caught (Exception e)) with true by (now destruct e).
      destruct (IH (log0 ++ [(p, carried_out smtp clock p)]) (S clock))
        as (res & new & Heq & Hfst & Hdone & Hcaught & Hres).
      exists res, ((p, carried_out smtp clock p) :: new).
      rewrite Heq, <- app_assoc. cbn [app length map fst take].
      replace (S clock + length new) with (clock + S (length new)) by lia.
      split; [reflexivity|]. split; [now rewrite Hfst|].
      split.
      { intros [|i] q done Hi.
        - cbn in Hi. injection Hi as <- <-. now rewrite Nat.add_0_r.
        - cbn in Hi. replace (clock + S i) with (S clock + i) by lia.
          now apply Hdone. }
      assert (Hshift : 0 < length new ->
                       all_caught smtp clock (p :: ps) (length new)).
      { intros Hpos. replace (length new) with (S (length new - 1)) by lia.
        now apply (all_caught_cons clock p ps e). }
      split.
      { rewrite Nat.sub_succ, Nat.sub_0_r.
        destruct (length new) as [|k] eqn:Hk; [apply all_caught_0|].
        apply Hshift. lia. }
      rewrite Nat.sub_succ, Nat.sub_0_r.
      assert (Hlookup : forall q, ps !! (length new - 1) = Some q -> 0 < length new ->
                                  (p :: ps) !! length new = Some q).
      { intros q Hq Hpos. replace (length new) with (S (length new - 1)) by lia.
        exact Hq. }
      assert (Hclock : 0 < length new ->
                       S clock + (length new - 1) = clock + length new) by lia.
      destruct res as [[|]|r].
      * destruct Hres as (q & Hq & Hpos & Hcomp & Hlast).
        exists q. split; [now apply Hlookup|]. split; [lia|].
        rewrite <- Hclock by exact Hpos. split; [exact Hcomp|].
        replace (length new) with (S (length new - 1)) at 1 by lia. exact Hlast.
      * destruct Hres as (Hlen & Hall & Hreport). split; [cbn [length]; lia|].
        split; [now apply (all_caught_cons clock p ps e) | exact Hreport].
      * destruct Hres as [(-> & q & Hq & Hpos & Hbase)|(Hlen & Hall & Hreport)].
        -- left. split; [reflexivity|].
           exists q. split; [now apply Hlookup|]. split; [lia|].
           now rewrite <- Hclock by exact Hpos.
        -- right. split; [cbn [length]; lia|].
           split; [now apply (all_caught_cons clock p ps e) | exact Hreport].
    + cbn [caught]. exists (Propagates BaseException), [(p, carried_out smtp clock p)].
      cbn [length]. rewrite Nat.add_1_r.
      split; [reflexivity|]. split; [reflexivity|].
      split.
      { intros [|i] q done Hi; [|destruct i; discriminate Hi].
        cbn in Hi. injection Hi as <- <-. now rewrite Nat.add_0_r. }
      split; [apply all_caught_0|]. left. split; [reflexivity|].
      exists p. cbn [Nat.sub lookup]. rewrite Nat.add_0_r.
      split; [reflexivity|]. split; [lia | exact Hend].
    + exists (Returns true), [(p, carried_out smtp clock p)].
      cbn [length]. rewrite Nat.add_1_r.
      split; [reflexivity|]. split; [reflexivity|].
      split.
      { intros [|i] q done Hi; [|destruct i; discriminate Hi].
        cbn in Hi. injection Hi as <- <-. now rewrite Nat.add_0_r. }
      split; [apply all_caught_0|].
      exists p. cbn [Nat.sub lookup]. rewrite Nat.add_0_r.
      apply ends_with_completes in Hend.
      split; [reflexivity|]. split; [lia|]. split; [exact Hend|].
      now rewrite carried_out_completes.
Qed.

Lemma send_email_unfold (self : email_service) (to_email subject body : str) (clock : nat) :
  email_providers self <> [] ->
  send_email smtp report self to_email subject body clock
  = try_providers smtp report (email_providers self) to_email [] clock.
Proof. unfold send_email. now destruct (email_providers self). Qed.

(** A pass that completes, or that ends with an exception no clause
    catches, is not one of the passes that end with a caught exception. *)
Lemma all_caught_not_completes (clock : nat) (providers : list provider) (i j : nat)
    (p : provider) :
  all_caught smtp clock providers i -> j < i -> providers !! j = Some p ->
  completes smtp (clock + j) p = false
  /\ ends_with smtp (clock + j) p <> Some BaseException.
Proof.
  intros Hall Hj Hp. destruct (Hall j p Hj Hp) as [e He]. split.
  - destruct (completes smtp (clock + j) p) eqn:Hc; [|reflexivity].
    apply ends_with_completes in Hc. congruence.
  - congruence.
Qed.

(** C5.  [send_email] makes one pass through the [try] body per
    provider, in the order of the list: [log] holds the providers tried,
    each with the stages carried out, and every pass but the last has
    ended with an exception that derives from [Exception].  It returns
    [True] exactly when some pass goes through to its end, [quit()]
    included, at the first provider for which that happens, every stage
    from the building of the message to [quit()] having been carried out
    with that provider and no later provider being tried.  It returns
    [False] exactly when the list is empty, or every pass ends with an
    exception that derives from [Exception] and the closing [print] goes
    through.  An exception leaves it in two cases only: it does not
    derive from [Exception] and is raised in the last pass made, or it is
    raised by the closing [print] after every provider has been tried. *)
Theorem send_email_tries_providers_in_order
    (self : email_service) (to_email subject body : str) (clock : nat) :
  let providers := email_providers self in
  let '(res, log, clock') := send_email smtp report self to_email subject body clock in
  let n := length log in
  clock' = clock + n
  /\ map fst log = take n providers
  /\ (forall i p done, log !! i = Some (p, done) -> done = carried_out smtp (clock + i) p)
  /\ all_caught smtp clock providers (n - 1)
  /\ match res with
     | Returns true =>
         exists p, providers !! (n - 1) = Some p
                   /\ 0 < n
                   /\ completes smtp (clock + (n - 1)) p = true
                   /\ log !! (n - 1) = Some (p, stages p)
     | Returns false =>
         n = length providers
         /\ all_caught smtp clock providers n
         /\ (providers = [] \/ report to_email = None)
     | Propagates e =>
         (e = BaseException
          /\ exists p, providers !! (n - 1) = Some p
                       /\ 0 < n
                       /\ ends_with smtp (clock + (n - 1)) p = Some BaseException)
         \/ (providers <> []
             /\ n = length providers
             /\ all_caught smtp clock providers n
             /\ report to_email = Some e)
     end
  /\ (res = Returns true
      <-> exists i p, providers !! i = Some p
                      /\ completes smtp (clock + i) p = true
                      /\ all_caught smtp clock providers i)
  /\ (res = Returns false
      <-> providers = []
          \/ (all_caught smtp clock providers (length providers)
              /\ report to_email = None)).
Proof.
  cbn zeta.
  destruct (nil_or_not (email_providers self)) as [Hnil|Hne].
  { unfold send_email. rewrite Hnil. cbn [length Nat.sub take map].
    split; [lia|]. split; [reflexivity|].
    split; [intros i p done Hi; rewrite lookup_nil in Hi; discriminate Hi|].
    split; [apply all_caught_0|].
    split; [split; [reflexivity|]; split; [apply all_caught_0 | now left]|].
    split; [|split; [intros _; now left | reflexivity]].
    split; [discriminate|].
    intros (i & p & Hp & _). rewrite lookup_nil in Hp. discriminate Hp. }
  rewrite send_email_unfold by exact Hne.
  destruct (try_providers_spec to_email (email_providers self) [] clock)
    as (res & log & Heq & Hfst & Hdone & Hcaught & Hres).
  rewrite Heq. cbn [app].
  split; [reflexivity|]. split; [exact Hfst|]. split; [exact Hdone|].
  split; [exact Hcaught|].
  split.
  { destruct res as [[|]|e]; [exact Hres| |].
    - destruct Hres as (Hlen & Hall & Hreport). repeat split; try assumption. now right.
    - destruct Hres as [Hbase|(Hlen & Hall & Hreport)]; [now left|].
      right. repeat split; assumption. }
  assert (Hlast : forall p,
            email_providers self !! (length log - 1) = Some p ->
            ends_with smtp (clock + (length log - 1)) p = Some BaseException ->
            forall i q, email_providers self !! i = Some q ->
                        all_caught smtp clock (email_providers self) i ->
                        completes smtp (clock + i) q = true -> False).
  { intros p Hp Hbase i q Hq Hall Hcomp.
    destruct (Nat.lt_trichotomy i (length log - 1)) as [Hlt|[Heq'|Hgt]].
    - destruct (all_caught_not_completes clock _ _ i q Hcaught Hlt Hq). congruence.
    - subst i. assert (q = p) by congruence. subst q.
      apply ends_with_completes in Hcomp. congruence.
    - destruct (all_caught_not_completes clock _ _ (length log - 1) p Hall Hgt Hp).
      congruence. }
  assert (Hall_fail : forall i q,
            all_caught smtp clock (email_providers self) (length (email_providers self)) ->
            email_providers self !! i = Some q ->
            completes smtp (clock + i) q = false
            /\ ends_with smtp (clock + i) q <> Some BaseException).
  { intros i q Hall Hq. pose proof (lookup_lt_Some _ _ _ Hq) as Hlt.
    exact (all_caught_not_completes clock _ _ i q Hall Hlt Hq). }
  split.
  - split.
    + intros ->. destruct Hres as (p & Hp & Hpos & Hcomp & _).
      exists (length log - 1), p. repeat split; assumption.
    + intros (i & q & Hq & Hcomp & Hall).
      destruct res as [[|]|r]; [reflexivity|exfalso..].
      * destruct Hres as (Hlen & Hall' & _). rewrite Hlen in Hall'.
        destruct (Hall_fail i q Hall' Hq). congruence.
      * destruct Hres as [(-> & p & Hp & Hpos & Hbase)|(Hlen & Hall' & _)].
        -- exact (Hlast p Hp Hbase i q Hq Hall Hcomp).
        -- rewrite Hlen in Hall'. destruct (Hall_fail i q Hall' Hq). congruence.
  - split.
    + intros ->. right. destruct Hres as (Hlen & Hall & Hreport).
      rewrite <- Hlen. now split.
    + intros [Hnil|[Hall Hreport]]; [contradiction|].
      destruct res as [[|]|r]; [exfalso|reflexivity|exfalso].
      * destruct Hres as (p & Hp & Hpos & Hcomp & _).
        destruct (Hall_fail _ p Hall Hp). congruence.
      * destruct Hres as [(-> & p & Hp & Hpos & Hbase)|(_ & _ & Hreport')].
        -- destruct (Hall_fail _ p Hall Hp). congruence.
        -- congruence.
Qed.

End Providers.

(** C5, as it is worded, fails.  A provider whose [quit()] raises after
    the message has gone is counted as failed: the next provider is tried
    and sends the message again, and with no other provider [send_email]
    returns [False] for a message that was delivered.  And two kinds of
    exception leave [send_email]: one that does not derive from
    [Exception], and the one of the closing [print] when the standard
    output cannot encode the address. *)
Lemma send_email_goes_on_after_delivery :
  let self := EmailService.Service [ProviderExamples.gmail; ProviderExamples.outlook] in
  let alone := EmailService.Service [ProviderExamples.gmail] in
  Statements.delivers ProviderExamples.quit_fails 0 ProviderExamples.gmail = true
  /\ EmailService.send_email ProviderExamples.quit_fails EmailService.printable self
       (lit "a@x.com") (lit "Hello") (lit "Body") 0
     = (EmailService.Returns true,
        [ (ProviderExamples.gmail,
           [ EmailService.Compose; EmailService.Connect; EmailService.Login;
             EmailService.SendMessage; EmailService.Quit ]);
          (ProviderExamples.outlook,
           [ EmailService.Compose; EmailService.Connect; EmailService.StartTLS;
             EmailService.Login; EmailService.SendMessage; EmailService.Quit ]) ],
        2)
  /\ EmailService.send_email ProviderExamples.quit_fails EmailService.printable alone
       (lit "a@x.com") (lit "Hello") (lit "Body") 0
     = (EmailService.Returns false,
        [ (ProviderExamples.gmail,
           [ EmailService.Compose; EmailService.Connect; EmailService.Login;
             EmailService.SendMessage; EmailService.Quit ]) ],
        1)
  /\ EmailService.send_email ProviderExamples.interrupted EmailService.printable self
       (lit "a@x.com") (lit "Hello") (lit "Body") 0
     = (EmailService.Propagates EmailService.BaseException,
        [ (ProviderExamples.gmail, [ EmailService.Compose; EmailService.Connect ]);
          (ProviderExamples.outlook,
           [ EmailService.Compose; EmailService.Connect; EmailService.StartTLS;
             EmailService.Login ]) ],
        2)
  /\ EmailService.send_email ProviderExamples.print_fails ProviderExamples.unprintable alone
       (lit "a@x.com") (lit "Hello") (lit "Body") 0
     = (EmailService.Propagates (EmailService.Exception EmailService.OtherException),
        [ (ProviderExamples.gmail, [ EmailService.Compose ]) ],
        1).
Proof. repeat split. Qed.

Section Dispatcher.
Import EmailService Statements.

Variable smtp : nat -> provider -> smtp_step -> option smtp_exn.

(** The loop of [send_bulk_emails] adds one to exactly one of the two
    counters at each address. *)
Lemma bulk_loop (self : email_service) (company_name content : str) (email_list : list str) :
  forall (results : bulk_results) (clock : nat),
    let r := fst (fold_left (bulk_step smtp self company_name content) email_list
                    (results, clock)) in
    total r = total results
    /\ sent r + failed r = sent results + failed results + length email_list.
Proof.
  induction email_list as [|email email_list IH]; intros results clock.
  - cbn. lia.
  - cbn [fold_left length].
    destruct (bulk_step smtp self company_name content (results, clock) email)
      as [results' clock'] eqn:Hstep.
    specialize (IH results' clock'). cbn zeta in IH |- *.
    assert (Hone : total results' = total results
                   /\ sent results' + failed results' = sent results + failed results + 1).
    { unfold bulk_step in Hstep. cbn [create_email_content] in Hstep.
      destruct (send_email (uninterrupted smtp) printable self email _ _ clock)
        as [[[[]|e] contacted] c];
        injection Hstep as <- <-; cbn; lia. }
    lia.
Qed.

(** C8.  The result of [send_bulk_emails] has [total] equal to the length
    of the input list and [sent + failed] equal to [total]. *)
Theorem send_bulk_emails_counts
    (self : email_service) (email_list : list str) (company_name content : str) (clock : nat) :
  let results := fst (send_bulk_emails smtp self email_list company_name content clock) in
  total results = length email_list
  /\ sent results + failed results = total results.
Proof.
  unfold send_bulk_emails.
  pose proof (bulk_loop self company_name content email_list
                (Results 0 0 (length email_list)) clock) as H.
  cbn zeta in H |- *. cbn [total sent failed] in H. lia.
Qed.

End Dispatcher.

(* ===================================================================== *)
(** * Domain cleaning *)
(* ===================================================================== *)

Section CleanDomain.
Import EmailScraper Statements.

(** ** [str.replace(p, '')] *)

Lemma length_drop_startswith (p s : str) :
  p <> [] -> startswith p s = true -> length (drop (length p) s) < length s.
Proof.
  intros Hp Hs. apply startswith_inv in Hs as [r ->].
  rewrite length_drop, length_app. destruct p; [congruence|]. cbn. lia.
Qed.

(** Any fuel that covers the text gives the same result. *)
Lemma remove_all_fuel (p : str) :
  p <> [] ->
  forall (n m : nat) (s : str),
    length s <= n -> length s <= m -> remove_all p s n = remove_all p s m.
Proof.
  intros Hp. induction n as [|n IH]; intros m s Hn Hm.
  - destruct s; [|cbn in Hn; lia]. destruct m; reflexivity.
  - destruct m as [|m]; [destruct s; [reflexivity | cbn in Hm; lia]|].
    destruct s as [|c s]; [reflexivity|]. cbn [remove_all].
    destruct (startswith p (c :: s)) eqn:Hs.
    + pose proof (length_drop_startswith p (c :: s) Hp Hs) as Hlt.
      cbn [length] in *. apply IH; lia.
    + f_equal. cbn [length] in *. apply IH; lia.
Qed.

(** The equation of the one-pass removal. *)
Lemma replace_unfold (p s : str) :
  p <> [] ->
  replace_with_empty p s
  = match s with
    | [] => []
    | c :: s' =>
        if startswith p s then replace_with_empty p (drop (length p) s)
        else c :: replace_with_empty p s'
    end.
Proof.
  intros Hp. unfold replace_with_empty.
  destruct p as [|q p]; [congruence|].
  destruct s as [|c s]; [reflexivity|].
  cbn [length remove_all].
  destruct (startswith (q :: p) (c :: s)) eqn:Hs.
  - pose proof (length_drop_startswith (q :: p) (c :: s) Hp Hs) as Hlt.
    cbn [length] in Hlt. apply remove_all_fuel; [assumption | lia | lia].
  - reflexivity.
Qed.

Lemma replace_nil (p : str) : replace_with_empty p [] = [].
Proof. destruct p; reflexivity. Qed.

Lemma In_drop {A} (n : nat) (l : list A) (x : A) : In x (drop n l) -> In x l.
Proof.
  revert l. induction n as [|n IH]; intros l H; [exact H|].
  destruct l as [|y l]; [exact H|]. right. now apply IH.
Qed.

(** The removal only deletes characters. *)
Lemma replace_In (p : str) (x : ascii) :
  forall (n : nat) (s : str), length s <= n ->
    In x (replace_with_empty p s) -> In x s.
Proof.
  destruct p as [|q p]; [intros n s _ H; exact H|].
  assert (Hp : q :: p <> []) by discriminate.
  induction n as [|n IH]; intros s Hn Hin.
  - destruct s; [exact Hin | cbn in Hn; lia].
  - rewrite replace_unfold in Hin by assumption.
    destruct s as [|c s]; [exact Hin|].
    destruct (startswith (q :: p) (c :: s)) eqn:Hs.
    + pose proof (length_drop_startswith _ _ Hp Hs) as Hlt.
      eapply In_drop. apply IH; [|exact Hin]. cbn [length] in *. lia.
    + destruct Hin as [->|Hin]; [now left|]. right.
      apply IH; [cbn [length] in Hn; lia | exact Hin].
Qed.

Lemma startswith_In (p s : str) (x : ascii) :
  startswith p s = true -> In x p -> In x s.
Proof.
  intros Hs Hx. apply startswith_inv in Hs as [r ->].
  apply in_app_iff. now left.
Qed.

Lemma contains_In (p s : str) (x : ascii) :
  contains p s = true -> In x p -> In x s.
Proof.
  intros Hc Hx. induction s as [|c s IH].
  - cbn in Hc. rewrite orb_false_r in Hc. eapply startswith_In; eassumption.
  - cbn [contains] in Hc. apply orb_prop in Hc as [Hs|Hc].
    + eapply startswith_In; eassumption.
    + right. now apply IH.
Qed.

(** Without an occurrence of the pattern nothing is removed. *)
Lemma replace_absent (p s : str) :
  contains p s = false -> replace_with_empty p s = s.
Proof.
  destruct p as [|q p]; [reflexivity|].
  induction s as [|c s IH]; intros Hc; [reflexivity|].
  rewrite replace_unfold by discriminate.
  cbn [contains] in Hc. apply orb_false_elim in Hc as [Hs Hc].
  rewrite Hs. now rewrite IH.
Qed.

Lemma replace_absent_char (p s : str) (x : ascii) :
  In x p -> ~ In x s -> replace_with_empty p s = s.
Proof.
  intros Hp Hs. apply replace_absent.
  destruct (contains p s) eqn:Hc; [|reflexivity].
  exfalso. apply Hs. eapply contains_In; eassumption.
Qed.

(** ** White space around a text *)

Lemma space_facts (c : ascii) :
  is_space c = true ->
  lower_char c = c /\ c <> "/"%char /\ c <> "."%char.
Proof.
  destruct c as [[] [] [] [] [] [] [] []]; vm_compute; intros H;
    try discriminate H; repeat split; discriminate.
Qed.

Lemma lstrip_decompose (s : str) :
  exists a, all_space a /\ s = a ++ lstrip s.
Proof.
  induction s as [|c s IH].
  - exists []. split; [constructor | reflexivity].
  - cbn [lstrip]. destruct (is_space c) eqn:Hc.
    + destruct IH as (a & Ha & Hs). exists (c :: a).
      split; [now constructor | cbn; now f_equal].
    + exists []. split; [constructor | reflexivity].
Qed.

Lemma all_space_rev (a : str) : all_space a -> all_space (rev a).
Proof.
  unfold all_space. rewrite !List.Forall_forall. intros H x Hx.
  apply H. now apply in_rev.
Qed.

(** [strip] removes a run of white space at each end. *)
Lemma strip_decompose (s : str) :
  exists a b, all_space a /\ all_space b /\ s = a ++ strip s ++ b.
Proof.
  destruct (lstrip_decompose s) as (a & Ha & Hs).
  destruct (lstrip_decompose (rev (lstrip s))) as (b & Hb & Hr).
  exists a, (rev b). split; [assumption|]. split; [now apply all_space_rev|].
  unfold strip, rstrip. rewrite Hs at 1. f_equal.
  rewrite <- rev_app_distr, <- Hr. now rewrite rev_involutive.
Qed.

Lemma lower_all_space (a : str) : all_space a -> lower a = a.
Proof.
  induction 1 as [|c a Hc _ IH]; [reflexivity|].
  change (lower (c :: a)) with (lower_char c :: lower a).
  rewrite IH. f_equal. now apply space_facts.
Qed.

Lemma all_space_not_in (a : str) (x : ascii) :
  all_space a -> is_space x = false -> ~ In x a.
Proof.
  intros Ha Hx Hin. unfold all_space in Ha. rewrite List.Forall_forall in Ha.
  specialize (Ha x Hin). congruence.
Qed.

(** A pattern without white space does not see white space that follows
    the text. *)
Lemma startswith_trailing_space (p : str) :
  no_space p ->
  forall (x b : str), all_space b -> startswith p (x ++ b) = startswith p x.
Proof.
  induction 1 as [|q p Hq _ IH]; intros x b Hb; [reflexivity|].
  destruct x as [|c x].
  - destruct Hb as [|s b Hs _]; [reflexivity|]. cbn.
    destruct (Ascii.eqb q s) eqn:E; [|reflexivity].
    apply Ascii.eqb_eq in E. subst. congruence.
  - cbn. now rewrite IH.
Qed.

Lemma replace_leading_space (p a x : str) :
  p <> [] -> no_space p -> all_space a ->
  replace_with_empty p (a ++ x) = a ++ replace_with_empty p x.
Proof.
  intros Hp Hns Ha. induction Ha as [|c a Hc _ IH]; [reflexivity|].
  cbn [app]. rewrite replace_unfold by assumption.
  replace (startswith p (c :: a ++ x)) with false.
  - now rewrite IH.
  - destruct Hns as [|q p Hq _]; [congruence|]. cbn.
    destruct (Ascii.eqb q c) eqn:E; [|reflexivity].
    apply Ascii.eqb_eq in E. subst. congruence.
Qed.

Lemma replace_all_space (p b : str) :
  p <> [] -> no_space p -> all_space b -> replace_with_empty p b = b.
Proof.
  intros Hp Hns Hb.
  pose proof (replace_leading_space p b [] Hp Hns Hb) as H.
  now rewrite replace_nil, !app_nil_r in H.
Qed.

Lemma replace_trailing_space (p b : str) :
  p <> [] -> no_space p -> all_space b ->
  forall (n : nat) (x : str), length x <= n ->
    replace_with_empty p (x ++ b) = replace_with_empty p x ++ b.
Proof.
  intros Hp Hns Hb. induction n as [|n IH]; intros x Hn.
  - destruct x; [|cbn in Hn; lia]. cbn [app].
    rewrite replace_nil. now apply replace_all_space.
  - destruct x as [|c x].
    { cbn [app]. rewrite replace_nil. now apply replace_all_space. }
    rewrite (replace_unfold p ((c :: x) ++ b)), (replace_unfold p (c :: x)) by assumption.
    cbn [app]. change (c :: x ++ b) with ((c :: x) ++ b).
    rewrite startswith_trailing_space by assumption.
    destruct (startswith p (c :: x)) eqn:Hs.
    + pose proof (length_drop_startswith p (c :: x) Hp Hs) as Hlt.
      destruct (startswith_inv _ _ Hs) as [r Hr].
      assert (Hdrop : drop (length p) ((c :: x) ++ b) = drop (length p) (c :: x) ++ b).
      { rewrite Hr, <- app_assoc, !drop_app_length. reflexivity. }
      rewrite Hdrop. apply IH. cbn [length] in *. lia.
    + cbn [app]. f_equal. apply IH. cbn [length] in Hn. lia.
Qed.

Lemma replace_around_space (p a x b : str) :
  p <> [] -> no_space p -> all_space a -> all_space b ->
  replace_with_empty p (a ++ x ++ b) = a ++ replace_with_empty p x ++ b.
Proof.
  intros Hp Hns Ha Hb. rewrite replace_leading_space by assumption.
  f_equal. now apply (replace_trailing_space p b Hp Hns Hb (length x)).
Qed.

(** ** The cut at the first ['/'] *)

Lemma hd_split_app (sep : ascii) (u v : str) :
  hd [] (split sep (u ++ v))
  = if contains_char sep u then hd [] (split sep u) else u ++ hd [] (split sep v).
Proof.
  induction u as [|c u IH]; [reflexivity|].
  cbn [app split]. unfold contains_char. cbn [existsb].
  rewrite (Ascii.eqb_sym sep c).
  destruct (Ascii.eqb c sep) eqn:E; [reflexivity|]. cbn [orb].
  fold (contains_char sep u).
  pose proof (split_not_nil sep (u ++ v)) as H1.
  pose proof (split_not_nil sep u) as H2.
  destruct (split sep (u ++ v)) as [|h1 t1]; [congruence|].
  destruct (split sep u) as [|h2 t2]; [congruence|].
  cbn [hd] in *. destruct (contains_char sep u); now rewrite IH.
Qed.

Lemma hd_split_In (sep : ascii) (s : str) (x : ascii) :
  In x (hd [] (split sep s)) -> In x s.
Proof.
  induction s as [|c s IH]; [intros []|].
  cbn [split]. destruct (Ascii.eqb c sep); [intros []|].
  pose proof (split_not_nil sep s) as Hne.
  destruct (split sep s) as [|h t]; [congruence|].
  cbn [hd] in *. intros [->|H]; [now left | right; now apply IH].
Qed.

Lemma contains_char_app (x : ascii) (u v : str) :
  contains_char x (u ++ v) = contains_char x u || contains_char x v.
Proof. unfold contains_char. apply existsb_app. Qed.

Lemma contains_char_all_space (x : ascii) (a : str) :
  all_space a -> is_space x = false -> contains_char x a = false.
Proof.
  intros Ha Hx. apply contains_char_false. now apply all_space_not_in.
Qed.

(** White space around a text does not change whether its core holds a
    dot. *)
Lemma cleaned_core_around_space (a x b : str) :
  all_space a -> all_space b ->
  contains_char "." (cleaned_core (a ++ x ++ b)) = contains_char "." (cleaned_core x).
Proof.
  intros Ha Hb. unfold cleaned_core.
  assert (Hns : forall p, In p [lit "https://"; lit "http://"; lit "www."] ->
                          p <> [] /\ no_space p).
  { intros p [<-|[<-|[<-|[]]]]; split; try discriminate; repeat constructor. }
  rewrite !replace_around_space; try assumption; try (apply Hns; cbn; tauto).
  set (y := replace_with_empty (lit "www.")
              (replace_with_empty (lit "http://")
                 (replace_with_empty (lit "https://") x))).
  rewrite hd_split_app.
  rewrite (contains_char_all_space "/" a Ha eq_refl).
  rewrite contains_char_app, (contains_char_all_space "." a Ha eq_refl). cbn [orb].
  rewrite hd_split_app.
  destruct (contains_char "/" y) eqn:Hy; [reflexivity|].
  apply contains_char_false in Hy.
  rewrite (split_no_sep "/" y Hy).
  rewrite (split_no_sep "/" b) by (now apply all_space_not_in).
  cbn [hd]. rewrite contains_char_app, (contains_char_all_space "." b Hb eq_refl).
  apply orb_false_r.
Qed.

(** ** [clean_domain] *)

Lemma clean_domain_unfold (d : str) :
  clean_domain d
  = if contains_char "." (cleaned_core (lower (strip d)))
    then Some (cleaned_core (lower (strip d)))
    else None.
Proof. reflexivity. Qed.

Lemma cleaned_core_In (s : str) (x : ascii) : In x (cleaned_core s) -> In x s.
Proof.
  unfold cleaned_core. intros H. apply hd_split_In in H.
  eapply replace_In in H; [|reflexivity].
  eapply replace_In in H; [|reflexivity].
  eapply replace_In in H; [|reflexivity]. exact H.
Qed.

Lemma lower_fixed (s : str) :
  (forall x, In x s -> lower_char x = x) -> lower s = s.
Proof.
  intros H. unfold lower. rewrite <- (map_id s) at 2.
  apply map_ext_in. exact H.
Qed.

(** A text without ['/'] and without ['www.'] is its own core. *)
Lemma cleaned_core_fixed (c : str) :
  ~ In "/"%char c -> contains (lit "www.") c = false -> cleaned_core c = c.
Proof.
  intros Hslash Hwww. unfold cleaned_core.
  rewrite (replace_absent_char (lit "https://") c "/") by (cbn; tauto).
  rewrite (replace_absent_char (lit "http://") c "/") by (cbn; tauto).
  rewrite (replace_absent (lit "www.") c Hwww).
  now rewrite split_no_sep.
Qed.

(** C9, as the code has it.  [clean_domain] returns [None] exactly when
    the lower-cased input, after the removal of 'https://', 'http://' and
    'www.' and the cut at the first '/', holds no '.'.  A result [c] that
    is not [None], has no white space at either end and does not contain
    'www.' is a fixed point: [clean_domain(c) = c]. *)
Theorem clean_domain_none_and_fixed_point (d : str) :
  (clean_domain d = None <-> contains_char "." (cleaned_core (lower d)) = false)
  /\ (forall c, clean_domain d = Some c ->
                strip c = c -> contains (lit "www.") c = false ->
                clean_domain c = Some c).
Proof.
  split.
  - destruct (strip_decompose d) as (a & b & Ha & Hb & Hd).
    assert (Hcore : contains_char "." (cleaned_core (lower d))
                    = contains_char "." (cleaned_core (lower (strip d)))).
    { rewrite Hd at 1.
      rewrite !lower_app, (lower_all_space a Ha), (lower_all_space b Hb).
      now apply cleaned_core_around_space. }
    rewrite Hcore, clean_domain_unfold.
    destruct (contains_char "." (cleaned_core (lower (strip d)))); split; congruence.
  - intros c Hc Hstrip Hwww.
    rewrite clean_domain_unfold in Hc.
    destruct (contains_char "." (cleaned_core (lower (strip d)))) eqn:Hdot; [|discriminate].
    injection Hc as Hc.
    assert (Hslash : ~ In "/"%char c).
    { rewrite <- Hc. unfold cleaned_core. apply split_hd_no_sep. }
    assert (Hlow : lower c = c).
    { apply lower_fixed. intros x Hx. rewrite <- Hc in Hx.
      apply cleaned_core_In in Hx. unfold lower in Hx.
      apply in_map_iff in Hx as [y [<- _]]. apply lower_char_idempotent. }
    rewrite clean_domain_unfold, Hstrip, Hlow.
    rewrite (cleaned_core_fixed c Hslash Hwww).
    rewrite <- Hc at 1. now rewrite Hdot.
Qed.

Lemma clean_domain_none_and_fixed_point_witness :
  clean_domain (lit "  HTTPS://www.Example.com/jobs ") = Some (lit "example.com")
  /\ clean_domain (lit "example.com") = Some (lit "example.com").
Proof.
  assert (H : clean_domain (lit "  HTTPS://www.Example.com/jobs ") = Some (lit "example.com"))
    by reflexivity.
  split; [exact H|].
  apply (proj2 (clean_domain_none_and_fixed_point (lit "  HTTPS://www.Example.com/jobs "))
           (lit "example.com") H); reflexivity.
Defined.

(** C9, as it is worded, fails: the removal of 'www.' is one pass, and
    what it leaves can hold 'www.' again. *)
Lemma clean_domain_not_idempotent :
  clean_domain (lit "wwww.ww.a") = Some (lit "www.a")
  /\ clean_domain (lit "www.a") = None
  /\ clean_domain (lit "www.a") <> Some (lit "www.a").
Proof. repeat split. discriminate. Qed.

(** White space left inside by the removal of a scheme is a second way
    out of idempotence. *)
Lemma clean_domain_leaves_space :
  clean_domain (lit "http:// example.com") = Some (lit " example.com")
  /\ clean_domain (lit " example.com") = Some (lit "example.com").
Proof. split; reflexivity. Qed.

End CleanDomain.

(* ===================================================================== *)
(** * The campaign orchestrator *)
(* ===================================================================== *)

Section Orchestrator.
Import App Statements.

Variable w : world.

(** ** What the body does to a record *)

Lemma append_error_lookup (msg : str) (record : gmap string json) (key : string) :
  key <> "errors"%string -> append_error msg record !! key = record !! key.
Proof. intros H. unfold append_error. now rewrite lookup_alter_ne. Qed.

Lemma fail_with_status (msg : str) (record : gmap string json) :
  has_status (fail_with msg record) "failed".
Proof.
  unfold has_status, fail_with. rewrite append_error_lookup by done.
  now rewrite lookup_insert_eq.
Qed.

Lemma fail_with_lookup (msg : str) (record : gmap string json) (key : string) :
  key <> "errors"%string -> key <> "status"%string ->
  fail_with msg record !! key = record !! key.
Proof.
  intros H1 H2. unfold fail_with. rewrite append_error_lookup by done.
  now rewrite lookup_insert_ne.
Qed.

Lemma failed_settled (record : gmap string json) :
  has_status record "failed" -> settled record.
Proof. intros H. split; [now right | now intros _]. Qed.

Lemma finish_settled (record : gmap string json) : settled (finish w record).
Proof.
  unfold finish.
  destruct (record !! "emails_sent"%string) as [emails_sent|] eqn:Hsent;
    [|apply failed_settled, fail_with_status].
  destruct (greater_than_zero emails_sent) as [[]|msg] eqn:Hgt;
    [| |apply failed_settled, fail_with_status].
  - split.
    + left. unfold has_status.
      rewrite lookup_insert_ne by done. now rewrite lookup_insert_eq.
    + intros [Hzero _]. rewrite !lookup_insert_ne in Hzero by done.
      rewrite Hsent in Hzero. injection Hzero as ->. discriminate Hgt.
  - destruct (greater_than_zero
                (default (JNum 0) (record !! "linkedin_connections_sent"%string)))
      as [[]|msg] eqn:Hli; [| |apply failed_settled, fail_with_status].
    + split.
      * left. unfold has_status.
        rewrite lookup_insert_ne by done. now rewrite lookup_insert_eq.
      * intros [_ Hzero]. rewrite !lookup_insert_ne in Hzero by done.
        rewrite Hzero in Hli. discriminate Hli.
    + apply failed_settled. unfold has_status.
      rewrite lookup_insert_ne by done. now rewrite lookup_insert_eq.
Qed.

(** Whatever the services do, the body leaves the record settled. *)
Lemma campaign_body_settled (campaign_data record : gmap string json) :
  settled (campaign_body w campaign_data record).
Proof.
  unfold campaign_body.
  destruct (campaign_data !! "domain"%string) as [domain|];
    [|apply failed_settled, fail_with_status].
  destruct domain; try (apply failed_settled, fail_with_status).
  destruct (EmailScraper.clean_domain s) as [clean_domain|].
  - destruct (generate_personalized_paragraph w _ _);
      [|apply failed_settled, fail_with_status].
    destruct (if truthy _ then _ else _) as [record' emails].
    apply finish_settled.
  - apply failed_settled. unfold has_status.
    rewrite append_error_lookup by done. now rewrite lookup_insert_eq.
Qed.

(** The body never touches the [id] of the record. *)
Lemma finish_id (record : gmap string json) :
  finish w record !! "id"%string = record !! "id"%string.
Proof.
  unfold finish.
  repeat match goal with
         | |- context [match ?x with _ => _ end] => destruct x
         end;
    rewrite ?fail_with_lookup by done;
    rewrite ?lookup_insert_ne by done; reflexivity.
Qed.

Lemma email_outreach_id clean_domain target_email_count resume_content job_description
    company_name personalized_email (record : gmap string json) :
  fst (email_outreach w clean_domain target_email_count resume_content job_description
         company_name personalized_email record) !! "id"%string
  = record !! "id"%string.
Proof.
  unfold email_outreach.
  repeat match goal with
         | |- context [match ?x with _ => _ end] => destruct x
         end;
    cbn [fst];
    rewrite ?append_error_lookup by done;
    rewrite ?lookup_insert_ne by done; reflexivity.
Qed.

Lemma linkedin_outreach_id emails company_name (record : gmap string json) :
  linkedin_outreach w emails company_name record !! "id"%string = record !! "id"%string.
Proof.
  unfold linkedin_outreach.
  repeat match goal with
         | |- context [match ?x with _ => _ end] => destruct x
         end;
    rewrite ?append_error_lookup by done;
    rewrite ?lookup_insert_ne by done; reflexivity.
Qed.

Lemma campaign_body_id (campaign_data record : gmap string json) :
  campaign_body w campaign_data record !! "id"%string = record !! "id"%string.
Proof.
  unfold campaign_body.
  destruct (campaign_data !! "domain"%string) as [domain|];
    [|now apply fail_with_lookup].
  destruct domain; try (now apply fail_with_lookup).
  destruct (EmailScraper.clean_domain s) as [clean_domain|].
  - destruct (generate_personalized_paragraph w _ _) as [personalized_email|msg];
      [|now apply fail_with_lookup].
    destruct (truthy (default (JBool true) (campaign_data !! "email_enabled"%string))).
    + pose proof (email_outreach_id clean_domain
                    (default (JNum 5) (campaign_data !! "target_email_count"%string))
                    (load_resume w)
                    (default (JStr []) (campaign_data !! "job_description"%string))
                    (title (hd [] (split "." clean_domain)))
                    personalized_email record) as Hid.
      destruct (email_outreach w _ _ _ _ _ _ record) as [record' emails].
      cbn [fst] in Hid. rewrite finish_id.
      destruct (truthy _); [rewrite linkedin_outreach_id|]; exact Hid.
    + rewrite finish_id.
      destruct (truthy _); [rewrite linkedin_outreach_id|]; reflexivity.
  - rewrite append_error_lookup by done. now rewrite lookup_insert_ne.
Qed.

(** ** The thread *)

Lemma thread_steps_finished (n : nat) (g : globals) :
  thread_steps w n g Finished = (g, Finished).
Proof. induction n as [|n IH]; [reflexivity | exact IH]. Qed.

Lemma thread_steps_add (a b : nat) (g : globals) (t : thread) :
  thread_steps w (a + b) g t
  = let '(g', t') := thread_steps w a g t in thread_steps w b g' t'.
Proof.
  revert g t. induction a as [|a IH]; intros g t; [reflexivity|].
  cbn [Nat.add thread_steps]. destruct (thread_step w g t) as [g' t']. apply IH.
Qed.

(** The first three steps: the counter is read, then incremented, then
    the record is appended. *)
Lemma thread_prologue (g : globals) (o : gmap string json) (domain : json) :
  o !! "domain"%string = Some domain ->
  thread_steps w 1 g (AtReadCounter (JObj o))
  = (g, AtIncrement (JObj o) (campaign_counter g))
  /\ thread_steps w 2 g (AtReadCounter (JObj o))
     = (Globals (campaign_results g) (campaign_counter g + 1),
        AtAppend (JObj o) (campaign_counter g))
  /\ thread_steps w 3 g (AtReadCounter (JObj o))
     = (Globals (campaign_results g ++ [new_record (campaign_counter g) domain])
          (campaign_counter g + 1),
        AtBody o (length (campaign_results g))).
Proof.
  intros Hdomain. repeat split.
  cbn [thread_steps thread_step subscript campaign_results campaign_counter].
  now rewrite Hdomain.
Qed.

Lemma thread_completes (g : globals) (o : gmap string json) (domain : json) :
  o !! "domain"%string = Some domain ->
  thread_steps w 4 g (AtReadCounter (JObj o)) = (after_campaign w g o domain, Finished).
Proof.
  intros Hdomain. change 4 with (3 + 1). rewrite thread_steps_add.
  destruct (thread_prologue g o domain Hdomain) as (_ & _ & ->).
  cbn [thread_steps thread_step campaign_results campaign_counter].
  unfold after_campaign. f_equal. f_equal.
  rewrite <- (Nat.add_0_r (length (campaign_results g))).
  now rewrite alter_app_r.
Qed.

(** Wherever the thread stands when the handler answers, it ends with
    the same globals. *)
Lemma thread_completes_from (k : nat) (g : globals) (o : gmap string json) (domain : json) :
  o !! "domain"%string = Some domain ->
  (let '(g', t) := thread_steps w k g (AtReadCounter (JObj o)) in run_thread w g' t)
  = (after_campaign w g o domain, Finished).
Proof.
  intros Hdomain. unfold run_thread. rewrite <- thread_steps_add.
  destruct (Nat.le_gt_cases k 4) as [Hk|Hk].
  - replace (k + 4) with (4 + k) by lia.
    rewrite thread_steps_add, (thread_completes g o domain Hdomain).
    apply thread_steps_finished.
  - replace (k + 4) with (4 + k) by lia.
    rewrite thread_steps_add, (thread_completes g o domain Hdomain).
    apply thread_steps_finished.
Qed.

(** C10.  The thread of a request that has a domain ends, and the record
    it has appended to [campaign_results] then has the status 'completed'
    or 'failed', never 'running'; when the record counts no e-mail sent
    and no LinkedIn connection sent the status is 'failed', whatever its
    list of errors holds. *)
Theorem campaign_reaches_terminal_status
    (g : globals) (o : gmap string json) (domain : json) :
  o !! "domain"%string = Some domain ->
  let '(g', t) := run_thread w g (AtReadCounter (JObj o)) in
  t = Finished
  /\ exists record,
       campaign_results g' = campaign_results g ++ [record]
       /\ (has_status record "completed" \/ has_status record "failed")
       /\ ~ has_status record "running"
       /\ (nothing_sent record -> has_status record "failed").
Proof.
  intros Hdomain. unfold run_thread.
  rewrite (thread_completes g o domain Hdomain).
  split; [reflexivity|].
  exists (campaign_body w o (new_record (campaign_counter g) domain)).
  destruct (campaign_body_settled o (new_record (campaign_counter g) domain))
    as [Hterminal Hzero].
  repeat split; try assumption.
  unfold has_status in *. intros Hrunning.
  destruct Hterminal as [H|H]; rewrite H in Hrunning; discriminate Hrunning.
Qed.

(** ** The request handler *)

(** C7.  A request whose body has no 'domain' field, or has both
    'email_enabled' and 'linkedin_enabled' falsy, is refused; no thread is
    started and the globals stay as they were: no record is appended and
    [campaign_counter] keeps its value.  The status is 400 when the body
    is a JSON object or is falsy (null, false, 0, an empty string or
    list); it is 500 when the body is any other value: such a value has no
    [get] method, and the [AttributeError] reaches the outer [except]. *)
Theorem launch_rejects_invalid_request
    (g : globals) (data : json) (head_start : nat) :
  field data "domain" = None
  \/ (truthy (default JNull (field data "email_enabled")) = false
      /\ truthy (default JNull (field data "linkedin_enabled")) = false) ->
  let '(r, g', t) := launch_campaign w g (Ok data) head_start in
  status_code r = (if is_object data || negb (truthy data) then 400 else 500)
  /\ g' = g
  /\ t = None
  /\ campaign_results g' = campaign_results g
  /\ campaign_counter g' = campaign_counter g
  /\ serve_launch w g (Ok data) head_start = (r, g).
Proof.
  intros Hbad.
  assert (Hval : exists msg,
            validate (Ok data)
            = Some (error_response
                      (if is_object data || negb (truthy data) then 400 else 500) msg)).
  { unfold validate. destruct (truthy data) eqn:Htruthy; cbn [negb];
      [|rewrite orb_true_r; eauto].
    rewrite orb_false_r.
    destruct data as [| | | | |l|o]; cbn [get is_object]; eauto.
    cbn [field] in Hbad. destruct Hbad as [Hnone|[He Hl]].
    - rewrite Hnone. cbn. eauto.
    - destruct (negb (truthy (default JNull (o !! "domain"%string)))); [eauto|].
      rewrite He, Hl. cbn. eauto. }
  destruct Hval as [msg Hval].
  unfold serve_launch, launch_campaign. rewrite Hval. repeat split.
Qed.

Lemma validate_passes (data : json) :
  validate (Ok data) = None ->
  exists o domain, data = JObj o /\ o !! "domain"%string = Some domain.
Proof.
  unfold validate. intros H.
  destruct (negb (truthy data)); [discriminate|].
  destruct data; try discriminate H.
  cbn [get] in H.
  destruct (o !! "domain"%string) as [domain|] eqn:Hdomain.
  - now exists o, domain.
  - cbn in H. discriminate H.
Qed.

Lemma new_record_id (campaign_id : Z) (domain : json) :
  new_record campaign_id domain !! "id"%string = Some (JNum campaign_id).
Proof. reflexivity. Qed.

(** A request that passes the validation gets status 200 and starts one
    thread, which appends exactly one record; the identifier of that
    record is the value [campaign_counter] had at the request.  The
    [campaign_id] of the response is [campaign_counter - 1] as read when
    the response is built: the identifier of the new record once the
    thread has made its first two steps, one less before that. *)
Lemma launch_valid_request (g : globals) (data : json) (head_start : nat) :
  validate (Ok data) = None ->
  let '(r, g') := serve_launch w g (Ok data) head_start in
  status_code r = 200
  /\ (exists record,
        campaign_results g' = campaign_results g ++ [record]
        /\ record !! "id"%string = Some (JNum (campaign_counter g)))
  /\ payload r !! "campaign_id"%string
     = Some (JNum (if head_start <? 2 then campaign_counter g - 1 else campaign_counter g)).
Proof.
  intros Hval. destruct (validate_passes data Hval) as (o & domain & -> & Hdomain).
  unfold serve_launch, launch_campaign. rewrite Hval.
  pose proof (thread_completes_from head_start g o domain Hdomain) as Hend.
  destruct (thread_steps w head_start g (AtReadCounter (JObj o))) as [g1 t1] eqn:Hsteps.
  rewrite Hend. cbn [fst]. split; [reflexivity|]. split.
  - exists (campaign_body w o (new_record (campaign_counter g) domain)).
    split; [reflexivity|]. rewrite campaign_body_id. apply new_record_id.
  - assert (Hcounter : campaign_counter g1
                       = if head_start <? 2 then campaign_counter g
                         else (campaign_counter g + 1)%Z).
    { destruct (thread_prologue g o domain Hdomain) as (H1 & H2 & H3).
      destruct head_start as [|[|k]].
      - cbn in Hsteps. now injection Hsteps as <- _.
      - rewrite H1 in Hsteps. now injection Hsteps as <- _.
      - change (S (S k)) with (2 + k) in Hsteps.
        rewrite thread_steps_add, H2 in Hsteps.
        change (2 + k <? 2) with false. cbn iota.
        clear - Hsteps Hdomain. revert Hsteps.
        generalize (campaign_results g) as results.
        intros results Hsteps.
        destruct k as [|k].
        + cbn in Hsteps. now injection Hsteps as <- _.
        + cbn [thread_steps thread_step subscript campaign_results campaign_counter]
            in Hsteps. rewrite Hdomain in Hsteps.
          destruct k as [|k].
          * cbn in Hsteps. now injection Hsteps as <- _.
          * cbn [thread_steps thread_step campaign_results campaign_counter] in Hsteps.
            rewrite thread_steps_finished in Hsteps. now injection Hsteps as <- _. }
    unfold success_response. cbn [payload].
    rewrite Hcounter.
    destruct (head_start <? 2);
      [|replace (campaign_counter g + 1 - 1)%Z with (campaign_counter g) by lia];
      reflexivity.
Qed.

End Orchestrator.

Lemma example_request_valid : App.validate (App.Ok Statements.example_request) = None.
Proof. reflexivity. Qed.

(** C6 fails on the code.  The handler reads [campaign_counter] for its
    response right after [campaign_thread.start()].  When it does so before
    the new thread has executed [campaign_counter += 1], the first request
    of a fresh server is answered with [campaign_id] 0, while the one record
    the thread appends has [id] 1. *)
Theorem launch_response_races_with_thread (w : App.world) :
  let '(r, g) := App.serve_launch w App.initial_globals
                   (App.Ok Statements.example_request) 0 in
  App.status_code r = 200
  /\ App.payload r !! "campaign_id"%string = Some (App.JNum 0)
  /\ exists record,
       App.campaign_results g = [record]
       /\ record !! "id"%string = Some (App.JNum 1).
Proof.
  pose proof (launch_valid_request w App.initial_globals Statements.example_request 0
                example_request_valid) as H.
  destruct (App.serve_launch w App.initial_globals (App.Ok Statements.example_request) 0)
    as [r g].
  destruct H as (Hcode & (record & Hrecord & Hid) & Hresp).
  split; [exact Hcode|]. split; [exact Hresp|].
  exists record. split; [exact Hrecord | exact Hid].
Qed.

(** With the thread two steps ahead the same request is answered with the
    identifier of its record. *)
Lemma launch_response_after_increment (w : App.world) :
  let '(r, g) := App.serve_launch w App.initial_globals
                   (App.Ok Statements.example_request) 2 in
  App.payload r !! "campaign_id"%string = Some (App.JNum 1)
  /\ exists record,
       App.campaign_results g = [record]
       /\ record !! "id"%string = Some (App.JNum 1).
Proof.
  pose proof (launch_valid_request w App.initial_globals Statements.example_request 2
                example_request_valid) as H.
  destruct (App.serve_launch w App.initial_globals (App.Ok Statements.example_request) 2)
    as [r g].
  destruct H as (_ & (record & Hrecord & Hid) & Hresp).
  split; [exact Hresp|]. exists record. split; [exact Hrecord | exact Hid].
Qed.

Lemma launch_rejects_invalid_request_witness :
  let data :=
    App.JObj (list_to_map [ ("domain", App.JStr (lit "example.com"));
                            ("email_enabled", App.JBool false) ]%string) in
  let '(r, g', t) :=
    App.launch_campaign Statements.quiet_world App.initial_globals (App.Ok data) 3 in
  App.status_code r
  = (if Statements.is_object data || negb (App.truthy data) then 400 else 500)
  /\ g' = App.initial_globals
  /\ t = None
  /\ App.campaign_results g' = App.campaign_results App.initial_globals
  /\ App.campaign_counter g' = App.campaign_counter App.initial_globals
  /\ App.serve_launch Statements.quiet_world App.initial_globals (App.Ok data) 3
     = (r, App.initial_globals).
Proof.
  intros data.
  apply (launch_rejects_invalid_request Statements.quiet_world App.initial_globals data 3).
  right. split; reflexivity.
Defined.

(** C7, as it is worded, fails: a body that is a list has no 'domain'
    field, and the request is answered with status 500, not 400. *)
Lemma launch_list_body_gets_500 :
  let data := App.JList [App.JNum 1] in
  let '(r, g', t) :=
    App.launch_campaign Statements.quiet_world App.initial_globals (App.Ok data) 0 in
  Statements.field data "domain" = None
  /\ App.status_code r = 500
  /\ App.status_code r <> 400
  /\ App.payload r !! "error"%string
     = Some (App.JStr (lit "'list' object has no attribute 'get'")).
Proof. repeat split. discriminate. Qed.

Lemma campaign_reaches_terminal_status_witness :
  let o : gmap string App.json :=
    list_to_map [ ("domain", App.JStr (lit "example.com"));
                  ("email_enabled", App.JBool true) ]%string in
  let '(g', t) :=
    App.run_thread Statements.quiet_world App.initial_globals (App.AtReadCounter (App.JObj o)) in
  t = App.Finished
  /\ exists record,
       App.campaign_results g' = App.campaign_results App.initial_globals ++ [record]
       /\ (Statements.has_status record "completed" \/ Statements.has_status record "failed")
       /\ ~ Statements.has_status record "running"
       /\ (Statements.nothing_sent record -> Statements.has_status record "failed").
Proof.
  intros o.
  apply (campaign_reaches_terminal_status Statements.quiet_world App.initial_globals o
           (App.JStr (lit "example.com"))).
  reflexivity.
Defined.

(** A campaign that finds no address ends 'failed' with an empty list of
    errors. *)
Lemma campaign_failed_without_error :
  let record :=
    App.campaign_body Statements.quiet_world
      (list_to_map [ ("domain", App.JStr (lit "example.com"));
                     ("email_enabled", App.JBool true);
                     ("linkedin_enabled", App.JBool true) ]%string)
      (App.new_record 1 (App.JStr (lit "example.com"))) in
  Statements.has_status record "failed"
  /\ record !! "errors"%string = Some (App.JList [])
  /\ Statements.nothing_sent record.
Proof. vm_compute. repeat split. Qed.

(* ===================================================================== *)
(** * More on name extraction *)
(* ===================================================================== *)

Section MoreNames.
Import EmailFilter Statements MoreStrings.

Lemma endswith_inv (p s : str) : endswith p s = true -> exists r, s = r ++ p.
Proof.
  unfold endswith. intros H. apply startswith_inv in H as [r Hr].
  exists (rev r). rewrite <- (rev_involutive s), Hr, rev_app_distr.
  now rewrite rev_involutive.
Qed.

Lemma drop_last2_app (r p : str) : length p = 2 -> drop_last2 (r ++ p) = r.
Proof.
  intros Hp. unfold drop_last2. rewrite length_app, Hp.
  replace (length r + 2 - 2) with (length r) by lia.
  now rewrite take_app_length.
Qed.

(** X1.  The pieces [_split_concatenated_name] returns are one or two, and
    put end to end they give the lower-cased name back. *)
Theorem split_concatenated_name_concat (name : str) :
  let parts := _split_concatenated_name name in
  concat parts = lower name /\ 1 <= length parts <= 2.
Proof.
  unfold _split_concatenated_name.
  destruct (endswith (lit "ms") (lower name)) eqn:Hms.
  { apply endswith_inv in Hms as [r Hr]. rewrite Hr.
    rewrite drop_last2_app by reflexivity. cbn [concat length].
    rewrite ?app_nil_r. split; [reflexivity | lia]. }
  destruct (endswith (lit "jr") (lower name)) eqn:Hjr.
  { apply endswith_inv in Hjr as [r Hr]. rewrite Hr.
    rewrite drop_last2_app by reflexivity. cbn [concat length].
    rewrite ?app_nil_r. split; [reflexivity | lia]. }
  destruct (6 <? length (lower name)).
  - cbn [concat length]. rewrite app_nil_r, take_drop. split; [reflexivity | lia].
  - cbn [concat length]. rewrite app_nil_r. split; [reflexivity | lia].
Qed.

(** The name for a local part made of two words around a separator that
    is ['.'] or ['_']. *)
Lemma extract_name_separated (sep : ascii) (first last digits domain : str) :
  sep = "."%char \/ sep = "_"%char ->
  all_alpha first -> all_alpha last ->
  2 <= length first -> 2 <= length last ->
  all_digits digits ->
  _extract_name_from_email (first ++ sep :: last ++ digits ++ lit "@" ++ domain)
  = capitalize first ++ lit " " ++ capitalize last.
Proof.
  intros Hsep Hf Hl Hlf Hll Hd.
  assert (Hsep_facts : is_alpha sep = false /\ sep <> "@"%char).
  { destruct Hsep as [-> | ->]; split; (reflexivity || discriminate). }
  destruct Hsep_facts as [Hsa Hsat].
  assert (Hlne : last <> []) by (intros ->; simpl in Hll; lia).
  assert (Hlocal : hd [] (split "@" (first ++ sep :: last ++ digits ++ lit "@" ++ domain))
                   = first ++ sep :: last ++ digits).
  { replace (first ++ sep :: last ++ digits ++ lit "@" ++ domain)
      with ((first ++ sep :: last ++ digits) ++ "@"%char :: domain)
      by (rewrite <- app_assoc; cbn; now rewrite <- app_assoc).
    rewrite split_app_sep; [reflexivity|].
    rewrite in_app_iff. cbn [In]. rewrite in_app_iff.
    intros [H|[H|[H|H]]].
    - now apply (all_alpha_not_in "@" first).
    - congruence.
    - now apply (all_alpha_not_in "@" last).
    - now apply (all_digits_not_in "@" digits). }
  unfold _extract_name_from_email. rewrite Hlocal.
  replace (first ++ sep :: last ++ digits)
    with ((first ++ [sep]) ++ last ++ digits) by (now rewrite <- app_assoc).
  rewrite sub_trailing_digits_word by assumption.
  rewrite <- app_assoc. cbn [app].
  assert (Hsplit : split sep (first ++ sep :: last) = [first; last]).
  { rewrite split_app_sep by (now apply all_alpha_not_in).
    now rewrite split_no_sep by (now apply all_alpha_not_in). }
  assert (Hparts :
    (if contains_char "." (first ++ sep :: last) then split "." (first ++ sep :: last)
     else if contains_char "_" (first ++ sep :: last) then split "_" (first ++ sep :: last)
          else _split_concatenated_name (first ++ sep :: last))
    = [first; last]).
  { destruct Hsep as [-> | ->].
    - replace (contains_char "." (first ++ "."%char :: last)) with true; [exact Hsplit|].
      symmetry. apply contains_char_In, in_app_iff. right. now left.
    - replace (contains_char "." (first ++ "_"%char :: last)) with false.
      + replace (contains_char "_" (first ++ "_"%char :: last)) with true; [exact Hsplit|].
        symmetry. apply contains_char_In, in_app_iff. right. now left.
      + symmetry. apply contains_char_false. rewrite in_app_iff. cbn [In].
        intros [H|[H|H]].
        * now apply (all_alpha_not_in "." first).
        * discriminate H.
        * now apply (all_alpha_not_in "." last). }
  rewrite Hparts. cbn [List.filter].
  assert (Hkeep : forall word : str, 2 <= length word ->
            negb (Nat.eqb (length word) 0) && (1 <? length word) = true).
  { intros word Hw. apply andb_true_intro. split.
    - apply negb_true_iff, Nat.eqb_neq. lia.
    - apply Nat.ltb_lt. lia. }
  rewrite !Hkeep by assumption.
  cbn [map join].
  destruct first as [|c first]; [simpl in Hlf; lia|]. reflexivity.
Qed.

(** X2.  With two alphabetic words of two letters or more around one
    ['_'], and digits after them or not, [_extract_name_from_email] gives
    the two words capitalized, one space between them. *)
Theorem extract_name_underscore (first last digits domain : str) :
  all_alpha first -> all_alpha last ->
  2 <= length first -> 2 <= length last ->
  all_digits digits ->
  _extract_name_from_email (first ++ lit "_" ++ last ++ digits ++ lit "@" ++ domain)
  = capitalize first ++ lit " " ++ capitalize last.
Proof.
  intros. apply (extract_name_separated "_"); auto.
Qed.

Lemma extract_name_underscore_witness :
  _extract_name_from_email (lit "Jane_DOE7@corp.io") = lit "Jane Doe".
Proof.
  apply (extract_name_underscore (lit "Jane") (lit "DOE") (lit "7") (lit "corp.io")).
  - repeat constructor.
  - repeat constructor.
  - vm_compute. lia.
  - vm_compute. lia.
  - repeat constructor.
Defined.

Lemma drop_digits_nil_iff (r : str) : drop_digits r = [] <-> all_digits r.
Proof.
  induction r as [|c r IH]; cbn.
  - split; [constructor | reflexivity].
  - destruct (is_digit c) eqn:Hc.
    + rewrite IH. split; intros H.
      * now constructor.
      * now inversion H.
    + split; [discriminate|]. intros H. inversion H. congruence.
Qed.

Lemma rev_nil_iff {A} (l : list A) : rev l = [] <-> l = [].
Proof.
  split; [|now intros ->]. intros H.
  apply (f_equal (@rev A)) in H. now rewrite rev_involutive in H.
Qed.

Lemma all_digits_rev (s : str) : all_digits (rev s) <-> all_digits s.
Proof.
  unfold all_digits. rewrite !List.Forall_forall. split; intros H x Hx; apply H.
  - now apply in_rev in Hx.
  - now apply in_rev.
Qed.

(** The removal of the final digits leaves nothing exactly when the text
    is made of digits only. *)
Lemma sub_trailing_digits_nil_iff (s : str) :
  sub_trailing_digits s = [] <-> all_digits s.
Proof.
  rewrite <- all_digits_rev. unfold sub_trailing_digits.
  destruct (rev s) as [|c [|d r]] eqn:E; cbv beta iota.
  - cbn. split; [constructor | reflexivity].
  - etransitivity; [apply rev_nil_iff | apply drop_digits_nil_iff].
  - destruct (Ascii.eqb c newline && is_digit d) eqn:Hnl.
    + split.
      * intros H. apply (proj1 (rev_nil_iff _)) in H. discriminate H.
      * intros H. inversion H as [|? ? Hc _]. subst.
        apply andb_prop in Hnl as [Hc' _]. apply Ascii.eqb_eq in Hc'. subst c.
        discriminate Hc.
    + etransitivity; [apply rev_nil_iff | apply drop_digits_nil_iff].
Qed.

Lemma capitalize_nil_iff (s : str) : capitalize s = [] <-> s = [].
Proof. destruct s; cbn; split; congruence. Qed.

(** X3.  [_extract_name_from_email] returns the empty name exactly when
    the local part of the address is empty or made of digits only. *)
Theorem extract_name_empty_iff (email : str) :
  _extract_name_from_email email = [] <-> all_digits (local_part email).
Proof.
  rewrite <- sub_trailing_digits_nil_iff.
  unfold _extract_name_from_email, local_part.
  match goal with
  | |- context [match ?n with [] => _ | _ :: _ => _ end] => destruct n as [|c name] eqn:Hname
  end.
  - apply capitalize_nil_iff.
  - split; [discriminate|]. intros Hlocal.
    rewrite Hlocal in Hname. discriminate Hname.
Qed.

End MoreNames.

(* ===================================================================== *)
(** * The three name extractors *)
(* ===================================================================== *)

Section Extractors.
Import Statements MoreStrings.

Lemma alpha_case_facts (c : ascii) :
  is_alpha c = true ->
  is_alpha (upper_char c) = true /\ is_alpha (lower_char c) = true
  /\ is_lower (lower_char c) = true
  /\ upper_char (lower_char c) = upper_char c
  /\ is_space c = false
  /\ c <> "-"%char /\ c <> "_"%char.
Proof.
  destruct c as [[] [] [] [] [] [] [] []]; vm_compute; intros H;
    try discriminate H; repeat split; discriminate.
Qed.

Lemma digit_case_facts (c : ascii) :
  is_digit c = true ->
  is_alpha c = false /\ is_lower c = false
  /\ upper_char c = c /\ lower_char c = c
  /\ c <> "-"%char /\ c <> "_"%char /\ c <> "."%char.
Proof.
  destruct c as [[] [] [] [] [] [] [] []]; vm_compute; intros H;
    try discriminate H; repeat split; discriminate.
Qed.

Lemma all_alpha_cons (c : ascii) (w : str) :
  all_alpha (c :: w) <-> is_alpha c = true /\ all_alpha w.
Proof.
  unfold all_alpha. split.
  - intros H. now inversion H.
  - intros [H1 H2]. now constructor.
Qed.

(** After a letter, [title] lower-cases a run of letters. *)
Lemma title_from_alpha (w : str) : all_alpha w -> title_from true w = lower w.
Proof.
  induction 1 as [|c w Hc _ IH]; [reflexivity|].
  cbn [title_from]. rewrite Hc, IH. reflexivity.
Qed.

Lemma title_alpha (w : str) : all_alpha w -> title w = capitalize w.
Proof.
  destruct w as [|c w]; [reflexivity|].
  intros H. apply all_alpha_cons in H as [Hc Hw].
  unfold title. cbn [title_from capitalize]. rewrite Hc. f_equal.
  now apply title_from_alpha.
Qed.

Lemma replace_char_absent (a b : ascii) (s : str) :
  ~ In a s -> replace_char a b s = s.
Proof.
  intros H. unfold replace_char. rewrite <- (map_id s) at 2.
  apply map_ext_in. intros c Hc.
  destruct (Ascii.eqb c a) eqn:E; [|reflexivity].
  apply Ascii.eqb_eq in E. subst. contradiction.
Qed.

Lemma name_part_alpha (w : str) :
  all_alpha w -> EmailServiceMore.name_part w = capitalize w.
Proof.
  intros H. unfold EmailServiceMore.name_part.
  rewrite (replace_char_absent "-" " " w) by (now apply all_alpha_not_in).
  rewrite (replace_char_absent "_" " " w) by (now apply all_alpha_not_in).
  now apply title_alpha.
Qed.

Lemma all_alpha_capitalize (w : str) : all_alpha w -> all_alpha (capitalize w).
Proof.
  destruct w as [|c w]; [intros; constructor|].
  intros H. apply all_alpha_cons in H as [Hc Hw]. cbn [capitalize].
  apply all_alpha_cons. split; [now apply alpha_case_facts|].
  unfold all_alpha, lower in *. rewrite List.Forall_forall in *.
  intros x Hx. apply in_map_iff in Hx as [y [<- Hy]].
  now apply alpha_case_facts, Hw.
Qed.

Lemma all_alpha_lower (w : str) :
  all_alpha w -> forallb is_lower (lower w) = true.
Proof.
  induction 1 as [|c w Hc _ IH]; [reflexivity|].
  change (lower (c :: w)) with (lower_char c :: lower w). cbn [forallb].
  rewrite IH, andb_true_r. now apply alpha_case_facts.
Qed.

Lemma lstrip_fixed (c : ascii) (s : str) :
  is_space c = false -> lstrip (c :: s) = c :: s.
Proof. intros H. cbn. now rewrite H. Qed.

(** A text that begins and ends with characters other than white space is
    left as it is by [strip]. *)
Lemma strip_fixed (c : ascii) (middle : str) (d : ascii) :
  is_space c = false -> is_space d = false ->
  strip (c :: middle ++ [d]) = c :: middle ++ [d].
Proof.
  intros Hc Hd. unfold strip, rstrip.
  rewrite (lstrip_fixed c _ Hc).
  assert (Hrev : rev (c :: middle ++ [d]) = d :: rev (c :: middle)).
  { change (c :: middle ++ [d]) with ((c :: middle) ++ [d]).
    now rewrite rev_app_distr. }
  rewrite Hrev, (lstrip_fixed d _ Hd), <- Hrev.
  apply rev_involutive.
Qed.

Lemma strip_two_words (a b : str) :
  all_alpha a -> all_alpha b -> a <> [] -> b <> [] ->
  strip (a ++ lit " " ++ b) = a ++ lit " " ++ b.
Proof.
  intros Ha Hb Hane Hbne.
  destruct a as [|c a]; [congruence|].
  destruct (exists_last Hbne) as (b' & d & ->).
  apply all_alpha_cons in Ha as [Hc _].
  assert (Hd : is_alpha d = true).
  { unfold all_alpha in Hb. rewrite List.Forall_forall in Hb.
    apply Hb, in_app_iff. right. now left. }
  replace ((c :: a) ++ lit " " ++ b' ++ [d])
    with (c :: (a ++ lit " " ++ b') ++ [d])
    by (cbn; now rewrite <- !app_assoc).
  apply strip_fixed; now apply alpha_case_facts.
Qed.

Lemma local_of_two_words (sep : ascii) (first rest domain : str) :
  ~ In "@"%char (first ++ sep :: rest) ->
  hd [] (split "@" (first ++ sep :: rest ++ lit "@" ++ domain)) = first ++ sep :: rest.
Proof.
  intros H.
  replace (first ++ sep :: rest ++ lit "@" ++ domain)
    with ((first ++ sep :: rest) ++ "@"%char :: domain)
    by (now rewrite <- app_assoc).
  now rewrite split_app_sep.
Qed.

Lemma capitalize_lower (w : str) : all_alpha w -> capitalize (lower w) = capitalize w.
Proof.
  destruct w as [|c w]; [reflexivity|].
  intros H. apply all_alpha_cons in H as [Hc _].
  cbn [lower map capitalize]. fold (lower w). rewrite lower_idempotent.
  f_equal. now apply alpha_case_facts.
Qed.

Lemma all_alpha_lower_alpha (w : str) : all_alpha w -> all_alpha (lower w).
Proof.
  unfold all_alpha, lower. rewrite !List.Forall_forall.
  intros H x Hx. apply in_map_iff in Hx as [y [<- Hy]].
  now apply alpha_case_facts, H.
Qed.

Lemma without_final_newline_alpha (s : str) (c : ascii) :
  is_alpha c = true ->
  LinkedInService.without_final_newline (s ++ [c]) = s ++ [c].
Proof.
  intros Hc. unfold LinkedInService.without_final_newline.
  rewrite rev_app_distr. cbn [rev app].
  destruct (Ascii.eqb c newline) eqn:E; [|reflexivity].
  apply Ascii.eqb_eq in E. subst. discriminate Hc.
Qed.

(** X4.  On an address whose local part is two alphabetic words of two
    letters or more around one ['.'], the three extractors of the
    repository give the same name: the two words capitalized, one space
    between them. *)
Theorem name_extractors_agree (first last domain : str) :
  all_alpha first -> all_alpha last ->
  2 <= length first -> 2 <= length last ->
  let email := first ++ lit "." ++ last ++ lit "@" ++ domain in
  let name := capitalize first ++ lit " " ++ capitalize last in
  EmailFilter._extract_name_from_email email = name
  /\ EmailServiceMore.get_name_from_email email = name
  /\ LinkedInService.extract_name_from_email email = Some name.
Proof.
  intros Hf Hl Hlf Hll email name. subst email name.
  assert (Hfne : first <> []) by (intros ->; cbn in Hlf; lia).
  assert (Hlne : last <> []) by (intros ->; cbn in Hll; lia).
  assert (Hat : ~ In "@"%char (first ++ "."%char :: last)).
  { rewrite in_app_iff. cbn [In]. intros [H|[H|H]].
    - now apply (all_alpha_not_in "@" first).
    - discriminate H.
    - now apply (all_alpha_not_in "@" last). }
  assert (Hlocal : hd [] (split "@" (first ++ lit "." ++ last ++ lit "@" ++ domain))
                   = first ++ "."%char :: last).
  { apply (local_of_two_words "." first last domain Hat). }
  assert (Hsplit : split "." (first ++ "."%char :: last) = [first; last]).
  { rewrite split_app_sep by (now apply all_alpha_not_in).
    now rewrite split_no_sep by (now apply all_alpha_not_in). }
  assert (Hdot : contains_char "." (first ++ "."%char :: last) = true).
  { apply contains_char_In, in_app_iff. right. now left. }
  split; [|split].
  - pose proof (extract_name_separated "." first last [] domain
                  (or_introl eq_refl) Hf Hl Hlf Hll) as H.
    cbn [app] in H. apply H. constructor.
  - unfold EmailServiceMore.get_name_from_email.
    rewrite Hlocal, Hdot, Hsplit. cbn [nth length Nat.ltb Nat.leb].
    rewrite !name_part_alpha by assumption.
    apply strip_two_words; try (now apply all_alpha_capitalize).
    + intros H. apply (proj1 (capitalize_nil_iff _)) in H. contradiction.
    + intros H. apply (proj1 (capitalize_nil_iff _)) in H. contradiction.
  - unfold LinkedInService.extract_name_from_email. rewrite Hlocal.
    assert (Hlower : lower (first ++ "."%char :: last)
                     = lower first ++ "."%char :: lower last).
    { now rewrite lower_app. }
    rewrite Hlower.
    assert (Hmatch : LinkedInService.match_words "." 2 false
                       (lower first ++ "."%char :: lower last)
                     = Some [lower first; lower last]).
    { unfold LinkedInService.match_words.
      destruct (exists_last Hlne) as (l' & d & Hl').
      assert (Hd : is_alpha (lower_char d) = true).
      { apply alpha_case_facts. unfold all_alpha in Hl.
        rewrite List.Forall_forall in Hl. apply Hl. rewrite Hl'.
        apply in_app_iff. right. now left. }
      assert (Hnl : LinkedInService.without_final_newline
                      (lower first ++ "."%char :: lower last)
                    = lower first ++ "."%char :: lower last).
      { rewrite Hl', lower_app.
        change (lower [d]) with [lower_char d].
        assert (Heq : lower first ++ "."%char :: lower l' ++ [lower_char d]
                      = (lower first ++ "."%char :: lower l') ++ [lower_char d])
          by (now rewrite <- app_assoc).
        rewrite Heq. now apply without_final_newline_alpha. }
      rewrite Hnl.
      rewrite split_app_sep
        by (apply all_alpha_not_in; [now apply all_alpha_lower_alpha | reflexivity]).
      rewrite split_no_sep
        by (apply all_alpha_not_in; [now apply all_alpha_lower_alpha | reflexivity]).
      cbn [length Nat.eqb forallb andb negb orb].
      unfold LinkedInService.is_word.
      rewrite !all_alpha_lower by assumption.
      unfold lower. rewrite !length_map.
      destruct first; [congruence|]. destruct last; [congruence|]. reflexivity. }
    cbn [LinkedInService.patterns LinkedInService.try_patterns].
    rewrite Hmatch. cbn [hd List.last].
    unfold lower at 1 2. rewrite !length_map.
    replace (2 <=? length first) with true by (symmetry; now apply Nat.leb_le).
    replace (2 <=? length last) with true by (symmetry; now apply Nat.leb_le).
    cbn [andb].
    rewrite !title_alpha by (now apply all_alpha_lower_alpha).
    now rewrite !capitalize_lower.
Qed.

Lemma name_extractors_agree_witness :
  EmailFilter._extract_name_from_email (lit "Ada.LOVELACE@math.org") = lit "Ada Lovelace"
  /\ EmailServiceMore.get_name_from_email (lit "Ada.LOVELACE@math.org") = lit "Ada Lovelace"
  /\ LinkedInService.extract_name_from_email (lit "Ada.LOVELACE@math.org")
     = Some (lit "Ada Lovelace").
Proof.
  apply (name_extractors_agree (lit "Ada") (lit "LOVELACE") (lit "math.org")).
  - repeat constructor.
  - repeat constructor.
  - vm_compute. lia.
  - vm_compute. lia.
Defined.

Lemma digit_not_space (c : ascii) : is_digit c = true -> is_space c = false.
Proof.
  destruct c as [[] [] [] [] [] [] [] []]; vm_compute; intros H;
    try discriminate H; reflexivity.
Qed.

Lemma title_from_digits (b : bool) (digits : str) :
  all_digits digits -> title_from b digits = digits.
Proof.
  intros H. revert b. induction H as [|c digits Hc _ IH]; intros b; [reflexivity|].
  cbn [title_from]. destruct (digit_case_facts c Hc) as (Ha & _ & Hu & Hl & _).
  rewrite Ha, IH. now destruct b; rewrite ?Hu, ?Hl.
Qed.

Lemma title_from_alpha_app (w rest : str) :
  all_alpha w -> title_from true (w ++ rest) = lower w ++ title_from true rest.
Proof.
  induction 1 as [|c w Hc _ IH]; [reflexivity|].
  cbn [app title_from]. rewrite Hc, IH. reflexivity.
Qed.

Lemma title_word_digits (w digits : str) :
  all_alpha w -> w <> [] -> all_digits digits ->
  title (w ++ digits) = capitalize w ++ digits.
Proof.
  intros Hw Hne Hd. destruct w as [|c w]; [congruence|].
  apply all_alpha_cons in Hw as [Hc Hw].
  unfold title. cbn [app title_from capitalize]. rewrite Hc.
  now rewrite title_from_alpha_app, title_from_digits.
Qed.

Lemma lower_digits (digits : str) : all_digits digits -> lower digits = digits.
Proof.
  intros H. apply lower_fixed. intros x Hx.
  unfold all_digits in H. rewrite List.Forall_forall in H.
  now apply digit_case_facts, H.
Qed.

Lemma match_words_count (sep : ascii) (groups : nat) (single_middle : bool) (s : str) :
  length (split sep (LinkedInService.without_final_newline s)) <> groups ->
  LinkedInService.match_words sep groups single_middle s = None.
Proof.
  intros H. unfold LinkedInService.match_words.
  apply Nat.eqb_neq in H. now rewrite H.
Qed.

(** X5.  With digits after the second word the three extractors part:
    the filter drops the digits, the mail service keeps them in the name,
    and the LinkedIn service finds no name at all. *)
Theorem name_extractors_differ_on_digits (first last digits domain : str) :
  all_alpha first -> all_alpha last ->
  2 <= length first -> 2 <= length last ->
  all_digits digits -> digits <> [] ->
  let email := first ++ lit "." ++ last ++ digits ++ lit "@" ++ domain in
  EmailFilter._extract_name_from_email email
  = capitalize first ++ lit " " ++ capitalize last
  /\ EmailServiceMore.get_name_from_email email
     = capitalize first ++ lit " " ++ capitalize last ++ digits
  /\ LinkedInService.extract_name_from_email email = None.
Proof.
  intros Hf Hl Hlf Hll Hd Hdne email. subst email.
  assert (Hfne : first <> []) by (intros ->; cbn in Hlf; lia).
  assert (Hlne : last <> []) by (intros ->; cbn in Hll; lia).
  assert (Hnot : forall x : ascii, is_alpha x = false -> is_digit x = false ->
                   x <> "."%char -> ~ In x (first ++ "."%char :: last ++ digits)).
  { intros x Hxa Hxd Hx. rewrite in_app_iff. cbn [In]. rewrite in_app_iff.
    intros [H|[H|[H|H]]].
    - now apply (all_alpha_not_in x first).
    - congruence.
    - now apply (all_alpha_not_in x last).
    - now apply (all_digits_not_in x digits). }
  assert (Hlocal : hd [] (split "@" (first ++ lit "." ++ last ++ digits ++ lit "@" ++ domain))
                   = first ++ "."%char :: last ++ digits).
  { pose proof (local_of_two_words "." first (last ++ digits) domain) as H.
    rewrite <- app_assoc in H. apply H. apply Hnot; (reflexivity || discriminate). }
  assert (Hsplit : forall a b : str,
            ~ In "."%char a -> ~ In "."%char b -> split "." (a ++ "."%char :: b) = [a; b]).
  { intros a b Ha Hb. rewrite split_app_sep by assumption. now rewrite split_no_sep. }
  assert (Hdot_l : ~ In "."%char (last ++ digits)).
  { rewrite in_app_iff. intros [H|H].
    - now apply (all_alpha_not_in "." last).
    - now apply (all_digits_not_in "." digits). }
  split; [|split].
  - apply (extract_name_separated "." first last digits domain); auto.
  - unfold EmailServiceMore.get_name_from_email. rewrite Hlocal.
    replace (contains_char "." (first ++ "."%char :: last ++ digits)) with true
      by (symmetry; apply contains_char_In, in_app_iff; right; now left).
    rewrite Hsplit by (assumption || now apply all_alpha_not_in).
    cbn [nth length Nat.ltb Nat.leb].
    rewrite name_part_alpha by assumption.
    unfold EmailServiceMore.name_part.
    assert (Hno : forall x : ascii, is_alpha x = false -> is_digit x = false ->
                    ~ In x (last ++ digits)).
    { intros x Hxa Hxd. rewrite in_app_iff. intros [H|H].
      - now apply (all_alpha_not_in x last).
      - now apply (all_digits_not_in x digits). }
    rewrite (replace_char_absent "-" " " (last ++ digits)) by (now apply Hno).
    rewrite (replace_char_absent "_" " " (last ++ digits)) by (now apply Hno).
    rewrite title_word_digits by assumption.
    destruct first as [|c first]; [congruence|].
    destruct (exists_last Hdne) as (digits' & d & ->).
    apply all_alpha_cons in Hf as [Hc _].
    assert (Hdd : is_digit d = true).
    { unfold all_digits in Hd. rewrite List.Forall_forall in Hd.
      apply Hd, in_app_iff. right. now left. }
    replace (capitalize (c :: first) ++ lit " " ++ capitalize last ++ digits' ++ [d])
      with (upper_char c :: (lower first ++ lit " " ++ capitalize last ++ digits') ++ [d])
      by (change (capitalize (c :: first)) with (upper_char c :: lower first);
          rewrite <- !app_assoc; reflexivity).
    apply strip_fixed; [|now apply digit_not_space].
    apply (alpha_case_facts (upper_char c)). now apply alpha_case_facts.
  - unfold LinkedInService.extract_name_from_email. rewrite Hlocal.
    assert (Hlower : lower (first ++ "."%char :: last ++ digits)
                     = lower first ++ "."%char :: lower last ++ digits).
    { rewrite lower_app. change (lower ("."%char :: last ++ digits))
        with ("."%char :: lower (last ++ digits)).
      now rewrite lower_app, (lower_digits digits Hd). }
    rewrite Hlower.
    set (subject := lower first ++ "."%char :: lower last ++ digits).
    assert (Hin : forall x : ascii, In x subject ->
                    is_alpha x = true \/ is_digit x = true \/ x = "."%char).
    { intros x. unfold subject. rewrite in_app_iff. cbn [In]. rewrite in_app_iff.
      unfold all_alpha, all_digits in *. rewrite List.Forall_forall in *.
      intros [H|[H|[H|H]]].
      - left. apply in_map_iff in H as [y [<- Hy]]. now apply alpha_case_facts, Hf.
      - right. right. now symmetry.
      - left. apply in_map_iff in H as [y [<- Hy]]. now apply alpha_case_facts, Hl.
      - right. left. now apply Hd. }
    assert (Hnl : LinkedInService.without_final_newline subject = subject).
    { destruct (exists_last Hdne) as (digits' & d & Hdigits).
      assert (Hdd : is_digit d = true).
      { unfold all_digits in Hd. rewrite List.Forall_forall in Hd.
        apply Hd. rewrite Hdigits. apply in_app_iff. right. now left. }
      unfold subject. rewrite Hdigits.
      assert (Heq : lower first ++ "."%char :: lower last ++ digits' ++ [d]
                    = (lower first ++ "."%char :: lower last ++ digits') ++ [d]).
      { rewrite <- app_assoc. cbn [app]. now rewrite <- app_assoc. }
      rewrite Heq. unfold LinkedInService.without_final_newline.
      rewrite rev_app_distr. cbn [rev app].
      destruct (Ascii.eqb d newline) eqn:E; [|reflexivity].
      apply Ascii.eqb_eq in E. subst. discriminate Hdd. }
    assert (Hpieces : split "." subject = [lower first; lower last ++ digits]).
    { unfold subject. apply Hsplit.
      - apply all_alpha_not_in; [now apply all_alpha_lower_alpha | reflexivity].
      - rewrite in_app_iff. intros [H|H].
        + revert H. apply all_alpha_not_in; [now apply all_alpha_lower_alpha | reflexivity].
        + now apply (all_digits_not_in "." digits). }
    assert (Hone : forall sep : ascii, is_alpha sep = false -> is_digit sep = false ->
                     sep <> "."%char -> split sep subject = [subject]).
    { intros sep Ha Hdg Hs. apply split_no_sep. intros H.
      destruct (Hin sep H) as [H1|[H1|H1]]; congruence. }
    assert (H1 : LinkedInService.match_words "." 2 false subject = None).
    { unfold LinkedInService.match_words. rewrite Hnl, Hpieces.
      cbn [length Nat.eqb forallb andb].
      replace (LinkedInService.is_word (lower last ++ digits)) with false;
        [now rewrite andb_false_r|].
      symmetry. unfold LinkedInService.is_word.
      apply andb_false_iff. right. apply not_true_is_false. intros Hall.
      rewrite forallb_forall in Hall.
      destruct digits as [|d digits]; [congruence|].
      assert (Hdd : is_digit d = true) by (now inversion Hd).
      specialize (Hall d). rewrite (proj1 (proj2 (digit_case_facts d Hdd))) in Hall.
      discriminate Hall. apply in_app_iff. right. now left. }
    assert (H2 : forall m, LinkedInService.match_words "." 3 m subject = None).
    { intros m. apply match_words_count. now rewrite Hnl, Hpieces. }
    assert (H4 : LinkedInService.match_words "_" 2 false subject = None).
    { apply match_words_count. rewrite Hnl, Hone; (reflexivity || discriminate). }
    assert (H5 : LinkedInService.match_words "-" 2 false subject = None).
    { apply match_words_count. rewrite Hnl, Hone; (reflexivity || discriminate). }
    cbn [LinkedInService.patterns LinkedInService.try_patterns].
    rewrite H1, !H2, H4, H5.
    replace (isalpha (first ++ "."%char :: last ++ digits)) with false;
      [now rewrite andb_false_r|].
    symmetry. unfold isalpha. apply andb_false_iff. right.
    apply not_true_is_false. intros Hall. rewrite forallb_forall in Hall.
    specialize (Hall "."%char). discriminate Hall.
    apply in_app_iff. right. now left.
Qed.

Lemma name_extractors_differ_on_digits_witness :
  EmailFilter._extract_name_from_email (lit "john.smith42@x.com") = lit "John Smith"
  /\ EmailServiceMore.get_name_from_email (lit "john.smith42@x.com") = lit "John Smith42"
  /\ LinkedInService.extract_name_from_email (lit "john.smith42@x.com") = None.
Proof.
  apply (name_extractors_differ_on_digits (lit "john") (lit "smith") (lit "42") (lit "x.com")).
  - repeat constructor.
  - repeat constructor.
  - vm_compute. lia.
  - vm_compute. lia.
  - repeat constructor.
  - discriminate.
Defined.

End Extractors.

(* ===================================================================== *)
(** * The model-based classifier *)
(* ===================================================================== *)

Section ModelFilter.
Import EmailFilter EmailFilterMore App MoreStrings MoreStatements.

Variable json_loads : str -> result json.

Lemma find_from_absent (c : ascii) (s : str) (i : nat) :
  ~ In c s -> find_from c s i = (-1)%Z.
Proof.
  revert i. induction s as [|x s IH]; intros i H; [reflexivity|].
  cbn [find_from]. destruct (Ascii.eqb x c) eqn:E.
  - apply Ascii.eqb_eq in E. subst. exfalso. apply H. now left.
  - apply IH. intros Hin. apply H. now right.
Qed.

Lemma parse_response_fails (response_text : str) :
  contains_char "{" response_text = false
  \/ (exists msg,
        json_loads (slice (find "{" response_text) (rfind "}" response_text + 1)
                      response_text)
        = Raise msg) ->
  exists msg, parse_response json_loads response_text = Raise msg.
Proof.
  unfold parse_response. intros [Hnone|[msg Hmsg]].
  - apply contains_char_false in Hnone.
    unfold find. rewrite (find_from_absent _ _ 0 Hnone). cbn. eauto.
  - destruct (negb (find "{" response_text =? -1)%Z
              && negb (rfind "}" response_text + 1 =? -1)%Z); [|eauto].
    rewrite Hmsg. eauto.
Qed.

(** X6.  With a model and a list that is not empty, [filter_emails]
    returns the result of the rule-based [_fallback_filter] whenever the
    model gives nothing usable: the call raises, the response has no text,
    the text has no ['{'], or [json.loads] rejects the part cut out of
    it. *)
Theorem filter_emails_falls_back
    (generate_content : AIService.model) (emails : list str) (company_domain : str) :
  emails <> [] ->
  no_usable_answer json_loads (generate_content (prompt emails company_domain)) ->
  filter_emails json_loads (Some generate_content) emails company_domain
  = json_of_filter_result (_fallback_filter emails company_domain).
Proof.
  intros Hne Hbad. unfold filter_emails.
  destruct emails as [|e emails]; [congruence|].
  destruct (generate_content (prompt (e :: emails) company_domain)) as [| |text];
    try reflexivity.
  cbn [no_usable_answer] in Hbad.
  destruct (parse_response_fails (strip text) Hbad) as [msg ->]. reflexivity.
Qed.

Lemma fields_spec (key : string) (people values : list json) :
  fields key people = Ok values ->
  Forall2 (fun person v => subscript person key = Ok v) people values.
Proof.
  revert values. induction people as [|person people IH]; intros values H.
  - cbn in H. injection H as <-. constructor.
  - cbn [fields] in H.
    destruct (subscript person key) as [v|msg] eqn:Hv; [|discriminate].
    destruct (fields key people) as [vs|msg] eqn:Hvs; [|discriminate].
    injection H as <-. constructor; [assumption | now apply IH].
Qed.

Lemma subscript_inv (person : json) (key : string) (v : json) :
  subscript person key = Ok v -> exists d, person = JObj d /\ d !! key = Some v.
Proof.
  destruct person; cbn; try discriminate.
  destruct (o !! key) eqn:E; [|discriminate].
  intros H. injection H as <-. eauto.
Qed.

(** X7.  An answer of the model that [filter_emails] accepts in the
    format with names is well formed: every entry of [real_people] is a
    dictionary with an 'email' and a 'name', and [emails_only] and
    [names_only] list these values in the same order. *)
Theorem accepted_answer_is_well_formed
    (o : gmap string json) (first : gmap string json) (others : list json) (answer : json) :
  o !! "real_people"%string = Some (JList (JObj first :: others)) ->
  read_result (JObj o) = Ok answer ->
  exists a emails_list names_list,
    answer = JObj a
    /\ a !! "real_people"%string = Some (JList (JObj first :: others))
    /\ a !! "emails_only"%string = Some (JList emails_list)
    /\ a !! "names_only"%string = Some (JList names_list)
    /\ length emails_list = S (length others)
    /\ length names_list = S (length others)
    /\ forall i person,
         (JObj first :: others) !! i = Some person ->
         exists email name,
           emails_list !! i = Some email /\ names_list !! i = Some name
           /\ person_with email name person.
Proof.
  intros Hpeople Hread. unfold read_result in Hread.
  cbn [get] in Hread. rewrite Hpeople in Hread.
  cbn [default truthy length Nat.eqb negb] in Hread. cbv [id] in Hread.
  cbn [truthy length Nat.eqb negb] in Hread.
  destruct (fields "email" (JObj first :: others)) as [emails_list|msg] eqn:He;
    [|discriminate].
  destruct (fields "name" (JObj first :: others)) as [names_list|msg] eqn:Hn;
    [|discriminate].
  destruct (negb (forallb is_str (take 3 names_list))); [discriminate|].
  destruct (negb (has_len _)); [discriminate|].
  injection Hread as <-.
  apply fields_spec in He, Hn.
  pose proof (Forall2_length _ _ _ He) as Hle.
  pose proof (Forall2_length _ _ _ Hn) as Hln.
  eexists _, emails_list, names_list. split; [reflexivity|].
  repeat split; try reflexivity; try (cbn [length] in *; lia).
  intros i person Hi.
  destruct (Forall2_lookup_l _ _ _ _ _ He Hi) as (email & Hemail & Hse).
  destruct (Forall2_lookup_l _ _ _ _ _ Hn Hi) as (name & Hname & Hsn).
  exists email, name. repeat split; try assumption.
  apply subscript_inv in Hse as (d & -> & Hd).
  apply subscript_inv in Hsn as (d' & Heq & Hd').
  injection Heq as <-. now exists d.
Qed.

End ModelFilter.

Lemma filter_emails_falls_back_witness :
  let model : AIService.model := fun _ => AIService.GenText (lit "Sorry, I cannot help.") in
  EmailFilterMore.filter_emails (fun _ => App.Raise (lit "JSONDecodeError"))
    (Some model) [lit "info@acme.com"; lit "jane.doe@acme.com"] (lit "acme.com")
  = EmailFilterMore.json_of_filter_result
      (EmailFilter._fallback_filter [lit "info@acme.com"; lit "jane.doe@acme.com"]
         (lit "acme.com")).
Proof.
  intros model.
  apply (filter_emails_falls_back (fun _ => App.Raise (lit "JSONDecodeError")) model).
  - discriminate.
  - left. reflexivity.
Defined.

Lemma accepted_answer_is_well_formed_witness :
  let jane : gmap string App.json :=
    list_to_map [ ("email", App.JStr (lit "jane.doe@acme.com"));
                  ("name", App.JStr (lit "Jane Doe")) ]%string in
  let o : gmap string App.json :=
    list_to_map [ ("real_people", App.JList [App.JObj jane]);
                  ("support_emails", App.JList [App.JStr (lit "info@acme.com")]) ]%string in
  exists a emails_list names_list,
    EmailFilterMore.read_result (App.JObj o) = App.Ok (App.JObj a)
    /\ a !! "emails_only"%string = Some (App.JList emails_list)
    /\ a !! "names_only"%string = Some (App.JList names_list)
    /\ length emails_list = 1 /\ length names_list = 1.
Proof.
  intros jane o.
  destruct (EmailFilterMore.read_result (App.JObj o)) as [answer|msg] eqn:Hread;
    [|vm_compute in Hread; discriminate Hread].
  destruct (accepted_answer_is_well_formed o jane [] answer eq_refl Hread)
    as (a & es & ns & -> & _ & He & Hn & Hle & Hln & _).
  exists a, es, ns. repeat split; assumption.
Defined.

(* ===================================================================== *)
(** * More on the campaign body *)
(* ===================================================================== *)

Section CampaignBody.
Import App Statements CampaignStatements.

Variable w : world.

Lemma tally_new_record (campaign_id : Z) (domain : json) :
  tally (new_record campaign_id domain) 0 0 None.
Proof. repeat split. Qed.

Lemma tally_append_error (msg : str) (record : gmap string json) sent found connections :
  tally record sent found connections ->
  tally (append_error msg record) sent found connections.
Proof.
  intros (H1 & H2 & H3). unfold tally.
  rewrite !append_error_lookup by done. auto.
Qed.

Lemma tally_fail_with (msg : str) (record : gmap string json) sent found connections :
  tally record sent found connections ->
  tally (fail_with msg record) sent found connections.
Proof.
  intros (H1 & H2 & H3). unfold tally.
  rewrite !fail_with_lookup by done. auto.
Qed.

Lemma not_completed_when_failed (record : gmap string json) :
  has_status record "failed" -> ~ has_status record "completed".
Proof.
  unfold has_status. intros Hf Hc. rewrite Hf in Hc. discriminate Hc.
Qed.

(** The loop sends at most one message per target, and none when the
    generator of messages is missing. *)
Lemma send_loop_bound resume_content job_description company_name personalized_email
    (targets : list json) :
  send_loop w resume_content job_description company_name personalized_email targets
  <= length targets
  /\ (email_generator_missing w ->
      send_loop w resume_content job_description company_name personalized_email targets = 0).
Proof.
  unfold send_loop.
  set (step := fun (emails_sent : nat) (email : json) => _).
  assert (Hgen : forall (l : list json) (n : nat),
            fold_left step l n <= n + length l
            /\ (email_generator_missing w -> fold_left step l n = n)).
  { induction l as [|email l IH]; intros n.
    - cbn. split; [lia | reflexivity].
    - cbn [fold_left length]. destruct (IH (step n email)) as [Hle Hzero].
      assert (Hstep : step n email <= n + 1
                      /\ (email_generator_missing w -> step n email = n)).
      { unfold step. split.
        - repeat match goal with
                 | |- context [match ?x with _ => _ end] => destruct x
                 end; lia.
        - intros Hmissing.
          destruct (Hmissing resume_content job_description company_name email) as [msg ->].
          reflexivity. }
      split; [lia|]. intros Hmissing.
      rewrite (Hzero Hmissing). now apply Hstep. }
  destruct (Hgen targets 0) as [Hle Hzero]. split; [lia | exact Hzero].
Qed.

Lemma slice_to_length (l targets : list json) (n : json) :
  slice_to l n = Ok targets ->
  length targets <= length l
  /\ (forall k, n = JNum k -> (0 <= k)%Z -> (Z.of_nat (length targets) <= k)%Z).
Proof.
  unfold slice_to, slice_to_int. intros H.
  destruct n; try discriminate H; injection H as <-.
  - split; [reflexivity | discriminate].
  - split; [destruct b; cbn; rewrite length_take; lia | discriminate].
  - split.
    + destruct (0 <=? n)%Z; rewrite length_take; lia.
    + intros k Hk Hpos. injection Hk as ->.
      replace (0 <=? k)%Z with true by (symmetry; now apply Z.leb_le).
      rewrite length_take. lia.
Qed.

(** The e-mail block, on a record that counts nothing yet. *)
Lemma email_outreach_tally clean_domain target_email_count resume_content job_description
    company_name personalized_email (record : gmap string json) connections :
  tally record 0 0 connections ->
  exists sent found,
    tally (fst (email_outreach w clean_domain target_email_count resume_content
                  job_description company_name personalized_email record))
      sent found connections
    /\ (0 <= sent <= found)%Z
    /\ (email_generator_missing w -> sent = 0%Z)
    /\ (forall k, target_email_count = JNum k -> (0 <= k)%Z -> (sent <= k)%Z).
Proof.
  intros (H1 & H2 & H3). unfold email_outreach.
  destruct (find_emails w clean_domain) as [emails|msg].
  - destruct emails as [|e emails].
    + exists 0%Z, 0%Z. cbn [fst length]. unfold tally.
      rewrite lookup_insert_eq, !lookup_insert_ne by done.
      repeat split; try assumption; try lia.
    + destruct (slice_to (e :: emails) target_email_count) as [targets|msg] eqn:Hslice.
      * destruct (slice_to_length _ _ _ Hslice) as [Hlen Hcap].
        destruct (send_loop_bound resume_content job_description company_name
                    personalized_email targets) as [Hle Hzero].
        eexists _, _. cbn [fst]. unfold tally.
        rewrite lookup_insert_eq, !lookup_insert_ne by done.
        rewrite lookup_insert_eq, !lookup_insert_ne by done.
        split; [repeat split; assumption|].
        split; [lia|]. split.
        -- intros Hmissing. rewrite (Hzero Hmissing). reflexivity.
        -- intros k Hk Hpos. specialize (Hcap k Hk Hpos). lia.
      * exists 0%Z, (Z.of_nat (length (e :: emails))). cbn [fst].
        split.
        -- apply tally_append_error. unfold tally.
           rewrite lookup_insert_eq, !lookup_insert_ne by done.
           repeat split; assumption.
        -- repeat split; lia.
  - exists 0%Z, 0%Z. cbn [fst].
    split; [apply tally_append_error; repeat split; assumption|].
    repeat split; lia.
Qed.

Lemma email_outreach_emails clean_domain target_email_count resume_content job_description
    company_name personalized_email (record : gmap string json) :
  forall emails,
    snd (email_outreach w clean_domain target_email_count resume_content
           job_description company_name personalized_email record) = Some emails ->
    find_emails w clean_domain = Ok emails.
Proof.
  intros emails. unfold email_outreach.
  destruct (find_emails w clean_domain) as [found|msg]; [|discriminate].
  destruct found as [|e found].
  - cbn. congruence.
  - destruct (slice_to _ _); cbn; congruence.
Qed.

(** The LinkedIn block does not touch the e-mail counters, and without
    the list of addresses it sets no counter of its own. *)
Lemma linkedin_outreach_tally emails company_name (record : gmap string json) sent found :
  tally record sent found None ->
  exists connections,
    tally (linkedin_outreach w emails company_name record) sent found connections
    /\ (forall b, connections = Some b -> (0 <= b)%Z)
    /\ (emails = None -> connections = None)
    /\ (emails = None ->
        linkedin_outreach w emails company_name record !! "linkedin_people_found"%string
        = record !! "linkedin_people_found"%string).
Proof.
  intros (H1 & H2 & H3). unfold linkedin_outreach.
  destruct emails as [emails|].
  - assert (Hfin : forall (r : gmap string json) (c : option Z),
              tally r sent found c -> (forall b, c = Some b -> (0 <= b)%Z) ->
              exists connections,
                tally r sent found connections
                /\ (forall b, connections = Some b -> (0 <= b)%Z)
                /\ (Some emails = None -> connections = None)
                /\ (Some emails = None ->
                    r !! "linkedin_people_found"%string
                    = record !! "linkedin_people_found"%string)).
    { intros r c Hr Hc. exists c. split; [exact Hr|]. split; [exact Hc|].
      split; intros Hnone; discriminate Hnone. }
    destruct (take 10 emails) as [|t ts].
    + apply (Hfin record None); [repeat split; assumption | discriminate].
    + destruct (search_people_by_emails w (t :: ts) company_name) as [results|msg].
      * destruct (count_connected results) as [n|msg].
        -- apply (Hfin _ (Some (Z.of_nat n))); [|intros b Hb; injection Hb as <-; lia].
           unfold tally. rewrite lookup_insert_eq, !lookup_insert_ne by done.
           repeat split; assumption.
        -- apply (Hfin _ None); [|discriminate].
           apply tally_append_error. unfold tally.
           rewrite !lookup_insert_ne by done. repeat split; assumption.
      * apply (Hfin _ None); [|discriminate].
        apply tally_append_error. repeat split; assumption.
  - exists None. split; [apply tally_append_error; repeat split; assumption|].
    split; [discriminate|]. split; [reflexivity|].
    intros _. now rewrite append_error_lookup.
Qed.

(** The last step keeps the counters and reads the status off them. *)
Lemma finish_tally (record : gmap string json) sent found connections :
  tally record sent found connections ->
  tally (finish w record) sent found connections
  /\ (has_status (finish w record) "completed"
      <-> (0 < sent)%Z \/ exists b, connections = Some b /\ (0 < b)%Z)
  /\ finish w record !! "linkedin_people_found"%string
     = record !! "linkedin_people_found"%string.
Proof.
  intros (H1 & H2 & H3). unfold finish. rewrite H1, H3.
  cbn [greater_than_zero].
  assert (Hkeep : forall status : str,
            tally (<["completed_at"%string := now w]>
                     (<["status"%string := JStr status]> record)) sent found connections
            /\ (<["completed_at"%string := now w]>
                  (<["status"%string := JStr status]> record)) !! "status"%string
               = Some (JStr status)
            /\ (<["completed_at"%string := now w]>
                  (<["status"%string := JStr status]> record))
                 !! "linkedin_people_found"%string
               = record !! "linkedin_people_found"%string).
  { intros status. unfold tally.
    repeat split; rewrite ?lookup_insert_ne by done;
      rewrite ?lookup_insert_eq; auto. }
  destruct (0 <? sent)%Z eqn:Hs.
  - destruct (Hkeep (lit "completed")) as (Ht & Hst & Hlp).
    split; [assumption|]. split; [|assumption].
    split; [intros _; left; now apply Z.ltb_lt | intros _; exact Hst].
  - apply Z.ltb_ge in Hs.
    destruct connections as [b|]; cbn [fmap option_fmap option_map default];
      cbv [id]; cbn [greater_than_zero].
    + destruct (0 <? b)%Z eqn:Hb.
      * destruct (Hkeep (lit "completed")) as (Ht & Hst & Hlp).
        split; [assumption|]. split; [|assumption].
        split; [intros _; right; exists b; split; [reflexivity | now apply Z.ltb_lt]
               | intros _; exact Hst].
      * apply Z.ltb_ge in Hb.
        destruct (Hkeep (lit "failed")) as (Ht & Hst & Hlp).
        split; [assumption|]. split; [|assumption].
        split.
        -- intros Hc. exfalso. revert Hc. now apply not_completed_when_failed.
        -- intros [H|(b' & Hb' & H)]; [lia|]. injection Hb' as <-. lia.
    + change (0 <? 0)%Z with false. cbn iota.
      destruct (Hkeep (lit "failed")) as (Ht & Hst & Hlp).
      split; [assumption|]. split; [|assumption].
      split.
      * intros Hc. exfalso. revert Hc. now apply not_completed_when_failed.
      * intros [H|(b' & Hb' & H)]; [lia | discriminate].
Qed.

End CampaignBody.

Section CampaignOutcome.
Import App Statements CampaignStatements.

Variable w : world.

Lemma failed_outcome (o : gmap string json) (record : gmap string json) :
  tally record 0 0 None -> has_status record "failed" ->
  record !! "linkedin_people_found"%string = None ->
  outcome_facts w o record 0 0 None.
Proof.
  intros Ht Hf Hlp. unfold outcome_facts.
  split; [exact Ht|]. split; [lia|]. split; [discriminate|].
  split.
  { split.
    - intros Hc. exfalso. revert Hc. now apply not_completed_when_failed.
    - intros [H|(b & Hb & _)]; [lia | discriminate]. }
  split; [reflexivity|]. split; [auto|]. intros; lia.
Qed.

Lemma campaign_body_outcome (o : gmap string json) (campaign_id : Z) (domain : json) :
  exists sent found connections,
    outcome_facts w o (campaign_body w o (new_record campaign_id domain))
      sent found connections.
Proof.
  pose proof (tally_new_record campaign_id domain) as Hnew.
  assert (Hfail : forall msg,
            exists sent found connections,
              outcome_facts w o (fail_with msg (new_record campaign_id domain))
                sent found connections).
  { intros msg. exists 0%Z, 0%Z, None. apply failed_outcome.
    - now apply tally_fail_with.
    - apply fail_with_status.
    - now rewrite fail_with_lookup. }
  unfold campaign_body.
  destruct (o !! "domain"%string) as [d|]; [|apply Hfail].
  destruct d; try apply Hfail.
  destruct (EmailScraper.clean_domain s) as [clean_domain|].
  2:{ exists 0%Z, 0%Z, None. apply failed_outcome.
      - apply tally_append_error. unfold tally.
        rewrite !lookup_insert_ne by done. exact Hnew.
      - unfold has_status. rewrite append_error_lookup by done.
        now rewrite lookup_insert_eq.
      - rewrite append_error_lookup by done. now rewrite lookup_insert_ne. }
  destruct (generate_personalized_paragraph w _ _) as [personalized_email|msg];
    [|apply Hfail].
  fold (enabled o "email_enabled"). fold (enabled o "linkedin_enabled").
  destruct (enabled o "email_enabled") eqn:He.
  - destruct (email_outreach_tally w clean_domain
                (default (JNum 5) (o !! "target_email_count"%string))
                (load_resume w)
                (default (JStr []) (o !! "job_description"%string))
                (title (hd [] (split "." clean_domain)))
                personalized_email (new_record campaign_id domain) None Hnew)
      as (sent & found & Ht & Hle & Hmissing & Hcap).
    destruct (email_outreach w _ _ _ _ _ _ (new_record campaign_id domain))
      as [record1 emails].
    cbn [fst] in Ht.
    assert (Hli : exists connections,
              tally (if enabled o "linkedin_enabled"
                     then linkedin_outreach w emails
                            (title (hd [] (split "." clean_domain))) record1
                     else record1) sent found connections
              /\ (forall b, connections = Some b -> (0 <= b)%Z)).
    { destruct (enabled o "linkedin_enabled").
      - destruct (linkedin_outreach_tally w emails
                    (title (hd [] (split "." clean_domain))) record1 sent found Ht)
          as (connections & Hc & Hpos & _). now exists connections.
      - exists None. split; [exact Ht | discriminate]. }
    destruct Hli as (connections & Hc & Hpos).
    destruct (finish_tally w _ sent found connections Hc) as (Hfin & Hstatus & _).
    exists sent, found, connections. unfold outcome_facts.
    split; [exact Hfin|]. split; [exact Hle|]. split; [exact Hpos|].
    split; [exact Hstatus|]. split; [exact Hmissing|].
    split; [intros H; rewrite He in H; discriminate H|]. exact Hcap.
  - assert (Hli : tally (if enabled o "linkedin_enabled"
                         then linkedin_outreach w None
                                (title (hd [] (split "." clean_domain)))
                                (new_record campaign_id domain)
                         else new_record campaign_id domain) 0 0 None
                  /\ (if enabled o "linkedin_enabled"
                      then linkedin_outreach w None
                             (title (hd [] (split "." clean_domain)))
                             (new_record campaign_id domain)
                      else new_record campaign_id domain)
                       !! "linkedin_people_found"%string = None).
    { destruct (enabled o "linkedin_enabled").
      - destruct (linkedin_outreach_tally w None
                    (title (hd [] (split "." clean_domain)))
                    (new_record campaign_id domain) 0 0 Hnew)
          as (connections & Hc & _ & Hnone & Hlp).
        rewrite (Hnone eq_refl) in Hc. split; [exact Hc|].
        now rewrite (Hlp eq_refl).
      - split; [exact Hnew | reflexivity]. }
    destruct Hli as [Hc Hlp].
    destruct (finish_tally w _ 0 0 None Hc) as (Hfin & Hstatus & Hlpf).
    exists 0%Z, 0%Z, None. unfold outcome_facts.
    split; [exact Hfin|]. split; [lia|]. split; [discriminate|].
    split; [exact Hstatus|]. split; [reflexivity|].
    split; [|intros; lia].
    intros _. repeat split. now rewrite Hlpf.
Qed.

End CampaignOutcome.

Section CampaignResults.
Import App Statements CampaignStatements.

Variable w : world.

(** X8.  In the record of a finished campaign [emails_sent] and
    [emails_found] are integers with [0 <= emails_sent <= emails_found]. *)
Theorem emails_sent_at_most_found (o : gmap string json) (campaign_id : Z) (domain : json) :
  let record := campaign_body w o (new_record campaign_id domain) in
  exists sent found,
    record !! "emails_sent"%string = Some (JNum sent)
    /\ record !! "emails_found"%string = Some (JNum found)
    /\ (0 <= sent <= found)%Z.
Proof.
  destruct (campaign_body_outcome w o campaign_id domain)
    as (sent & found & connections & (Hs & Hf & _) & Hle & _).
  exists sent, found. auto.
Qed.

(** X9.  When [target_email_count] is a non-negative integer [k] (5 when
    the request does not give it), a campaign sends at most [k] e-mails. *)
Theorem emails_sent_at_most_target
    (o : gmap string json) (campaign_id : Z) (domain : json) (k : Z) :
  default (JNum 5) (o !! "target_email_count"%string) = JNum k ->
  (0 <= k)%Z ->
  exists sent,
    campaign_body w o (new_record campaign_id domain) !! "emails_sent"%string
    = Some (JNum sent)
    /\ (sent <= k)%Z.
Proof.
  intros Hk Hpos.
  destruct (campaign_body_outcome w o campaign_id domain)
    as (sent & found & connections & (Hs & _) & _ & _ & _ & _ & _ & Hcap).
  exists sent. split; [exact Hs | now apply Hcap].
Qed.

(** X10.  A finished campaign is 'completed' exactly when its record
    counts at least one e-mail sent or at least one LinkedIn connection
    sent. *)
Theorem completed_iff_something_sent
    (o : gmap string json) (campaign_id : Z) (domain : json) :
  let record := campaign_body w o (new_record campaign_id domain) in
  has_status record "completed"
  <-> (exists n, record !! "emails_sent"%string = Some (JNum n) /\ (0 < n)%Z)
      \/ (exists n, record !! "linkedin_connections_sent"%string = Some (JNum n)
                    /\ (0 < n)%Z).
Proof.
  destruct (campaign_body_outcome w o campaign_id domain)
    as (sent & found & connections & (Hs & Hf & Hc) & _ & _ & Hstatus & _).
  cbn zeta. rewrite Hstatus, Hs, Hc. split.
  - intros [H|(b & -> & H)]; [left; now exists sent | right; now exists b].
  - intros [(n & Hn & H)|(n & Hn & H)].
    + left. now injection Hn as ->.
    + right. destruct connections as [b|]; [|discriminate].
      injection Hn as ->. now exists n.
Qed.

(** X11.  A campaign whose request has [email_enabled] falsy always ends
    'failed': the LinkedIn block has no list of addresses to work on, so no
    search is made, and nothing is found or sent. *)
Theorem campaign_without_email_fails
    (o : gmap string json) (campaign_id : Z) (domain : json) :
  enabled o "email_enabled" = false ->
  let record := campaign_body w o (new_record campaign_id domain) in
  has_status record "failed"
  /\ record !! "emails_found"%string = Some (JNum 0)
  /\ record !! "emails_sent"%string = Some (JNum 0)
  /\ record !! "linkedin_people_found"%string = None
  /\ record !! "linkedin_connections_sent"%string = None.
Proof.
  intros Hoff.
  destruct (campaign_body_outcome w o campaign_id domain)
    as (sent & found & connections & (Hs & Hf & Hc) & _ & _ & Hstatus & _ & Hdisabled & _).
  destruct (Hdisabled Hoff) as (-> & -> & -> & Hlp).
  cbn zeta. repeat split; try assumption.
  destruct (campaign_body_settled w o (new_record campaign_id domain)) as [[H|H] _];
    [|exact H].
  apply Hstatus in H as [H|(b & Hb & _)]; [lia | discriminate].
Qed.

(** X12.  With an AI service that has no [generate_personalized_email], as
    the one of this repository, no campaign sends an e-mail: [emails_sent]
    stays 0, and the campaign is 'completed' only through LinkedIn
    connections. *)
Theorem no_email_without_generator
    (o : gmap string json) (campaign_id : Z) (domain : json) :
  email_generator_missing w ->
  let record := campaign_body w o (new_record campaign_id domain) in
  record !! "emails_sent"%string = Some (JNum 0)
  /\ (has_status record "completed"
      <-> exists n, record !! "linkedin_connections_sent"%string = Some (JNum n)
                    /\ (0 < n)%Z).
Proof.
  intros Hmissing.
  destruct (campaign_body_outcome w o campaign_id domain)
    as (sent & found & connections & (Hs & Hf & Hc) & _ & _ & Hstatus & Hzero & _).
  rewrite (Hzero Hmissing) in *. cbn zeta. split; [exact Hs|].
  rewrite Hstatus, Hc. split.
  - intros [H|(b & -> & H)]; [lia | now exists b].
  - intros (n & Hn & H). right. destruct connections as [b|]; [|discriminate].
    injection Hn as ->. now exists n.
Qed.

End CampaignResults.

Lemma emails_sent_at_most_target_witness :
  exists sent,
    App.campaign_body Statements.quiet_world
      (list_to_map [ ("domain", App.JStr (lit "example.com"));
                     ("target_email_count", App.JNum 3) ]%string)
      (App.new_record 1 (App.JStr (lit "example.com"))) !! "emails_sent"%string
    = Some (App.JNum sent)
    /\ (sent <= 3)%Z.
Proof.
  apply (emails_sent_at_most_target Statements.quiet_world
           (list_to_map [ ("domain", App.JStr (lit "example.com"));
                          ("target_email_count", App.JNum 3) ]%string)
           1 (App.JStr (lit "example.com")) 3).
  - reflexivity.
  - lia.
Defined.

Lemma campaign_without_email_fails_witness :
  let o : gmap string App.json :=
    list_to_map [ ("domain", App.JStr (lit "example.com"));
                  ("email_enabled", App.JBool false);
                  ("linkedin_enabled", App.JBool true) ]%string in
  App.validate (App.Ok (App.JObj o)) = None
  /\ Statements.has_status
       (App.campaign_body Statements.quiet_world o
          (App.new_record 1 (App.JStr (lit "example.com")))) "failed".
Proof.
  intros o. split; [reflexivity|].
  apply (campaign_without_email_fails Statements.quiet_world o 1
           (App.JStr (lit "example.com"))).
  reflexivity.
Defined.

Lemma no_email_without_generator_witness :
  App.campaign_body Statements.quiet_world
    (list_to_map [ ("domain", App.JStr (lit "example.com")) ]%string)
    (App.new_record 1 (App.JStr (lit "example.com"))) !! "emails_sent"%string
  = Some (App.JNum 0).
Proof.
  apply (no_email_without_generator Statements.quiet_world
           (list_to_map [ ("domain", App.JStr (lit "example.com")) ]%string)
           1 (App.JStr (lit "example.com"))).
  intros a b c d. eexists. reflexivity.
Defined.

(* ===================================================================== *)
(** * Looking campaigns up *)
(* ===================================================================== *)

Section Lookups.
Import App AppMore Statements CampaignStatements.

Variable w : world.

(** A valid request, whatever the schedule, leaves the globals its thread
    builds. *)
Lemma serve_launch_valid (g : globals) (data : json) (head_start : nat) :
  valid_request data ->
  exists o domain,
    data = JObj o /\ o !! "domain"%string = Some domain
    /\ serve_launch w g (Ok data) head_start
       = (success_response (fst (thread_steps w head_start g (AtReadCounter data))),
          after_campaign w g o domain).
Proof.
  intros Hval. destruct (validate_passes data Hval) as (o & domain & -> & Hdomain).
  exists o, domain. split; [reflexivity|]. split; [exact Hdomain|].
  unfold serve_launch, launch_campaign. rewrite Hval.
  pose proof (thread_completes_from w head_start g o domain Hdomain) as Hend.
  destruct (thread_steps w head_start g (AtReadCounter (JObj o))) as [g1 t1].
  now rewrite Hend.
Qed.

Lemma find_campaign_skip (results rest : list (gmap string json)) (campaign_id : Z) :
  Forall (fun record : gmap string json =>
            exists i, record !! "id"%string = Some (JNum i) /\ i <> campaign_id) results ->
  find_campaign (results ++ rest) campaign_id = find_campaign rest campaign_id.
Proof.
  induction 1 as [|record results (i & Hi & Hne) _ IH]; [reflexivity|].
  cbn [app find_campaign]. rewrite Hi. cbn [equals_int].
  replace (i =? campaign_id)%Z with false by (symmetry; now apply Z.eqb_neq).
  exact IH.
Qed.

Lemma ids_below_other (g : globals) (campaign_id : Z) :
  ids_below g -> (campaign_counter g <= campaign_id)%Z ->
  Forall (fun record : gmap string json =>
            exists i, record !! "id"%string = Some (JNum i) /\ i <> campaign_id)
    (campaign_results g).
Proof.
  unfold ids_below. intros H Hle. eapply Forall_impl; [exact H|].
  intros record (i & Hi & Hlt). exists i. split; [exact Hi | lia].
Qed.

(** X13.  An identifier that has not been allotted yet is answered with
    status 404. *)
Theorem get_campaign_unknown (g : globals) (campaign_id : Z) :
  ids_below g -> (campaign_counter g <= campaign_id)%Z ->
  get_campaign g campaign_id = Ok (error_response 404 (lit "Campaign not found")).
Proof.
  intros Hids Hle. unfold get_campaign.
  pose proof (find_campaign_skip (campaign_results g) [] campaign_id
                (ids_below_other g campaign_id Hids Hle)) as H.
  rewrite app_nil_r in H. rewrite H. reflexivity.
Qed.

(** X14.  After a valid launch request has been served and its thread
    has ended, [get_campaign] with the identifier the counter had at the
    request returns status 200 and the record of that campaign, which is
    settled; the identifiers stay below the counter. *)
Theorem get_campaign_after_launch (g : globals) (data : json) (head_start : nat) :
  ids_below g -> valid_request data ->
  let '(r, g') := serve_launch w g (Ok data) head_start in
  exists record,
    campaign_results g' = campaign_results g ++ [record]
    /\ get_campaign g' (campaign_counter g)
       = Ok (Response 200
               (list_to_map [ ("success", JBool true); ("campaign", JObj record) ]%string))
    /\ record !! "id"%string = Some (JNum (campaign_counter g))
    /\ settled record
    /\ campaign_counter g' = (campaign_counter g + 1)%Z
    /\ ids_below g'.
Proof.
  intros Hids Hval.
  destruct (serve_launch_valid g data head_start Hval) as (o & domain & -> & Hdomain & ->).
  set (record := campaign_body w o (new_record (campaign_counter g) domain)).
  assert (Hid : record !! "id"%string = Some (JNum (campaign_counter g))).
  { unfold record. rewrite campaign_body_id. apply new_record_id. }
  exists record. unfold after_campaign. fold record.
  cbn [campaign_results campaign_counter].
  split; [reflexivity|]. split.
  - unfold get_campaign. cbn [campaign_results].
    rewrite find_campaign_skip by (apply ids_below_other; [assumption | lia]).
    cbn [find_campaign]. rewrite Hid. cbn [equals_int]. rewrite Z.eqb_refl.
    destruct (size record =? 0) eqn:Hsize; [|reflexivity].
    apply Nat.eqb_eq, map_size_empty_iff in Hsize.
    rewrite Hsize, lookup_empty in Hid. discriminate Hid.
  - split; [exact Hid|]. split; [apply campaign_body_settled|]. split; [reflexivity|].
    unfold ids_below. cbn [campaign_results campaign_counter].
    apply Forall_app. split.
    + eapply Forall_impl; [exact Hids|].
      intros r (i & Hi & Hlt). exists i. split; [exact Hi | lia].
    + constructor; [|constructor]. exists (campaign_counter g). split; [exact Hid | lia].
Qed.

(** The [campaign_id] of the response to a valid request: the counter
    as the handler reads it, minus one. *)
Lemma serve_launch_campaign_id (g : globals) (data : json) (head_start : nat) :
  valid_request data ->
  let r := fst (serve_launch w g (Ok data) head_start) in
  status_code r = 200
  /\ payload r !! "campaign_id"%string
     = Some (JNum (if head_start <? 2 then campaign_counter g - 1 else campaign_counter g)).
Proof.
  intros Hval. pose proof (launch_valid_request w g data head_start Hval) as H.
  destruct (serve_launch w g (Ok data) head_start) as [r g'].
  destruct H as (Hcode & _ & Hid). now split.
Qed.

(** Requests served one after the other from any state. *)
Lemma serve_all_spec (requests : list (json * nat)) :
  Forall (fun request => valid_request (fst request)) requests ->
  forall g : globals,
    let '(rs, g') := serve_all w g requests in
    campaign_counter g' = (campaign_counter g + Z.of_nat (length requests))%Z
    /\ length rs = length requests
    /\ exists records,
         campaign_results g' = campaign_results g ++ records
         /\ length records = length requests
         /\ forall i record,
              records !! i = Some record ->
              record !! "id"%string = Some (JNum (campaign_counter g + Z.of_nat i))
              /\ settled record
              /\ exists r data head_start,
                   rs !! i = Some r
                   /\ requests !! i = Some (data, head_start)
                   /\ status_code r = 200
                   /\ payload r !! "campaign_id"%string
                      = Some (JNum (if head_start <? 2
                                    then campaign_counter g + Z.of_nat i - 1
                                    else campaign_counter g + Z.of_nat i)).
Proof.
  induction 1 as [|[data head_start] requests Hval _ IH]; intros g.
  - cbn. split; [lia|]. split; [reflexivity|].
    exists []. rewrite app_nil_r. split; [reflexivity|]. split; [reflexivity|].
    intros i record Hi. rewrite lookup_nil in Hi. discriminate Hi.
  - cbn [serve_all]. cbn [fst] in Hval.
    pose proof (serve_launch_campaign_id g data head_start Hval) as Hresp.
    destruct (serve_launch_valid g data head_start Hval)
      as (o & domain & -> & Hdomain & Hserve).
    rewrite Hserve in Hresp |- *. cbn [fst] in Hresp. destruct Hresp as [Hcode Hpay].
    specialize (IH (after_campaign w g o domain)).
    destruct (serve_all w (after_campaign w g o domain) requests) as [rs g'].
    destruct IH as (Hcounter & Hlen & records & Hresults & Hrecords & Hall).
    unfold after_campaign in Hcounter, Hresults, Hall.
    cbn [campaign_counter campaign_results] in Hcounter, Hresults, Hall.
    split; [cbn [length]; lia|]. split; [cbn [length]; lia|].
    exists (campaign_body w o (new_record (campaign_counter g) domain) :: records).
    split; [now rewrite Hresults, <- app_assoc|].
    split; [cbn [length]; lia|].
    intros [|i] record Hi.
    + cbn in Hi. injection Hi as <-.
      rewrite Z.add_0_r. split; [rewrite campaign_body_id; apply new_record_id|].
      split; [apply campaign_body_settled|].
      eexists _, (JObj o), head_start.
      split; [reflexivity|]. split; [reflexivity|]. split; [exact Hcode | exact Hpay].
    + cbn in Hi. destruct (Hall i record Hi)
        as (Hid & Hset & r & data' & head_start' & Hr & Hreq & Hcode' & Hpay').
      replace (campaign_counter g + Z.of_nat (S i))%Z
        with (campaign_counter g + 1 + Z.of_nat i)%Z by lia.
      split; [exact Hid|]. split; [exact Hset|].
      exists r, data', head_start'. repeat split; assumption.
Qed.

(** X15.  Valid launch requests served one after the other on a fresh
    server, each thread ending before the next request comes in, whatever
    head start each thread has on the response of its own handler: the
    [i]-th record (from 0) has [id] [i + 1] and is settled, the counter
    ends at the number of requests plus one, and the [i]-th request gets
    status 200; its [campaign_id] is [i + 1] when the thread has made two
    steps or more before the response is built, that is when the counter
    has been incremented by then, and [i] otherwise. *)
Theorem sequential_launches (requests : list (json * nat)) :
  Forall (fun request => valid_request (fst request)) requests ->
  let '(rs, g) := serve_all w initial_globals requests in
  campaign_counter g = (1 + Z.of_nat (length requests))%Z
  /\ length rs = length requests
  /\ length (campaign_results g) = length requests
  /\ forall i record,
       campaign_results g !! i = Some record ->
       record !! "id"%string = Some (JNum (1 + Z.of_nat i))
       /\ settled record
       /\ exists r data head_start,
            rs !! i = Some r
            /\ requests !! i = Some (data, head_start)
            /\ status_code r = 200
            /\ payload r !! "campaign_id"%string
               = Some (JNum (if head_start <? 2 then Z.of_nat i else 1 + Z.of_nat i)).
Proof.
  intros Hval. pose proof (serve_all_spec requests Hval initial_globals) as H.
  destruct (serve_all w initial_globals requests) as [rs g].
  destruct H as (Hcounter & Hlen & records & Hresults & Hrecords & Hall).
  cbn [initial_globals campaign_counter campaign_results app] in *.
  rewrite Hresults.
  split; [exact Hcounter|]. split; [exact Hlen|]. split; [exact Hrecords|].
  intros i record Hi.
  destruct (Hall i record Hi)
    as (Hid & Hset & r & data & head_start & Hr & Hreq & Hcode & Hpay).
  split; [exact Hid|]. split; [exact Hset|].
  exists r, data, head_start. split; [exact Hr|]. split; [exact Hreq|].
  split; [exact Hcode|]. rewrite Hpay.
  destruct (head_start <? 2); do 2 f_equal; lia.
Qed.

End Lookups.

Lemma initial_ids_below : CampaignStatements.ids_below App.initial_globals.
Proof. constructor. Qed.

Lemma get_campaign_unknown_witness :
  AppMore.get_campaign App.initial_globals 7
  = App.Ok (App.error_response 404 (lit "Campaign not found")).
Proof.
  apply (get_campaign_unknown App.initial_globals 7 initial_ids_below).
  cbn. lia.
Defined.

Lemma get_campaign_after_launch_witness :
  let '(r, g') := App.serve_launch Statements.quiet_world App.initial_globals
                    (App.Ok Statements.example_request) 0 in
  exists record,
    App.campaign_results g' = App.campaign_results App.initial_globals ++ [record]
    /\ AppMore.get_campaign g' (App.campaign_counter App.initial_globals)
       = App.Ok (App.Response 200
                   (list_to_map [ ("success", App.JBool true);
                                  ("campaign", App.JObj record) ]%string))
    /\ record !! "id"%string = Some (App.JNum (App.campaign_counter App.initial_globals))
    /\ Statements.settled record
    /\ App.campaign_counter g' = (App.campaign_counter App.initial_globals + 1)%Z
    /\ CampaignStatements.ids_below g'.
Proof.
  apply (get_campaign_after_launch Statements.quiet_world App.initial_globals
           Statements.example_request 0 initial_ids_below example_request_valid).
Defined.

Lemma sequential_launches_witness :
  let requests := [ (Statements.example_request, 0); (Statements.example_request, 4);
                    (Statements.example_request, 1) ] in
  let '(rs, g) := AppMore.serve_all Statements.quiet_world App.initial_globals requests in
  App.campaign_counter g = (1 + Z.of_nat (length requests))%Z
  /\ length rs = length requests
  /\ length (App.campaign_results g) = length requests
  /\ forall i record,
       App.campaign_results g !! i = Some record ->
       record !! "id"%string = Some (App.JNum (1 + Z.of_nat i))
       /\ Statements.settled record
       /\ exists r data head_start,
            rs !! i = Some r
            /\ requests !! i = Some (data, head_start)
            /\ App.status_code r = 200
            /\ App.payload r !! "campaign_id"%string
               = Some (App.JNum (if head_start <? 2 then Z.of_nat i else 1 + Z.of_nat i)).
Proof.
  intros requests.
  apply (sequential_launches Statements.quiet_world requests).
  repeat constructor.
Defined.

(* ===================================================================== *)
(** * More on the e-mail dispatcher *)
(* ===================================================================== *)

Section MoreProviders.
Import EmailService EmailServiceMore Statements ProviderStatements.

Variable smtp : nat -> provider -> smtp_step -> option raised.
Variable report : str -> option raised.

(** X16.  [__init__] keeps the providers whose two credentials are set:
    'Gmail' and 'Gmail_TLS' together when the Gmail pair is, then 'Outlook'
    when the Outlook pair is.  With neither pair, [send_email] returns
    [False] without opening a session. *)
Theorem init_keeps_configured_providers (getenv : string -> option str) :
  let self := EmailService.init getenv in
  let gmail := credentials getenv "GMAIL_EMAIL" "GMAIL_APP_PASSWORD" in
  let outlook := credentials getenv "OUTLOOK_EMAIL" "OUTLOOK_PASSWORD" in
  map name (email_providers self)
  = (if gmail then [lit "Gmail"; lit "Gmail_TLS"] else [])
    ++ (if outlook then [lit "Outlook"] else [])
  /\ Forall (fun p => truthy_env (email p) = true /\ truthy_env (password p) = true)
       (email_providers self)
  /\ (gmail = false -> outlook = false ->
      forall to_email subject body clock,
        send_email smtp report self to_email subject body clock
        = (Returns false, [], clock)).
Proof.
  unfold EmailService.init, credentials. cbn [List.filter email password email_providers].
  destruct (truthy_env (getenv "GMAIL_EMAIL"%string)) eqn:G1;
    destruct (truthy_env (getenv "GMAIL_APP_PASSWORD"%string)) eqn:G2;
    destruct (truthy_env (getenv "OUTLOOK_EMAIL"%string)) eqn:O1;
    destruct (truthy_env (getenv "OUTLOOK_PASSWORD"%string)) eqn:O2;
    cbn [andb map name app email_providers];
    (split; [reflexivity|]);
    (split; [repeat constructor; cbn [email password]; assumption|]);
    intros Hg Ho; try discriminate Hg; try discriminate Ho; reflexivity.
Qed.

(** When every pass ends with an exception that derives from [Exception]
    and the closing [print] goes through, [send_email] tries every
    provider and returns [False]. *)
Lemma send_email_all_caught (self : email_service) (to_email subject body : str)
    (clock : nat) :
  (forall c p, In p (email_providers self) ->
     exists e, ends_with smtp c p = Some (Exception e)) ->
  report to_email = None ->
  exists log,
    send_email smtp report self to_email subject body clock
    = (Returns false, log, clock + length (email_providers self)).
Proof.
  intros Hfail Hreport.
  destruct (nil_or_not (email_providers self)) as [Hnil|Hne].
  { unfold send_email. rewrite Hnil. exists []. cbn. now rewrite Nat.add_0_r. }
  rewrite send_email_unfold by exact Hne.
  destruct (try_providers_spec smtp report to_email (email_providers self) [] clock)
    as (res & log & Heq & Hfst & _ & _ & Hres).
  assert (Hin : forall i p, email_providers self !! i = Some p ->
                            In p (email_providers self)).
  { intros i p Hp. apply list_elem_of_In. eapply list_elem_of_lookup_2. exact Hp. }
  rewrite Heq. cbn [app]. exists log.
  destruct res as [[|]|r].
  - exfalso. destruct Hres as (p & Hp & _ & Hcomp & _).
    destruct (Hfail (clock + (length log - 1)) p (Hin _ _ Hp)) as [e He].
    apply ends_with_completes in Hcomp. congruence.
  - destruct Hres as (-> & _). reflexivity.
  - exfalso. destruct Hres as [(_ & p & Hp & _ & Hbase)|(_ & _ & Hreport')].
    + destruct (Hfail (clock + (length log - 1)) p (Hin _ _ Hp)) as [e He].
      congruence.
    + congruence.
Qed.

(** When the pass made with the first provider goes through to its end,
    no other provider is tried. *)
Lemma send_email_first_completes (self : email_service) (p : provider) (ps : list provider)
    (to_email subject body : str) (clock : nat) :
  email_providers self = p :: ps ->
  completes smtp clock p = true ->
  send_email smtp report self to_email subject body clock
  = (Returns true, [(p, stages p)], S clock).
Proof.
  intros Hps Hp. unfold send_email. rewrite Hps. cbn [try_providers].
  rewrite pass_spec, (carried_out_completes smtp clock p Hp).
  apply ends_with_completes in Hp. now rewrite Hp.
Qed.

End MoreProviders.

Section MoreDispatcher.
Import EmailService EmailServiceMore Statements ProviderStatements.

Variable smtp : nat -> provider -> smtp_step -> option smtp_exn.

(** With servers whose failures derive from [Exception], a pass that
    does not go through to its end ends with such an exception. *)
Lemma uninterrupted_ends_with (clock : nat) (p : provider) :
  completes (uninterrupted smtp) clock p = false ->
  exists e, ends_with (uninterrupted smtp) clock p = Some (Exception e).
Proof.
  intros Hc.
  destruct (ends_with (uninterrupted smtp) clock p) as [[e|]|] eqn:Hend.
  - now exists e.
  - exfalso. unfold ends_with in Hend.
    destruct (List.find _ (stages p)) as [st|]; [|discriminate Hend].
    unfold uninterrupted in Hend. destruct (smtp clock p st); discriminate Hend.
  - apply ends_with_completes in Hend. congruence.
Qed.

(** X18.  When no pass goes through to its end, whatever the provider
    and the time, or when no provider is configured, [send_bulk_emails]
    counts every address as failed, and each address has cost one pass
    per provider. *)
Theorem send_bulk_emails_all_fail
    (self : email_service) (email_list : list str) (company_name content : str) (clock : nat) :
  (forall c p, In p (email_providers self) -> completes (uninterrupted smtp) c p = false) ->
  send_bulk_emails smtp self email_list company_name content clock
  = (Results 0 (length email_list) (length email_list),
     clock + length email_list * length (email_providers self)).
Proof.
  intros Hfail. unfold send_bulk_emails.
  assert (Hgen : forall (l : list str) (s f t c : nat),
            fold_left (bulk_step smtp self company_name content) l (Results s f t, c)
            = (Results s (f + length l) t, c + length l * length (email_providers self))).
  { induction l as [|email l IH]; intros s f t c.
    - cbn. now rewrite !Nat.add_0_r.
    - cbn [fold_left length]. unfold bulk_step at 2.
      cbn [create_email_content].
      destruct (send_email_all_caught (uninterrupted smtp) printable self email
                  (lit "Quick question about opportunities at " ++ company_name)
                  content c) as [log Hlog].
      { intros c' p Hp. apply uninterrupted_ends_with. now apply Hfail. }
      { reflexivity. }
      rewrite Hlog. cbn [sent failed total]. rewrite IH. f_equal; [f_equal; lia | lia]. }
  rewrite Hgen. now rewrite Nat.add_0_l.
Qed.

(** X19.  When every pass made with the first provider goes through to
    its end, [quit()] included, [send_bulk_emails] counts every address as
    sent, and each address has cost one pass: no other provider is
    tried. *)
Theorem send_bulk_emails_first_completes
    (self : email_service) (p : provider) (ps : list provider)
    (email_list : list str) (company_name content : str) (clock : nat) :
  email_providers self = p :: ps ->
  (forall c, completes (uninterrupted smtp) c p = true) ->
  send_bulk_emails smtp self email_list company_name content clock
  = (Results (length email_list) 0 (length email_list), clock + length email_list).
Proof.
  intros Hps Hp. unfold send_bulk_emails.
  assert (Hgen : forall (l : list str) (s f t c : nat),
            fold_left (bulk_step smtp self company_name content) l (Results s f t, c)
            = (Results (s + length l) f t, c + length l)).
  { induction l as [|email l IH]; intros s f t c.
    - cbn. now rewrite !Nat.add_0_r.
    - cbn [fold_left length]. unfold bulk_step at 2.
      cbn [create_email_content].
      rewrite (send_email_first_completes (uninterrupted smtp) printable self p ps) by auto.
      cbn [sent failed total]. rewrite IH. f_equal; [f_equal; lia | lia]. }
  rewrite Hgen. now rewrite Nat.add_0_l.
Qed.

End MoreDispatcher.

Lemma send_bulk_emails_all_fail_witness :
  EmailService.send_bulk_emails ProviderExamples.quit_refused
    (EmailService.Service [ProviderExamples.gmail; ProviderExamples.outlook])
    [lit "a@x.com"; lit "b@x.com"; lit "c@x.com"] (lit "X") (lit "Hello") 0
  = (EmailService.Results 0 3 3, 6).
Proof.
  apply (send_bulk_emails_all_fail ProviderExamples.quit_refused
           (EmailService.Service [ProviderExamples.gmail; ProviderExamples.outlook])
           [lit "a@x.com"; lit "b@x.com"; lit "c@x.com"] (lit "X") (lit "Hello") 0).
  intros c p [<-|[<-|[]]]; reflexivity.
Defined.

Lemma send_bulk_emails_first_completes_witness :
  EmailService.send_bulk_emails ProviderExamples.servers_up
    (EmailService.Service [ProviderExamples.gmail; ProviderExamples.outlook])
    [lit "a@x.com"; lit "b@x.com"; lit "c@x.com"] (lit "X") (lit "Hello") 0
  = (EmailService.Results 3 0 3, 3).
Proof.
  apply (send_bulk_emails_first_completes ProviderExamples.servers_up
           (EmailService.Service [ProviderExamples.gmail; ProviderExamples.outlook])
           ProviderExamples.gmail [ProviderExamples.outlook]
           [lit "a@x.com"; lit "b@x.com"; lit "c@x.com"] (lit "X") (lit "Hello") 0).
  - reflexivity.
  - intros c. reflexivity.
Defined.

(* ===================================================================== *)
(** * More on the message generator *)
(* ===================================================================== *)

Section MoreGenerator.
Import AIService AIServiceMore Statements.

(** X20.  When the attempt on every model fails (the call raises, or
    gives no text, or gives a text that once stripped has 200 characters
    or fewer or does not hold 'Mantavya Mahajan'),
    [generate_personalized_paragraph] calls each model exactly once, in
    rotation from [current_key_index], returns a template and leaves
    [current_key_index] where it was. *)
Theorem generate_all_models_fail
    (self : ai_service) (rnd : nat) (resume_content job_description : str) :
  well_formed self ->
  resume_content <> [] -> job_description <> [] ->
  Forall (fun mdl => attempt_fails (prompt job_description) mdl = true) (models self) ->
  let '(text, self', calls) :=
    generate_personalized_paragraph self rnd resume_content job_description in
  In text templates
  /\ calls = rotation (current_key_index self) (length (models self)) (length (models self))
  /\ NoDup calls
  /\ length calls = length (models self)
  /\ current_key_index self' = current_key_index self
  /\ models self' = models self.
Proof.
  intros Hwf Hres Hjob Hall.
  destruct (nil_or_not (models self)) as [Hnil|Hne].
  { rewrite generate_short by tauto. rewrite Hnil.
    split; [apply get_predefined_templates_in|]. repeat split. constructor. }
  rewrite generate_long by assumption.
  assert (Hk : current_key_index self < length (models self)).
  { destruct Hwf as [H|H]; [contradiction | exact H]. }
  destruct (attempts_trace (prompt job_description) (length (models self)) self [] Hk)
    as (res & self' & m & Heq & Hm & Hmod & Hfails & Hres').
  rewrite Heq. cbn [app].
  destruct res as [text|].
  - exfalso. destruct Hres' as (_ & _ & mdl & t & Hlook & _ & _ & _ & Hok).
    rewrite List.Forall_forall in Hall.
    rewrite Hall in Hok; [discriminate|].
    apply list_elem_of_In. eapply list_elem_of_lookup_2. exact Hlook.
  - destruct Hres' as [-> Hidx].
    split; [apply get_predefined_templates_in|]. split; [reflexivity|].
    split; [now apply rotation_NoDup|]. split; [apply rotation_length|].
    split; [|exact Hmod].
    rewrite Hidx.
    replace (current_key_index self + length (models self))
      with (current_key_index self + 1 * length (models self)) by lia.
    rewrite Nat.Div0.mod_add. now apply Nat.mod_small.
Qed.

(** X21.  When some model does not fail, the text returned is the
    stripped text of the first model, in rotation from
    [current_key_index], that does not fail; every model called before it
    failed, no model is called after it, and [current_key_index] stays on
    it for the next call. *)
Theorem generate_uses_first_working_model
    (self : ai_service) (rnd : nat) (resume_content job_description : str) :
  well_formed self ->
  resume_content <> [] -> job_description <> [] ->
  (exists mdl, In mdl (models self)
               /\ attempt_fails (prompt job_description) mdl = false) ->
  let '(text, self', calls) :=
    generate_personalized_paragraph self rnd resume_content job_description in
  let k := current_key_index self in
  let len := length (models self) in
  exists m mdl t,
    1 <= m <= len
    /\ calls = rotation k m len
    /\ current_key_index self' = (k + (m - 1)) mod len
    /\ last calls = Some (current_key_index self')
    /\ models self !! current_key_index self' = Some mdl
    /\ mdl (prompt job_description) = GenText t
    /\ text = strip_unicode t
    /\ attempt_fails (prompt job_description) mdl = false
    /\ forall j mdl',
         j < m - 1 -> models self !! ((k + j) mod len) = Some mdl' ->
         attempt_fails (prompt job_description) mdl' = true.
Proof.
  intros Hwf Hres Hjob (good & Hgood & Hok).
  assert (Hne : models self <> []) by (intros H; rewrite H in Hgood; destruct Hgood).
  rewrite generate_long by assumption.
  assert (Hk : current_key_index self < length (models self)).
  { destruct Hwf as [H|H]; [contradiction | exact H]. }
  destruct (attempts_trace (prompt job_description) (length (models self)) self [] Hk)
    as (res & self' & m & Heq & Hm & Hmod & Hfails & Hres').
  rewrite Heq. cbn [app].
  destruct res as [text|].
  - destruct Hres' as (H1 & Hidx & mdl & t & Hlook & Hcall & Htext & _ & Hnofail).
    cbn zeta. exists m, mdl, t.
    split; [lia|]. split; [reflexivity|]. split; [exact Hidx|].
    split.
    { destruct m as [|m]; [lia|]. unfold rotation.
      rewrite seq_S, map_app. cbn [map]. rewrite last_snoc.
      rewrite Hidx. do 2 f_equal. lia. }
    repeat split; assumption.
  - exfalso. destruct Hres' as [-> _].
    pose proof (all_models_fail (prompt job_description) self Hk Hfails) as Hall.
    rewrite List.Forall_forall in Hall. rewrite (Hall good Hgood) in Hok.
    discriminate Hok.
Qed.

(** One call keeps the service in order and returns some text. *)
Lemma generate_step (self : ai_service) (rnd : nat) (resume_content job_description : str) :
  well_formed self ->
  let '(text, self', calls) :=
    generate_personalized_paragraph self rnd resume_content job_description in
  text <> [] /\ models self' = models self /\ well_formed self'.
Proof.
  intros Hwf.
  destruct (nil_or_not (models self)) as [Hnil|Hne];
    [rewrite generate_short by tauto;
     split; [apply template_not_nil, get_predefined_templates_in | now split]|].
  destruct (nil_or_not resume_content) as [Hr|Hr];
    [rewrite generate_short by tauto;
     split; [apply template_not_nil, get_predefined_templates_in | now split]|].
  destruct (nil_or_not job_description) as [Hj|Hj];
    [rewrite generate_short by tauto;
     split; [apply template_not_nil, get_predefined_templates_in | now split]|].
  rewrite generate_long by assumption.
  assert (Hk : current_key_index self < length (models self)).
  { destruct Hwf as [H|H]; [contradiction | exact H]. }
  destruct (attempts_trace (prompt job_description) (length (models self)) self [] Hk)
    as (res & self' & m & Heq & Hm & Hmod & _ & Hres').
  rewrite Heq.
  assert (Hidx : forall i, current_key_index self' = i mod length (models self) ->
                           well_formed self').
  { intros i Hi. right. rewrite Hmod, Hi. apply Nat.mod_upper_bound. lia. }
  destruct res as [text|].
  - destruct Hres' as (_ & Hi & mdl & t & _ & _ & _ & Hq & _).
    apply good_enough_spec in Hq as [Hlong _].
    split; [intros ->; cbn in Hlong; lia|]. split; [exact Hmod | now apply (Hidx _ Hi)].
  - destruct Hres' as [_ Hi].
    split; [apply template_not_nil, get_predefined_templates_in|].
    split; [exact Hmod | now apply (Hidx _ Hi)].
Qed.

Lemma generate_all_spec (requests : list (nat * str * str)) :
  forall self : ai_service,
    well_formed self ->
    let '(texts, self') := generate_all self requests in
    models self' = models self
    /\ well_formed self'
    /\ length texts = length requests
    /\ Forall (fun text : str => text <> []) texts.
Proof.
  induction requests as [|[[rnd resume_content] job_description] requests IH];
    intros self Hwf.
  - cbn. repeat split; [assumption | constructor].
  - cbn [generate_all].
    pose proof (generate_step self rnd resume_content job_description Hwf) as Hstep.
    destruct (generate_personalized_paragraph self rnd resume_content job_description)
      as [[text self1] calls].
    destruct Hstep as (Htext & Hmod & Hwf1).
    specialize (IH self1 Hwf1).
    destruct (generate_all self1 requests) as [texts self2].
    destruct IH as (Hmod2 & Hwf2 & Hlen & Hall).
    split; [congruence|]. split; [exact Hwf2|].
    split; [cbn [length]; lia | now constructor].
Qed.

(** X22.  [__init__] sets up at most two models, one per key that is set
    and accepted, with [current_key_index] 0.  From there on, whatever the
    calls of [generate_personalized_paragraph], the models stay the same,
    [current_key_index] stays in range, and every call returns a text that
    is not empty. *)
Theorem service_stays_in_order
    (getenv : string -> option str) (make_model : str -> option model)
    (requests : list (nat * str * str)) :
  let self := init getenv make_model in
  let '(texts, self') := generate_all self requests in
  length (models self) <= 2
  /\ current_key_index self = 0
  /\ models self' = models self
  /\ well_formed self'
  /\ length texts = length requests
  /\ Forall (fun text : str => text <> []) texts.
Proof.
  cbn zeta.
  assert (Hinit : length (models (init getenv make_model)) <= 2
                  /\ well_formed (init getenv make_model)).
  { unfold init, well_formed. cbn [fold_left models current_key_index].
    destruct (getenv "GEMINI_API_KEY_1"%string) as [[|c1 k1]|];
      destruct (getenv "GEMINI_API_KEY_2"%string) as [[|c2 k2]|];
      try destruct (make_model (c1 :: k1));
      try destruct (make_model (c2 :: k2));
      cbn; split; try lia; (now left) || (right; lia). }
  destruct Hinit as [Hlen Hwf].
  pose proof (generate_all_spec requests (init getenv make_model) Hwf) as H.
  destruct (generate_all (init getenv make_model) requests) as [texts self'].
  destruct H as (H1 & H2 & H3 & H4). repeat split; assumption.
Qed.

End MoreGenerator.

Lemma generate_all_models_fail_witness :
  let self := AIService.AI [AIExamples.raising_model; AIExamples.wordy_model] 1 in
  let '(text, self', calls) :=
    AIService.generate_personalized_paragraph self 0 (lit "resume") (lit "We ship parcels") in
  In text AIService.templates
  /\ calls = Statements.rotation 1 2 2
  /\ NoDup calls
  /\ length calls = 2
  /\ AIService.current_key_index self' = 1
  /\ AIService.models self' = AIService.models self.
Proof.
  intros self.
  apply (generate_all_models_fail self 0 (lit "resume") (lit "We ship parcels")).
  - right. cbn. lia.
  - discriminate.
  - discriminate.
  - repeat constructor.
Defined.

Lemma generate_uses_first_working_model_witness :
  let self :=
    AIService.AI [AIExamples.raising_model; AIExamples.good_model; AIExamples.terse_model] 0 in
  let '(text, self', calls) :=
    AIService.generate_personalized_paragraph self 0 (lit "resume") (lit "We ship parcels") in
  exists m mdl t,
    1 <= m <= 3
    /\ calls = Statements.rotation 0 m 3
    /\ AIService.current_key_index self' = (0 + (m - 1)) mod 3
    /\ last calls = Some (AIService.current_key_index self')
    /\ AIService.models self !! AIService.current_key_index self' = Some mdl
    /\ mdl (AIService.prompt (lit "We ship parcels")) = AIService.GenText t
    /\ text = strip_unicode t
    /\ Statements.attempt_fails (AIService.prompt (lit "We ship parcels")) mdl = false
    /\ forall j mdl',
         j < m - 1 -> AIService.models self !! ((0 + j) mod 3) = Some mdl' ->
         Statements.attempt_fails (AIService.prompt (lit "We ship parcels")) mdl' = true.
Proof.
  intros self.
  apply (generate_uses_first_working_model self 0 (lit "resume") (lit "We ship parcels")).
  - right. cbn. lia.
  - discriminate.
  - discriminate.
  - exists AIExamples.good_model. split; [right; left; reflexivity|].
    vm_compute. reflexivity.
Defined.

(* ===================================================================== *)
(** * More on domain cleaning *)
(* ===================================================================== *)

Section MoreCleanDomain.
Import EmailScraper Statements DomainStatements.

Lemma space_lower_char (c : ascii) : is_space (lower_char c) = is_space c.
Proof. destruct c as [[] [] [] [] [] [] [] []]; reflexivity. Qed.

Lemma lstrip_lower (s : str) : lstrip (lower s) = lower (lstrip s).
Proof.
  induction s as [|c s IH]; [reflexivity|].
  change (lower (c :: s)) with (lower_char c :: lower s).
  cbn [lstrip]. rewrite space_lower_char.
  destruct (is_space c); [exact IH | reflexivity].
Qed.

Lemma lower_rev (s : str) : lower (rev s) = rev (lower s).
Proof. unfold lower. apply map_rev. Qed.

Lemma strip_lower (s : str) : strip (lower s) = lower (strip s).
Proof.
  unfold strip, rstrip.
  now rewrite lstrip_lower, <- lower_rev, lstrip_lower, lower_rev.
Qed.

(** X23.  [clean_domain] reads its input up to case: two inputs with the
    same lower-cased form are cleaned alike. *)
Theorem clean_domain_ignores_case (d1 d2 : str) :
  lower d1 = lower d2 -> clean_domain d1 = clean_domain d2.
Proof.
  intros H. rewrite !clean_domain_unfold, <- !strip_lower, H. reflexivity.
Qed.

Lemma clean_domain_ignores_case_witness :
  clean_domain (lit "HTTPS://WWW.Example.COM/Jobs")
  = clean_domain (lit "https://www.example.com/jobs").
Proof.
  apply (clean_domain_ignores_case (lit "HTTPS://WWW.Example.COM/Jobs")
           (lit "https://www.example.com/jobs")).
  reflexivity.
Defined.

Lemma length_lstrip (s : str) : length (lstrip s) <= length s.
Proof.
  induction s as [|c s IH]; [reflexivity|].
  cbn [lstrip]. destruct (is_space c); cbn [length]; lia.
Qed.

Lemma length_strip (s : str) : length (strip s) <= length s.
Proof.
  unfold strip, rstrip. rewrite length_rev.
  pose proof (length_lstrip (rev (lstrip s))) as H1.
  pose proof (length_lstrip s) as H2.
  rewrite length_rev in H1. lia.
Qed.

Lemma length_replace (p : str) :
  forall (n : nat) (s : str), length s <= n ->
    length (replace_with_empty p s) <= length s.
Proof.
  destruct p as [|q p]; [intros; reflexivity|].
  assert (Hp : q :: p <> []) by discriminate.
  induction n as [|n IH]; intros s Hn.
  - destruct s; [reflexivity | cbn in Hn; lia].
  - rewrite replace_unfold by assumption.
    destruct s as [|c s]; [reflexivity|].
    destruct (startswith (q :: p) (c :: s)) eqn:Hs.
    + pose proof (length_drop_startswith _ _ Hp Hs) as Hlt.
      specialize (IH (drop (length (q :: p)) (c :: s))).
      cbn [length] in *. lia.
    + specialize (IH s). cbn [length] in *. lia.
Qed.

Lemma length_hd_split (sep : ascii) (s : str) :
  length (hd [] (split sep s)) <= length s.
Proof.
  induction s as [|c s IH]; [reflexivity|].
  cbn [split]. destruct (Ascii.eqb c sep); [cbn; lia|].
  pose proof (split_not_nil sep s) as Hne.
  destruct (split sep s) as [|h t]; [congruence|].
  cbn [hd length] in *. lia.
Qed.

Lemma length_cleaned_core (s : str) : length (cleaned_core s) <= length s.
Proof.
  unfold cleaned_core.
  pose proof (length_hd_split "/"
                (replace_with_empty (lit "www.")
                   (replace_with_empty (lit "http://")
                      (replace_with_empty (lit "https://") s)))) as H0.
  pose proof (length_replace (lit "www.") _
                (replace_with_empty (lit "http://")
                   (replace_with_empty (lit "https://") s)) (Nat.le_refl _)) as H1.
  pose proof (length_replace (lit "http://") _
                (replace_with_empty (lit "https://") s) (Nat.le_refl _)) as H2.
  pose proof (length_replace (lit "https://") _ s (Nat.le_refl _)) as H3.
  lia.
Qed.

Lemma lower_char_ascii (c : ascii) : code c < 128 -> code (lower_char c) < 128.
Proof.
  destruct c as [[] [] [] [] [] [] [] []]; vm_compute; intros H; lia.
Qed.

(** X24.  On an input made of ASCII characters, whatever [clean_domain]
    returns is ASCII text in lower case, holds a ['.'] and no ['/'], is
    made of lower-cased characters of the input, and is not longer than
    the input. *)
Theorem clean_domain_result_shape (d c : str) :
  ascii_text d ->
  clean_domain d = Some c ->
  ascii_text c
  /\ lower c = c
  /\ In "."%char c
  /\ ~ In "/"%char c
  /\ (forall x, In x c -> exists y, In y d /\ x = lower_char y)
  /\ length c <= length d.
Proof.
  intros Hascii. rewrite clean_domain_unfold.
  destruct (contains_char "." (cleaned_core (lower (strip d)))) eqn:Hdot; [|discriminate].
  intros H. injection H as <-.
  assert (Hfrom : forall x, In x (cleaned_core (lower (strip d))) ->
                    exists y, In y d /\ x = lower_char y).
  { intros x Hx. apply cleaned_core_In in Hx. unfold lower in Hx.
    apply in_map_iff in Hx as [y [<- Hy]]. exists y. split; [|reflexivity].
    destruct (strip_decompose d) as (a & b & _ & _ & Hd).
    rewrite Hd. rewrite !in_app_iff. right. now left. }
  split; [|split; [|split; [|split; [|split]]]].
  - apply List.Forall_forall. intros x Hx. destruct (Hfrom x Hx) as (y & Hy & ->).
    apply lower_char_ascii. unfold ascii_text in Hascii.
    rewrite List.Forall_forall in Hascii. now apply Hascii.
  - apply lower_fixed. intros x Hx. destruct (Hfrom x Hx) as (y & _ & ->).
    apply lower_char_idempotent.
  - now apply contains_char_In.
  - unfold cleaned_core. apply split_hd_no_sep.
  - exact Hfrom.
  - pose proof (length_cleaned_core (lower (strip d))) as H1.
    pose proof (length_strip d) as H2.
    assert (H3 : length (lower (strip d)) = length (strip d))
      by (unfold lower; apply length_map).
    lia.
Qed.

Lemma clean_domain_result_shape_witness :
  ascii_text (lit "example.com")
  /\ lower (lit "example.com") = lit "example.com"
  /\ In "."%char (lit "example.com")
  /\ ~ In "/"%char (lit "example.com")
  /\ (forall x, In x (lit "example.com") ->
        exists y, In y (lit " Example.com/About ") /\ x = lower_char y)
  /\ length (lit "example.com") <= length (lit " Example.com/About ").
Proof.
  apply (clean_domain_result_shape (lit " Example.com/About ") (lit "example.com")).
  - repeat constructor.
  - reflexivity.
Defined.

End MoreCleanDomain.
